(** * Slug generation and transliteration-table compilation

    A shallow embedding of [text/slugify.ts], [text/slugify_char_map.ts] and
    [text/_slugify_char_map/build.ts], with the properties of the
    specification stated and settled against it.

    Modelling conventions.
    - A JavaScript string is a list of code points ([N]); its [length]
      property (UTF-16 code units) is [jslength].
    - A [Map<string, string>] is an insertion-ordered association list with
      unique keys ([JSMap]); Map objects live in a store and are named by
      their location, so that the identity-keyed [WeakMap] cache of
      [getTransliterationRe] can be modelled as a finite map on locations.
    - A regular expression is its [g] flag together with the function that
      tells, at a position of a subject string, how long the match starting
      there is.
    - What the engine supplies ([Intl.Segmenter], [String.prototype.normalize],
      [toLowerCase], [trim], the Unicode general categories, collation) is a
      record of functions, [Platform]. *)

From Stdlib Require Import NArith String Ascii.
From stdpp Require Import gmap list sorting.

Local Open Scope N_scope.
Local Open Scope nat_scope.

(** ** Strings *)

Module JS.

Abbreviation jsstring := (list N).

(** An ASCII literal as a list of code points. *)
Definition str (s : string) : jsstring :=
  map N_of_ascii (list_ascii_of_string s).

(** [s.length]: the number of UTF-16 code units. *)
Definition units (c : N) : nat := if (c <? 65536)%N then 1 else 2.

Definition jslength (s : jsstring) : nat := sum_list (map units s).

Definition HYPHEN : N := 45%N.

(** [words.join(sep)] *)
Fixpoint join (sep : jsstring) (words : list jsstring) : jsstring :=
  match words with
  | [] => []
  | [w] => w
  | w :: ws => w ++ sep ++ join sep ws
  end.

(** [x || "-"] on strings: the empty string is falsy. *)
Definition orElse (x y : jsstring) : jsstring :=
  match x with [] => y | _ => x end.

(** ** Regular expressions and [replaceAll] *)

(** [exec before rest] is the length of the match that a search from left
    to right finds at the position that has the code points [before]
    (nearest first) to its left and [rest] to its right, if it finds one
    there (with the [y] flag: none at a position that the matches before do
    not reach). [global] is the [g] flag, which [replaceAll] requires: for a
    pattern without it [replaceAll] throws a [TypeError]. *)
Record RegExp := {
  exec : jsstring -> jsstring -> option nat;
  global : bool;
}.

(** [subject.replaceAll(re, f)] for a global [re] (the caller looks at the
    flag): matches are found left to right; after a match the search
    resumes at its end, and after an empty match one code point further.
    [skip] counts the code points of the current match that are still to be
    passed over. *)
Fixpoint replaceFrom (re : RegExp) (f : jsstring -> jsstring)
    (before rest : jsstring) (skip : nat) : jsstring :=
  match skip, rest with
  | S k, c :: rest' => replaceFrom re f (c :: before) rest' k
  | S _, [] => []
  | 0, [] =>
      match exec re before [] with
      | Some n => f []
      | None => []
      end
  | 0, c :: rest' =>
      match exec re before rest with
      | Some 0 => f [] ++ c :: replaceFrom re f (c :: before) rest' 0
      | Some (S n) => f (take (S n) rest) ++ replaceFrom re f (c :: before) rest' n
      | None => c :: replaceFrom re f (c :: before) rest' 0
      end
  end.

Definition replaceAll (re : RegExp) (f : jsstring -> jsstring)
    (s : jsstring) : jsstring :=
  replaceFrom re f [] s 0.

(** A pattern that consumes exactly one code point of a class. *)
Definition oneOf (cls : N -> bool) : RegExp :=
  {| exec := fun _ rest =>
       match rest with
       | c :: _ => if cls c then Some 1 else None
       | [] => None
       end;
     global := true |}.

(** The length of the longest prefix whose code points are all in a class. *)
Fixpoint run (cls : N -> bool) (s : jsstring) : nat :=
  match s with
  | c :: s' => if cls c then S (run cls s') else 0
  | [] => 0
  end.

(** [/[cls]{k,}/g] for [k >= 1]: a greedy run of at least [k] code points. *)
Definition runOf (k : nat) (cls : N -> bool) : RegExp :=
  {| exec := fun _ rest =>
       let n := run cls rest in
       if decide (k ≤ n ∧ 1 ≤ n) then Some n else None;
     global := true |}.


(** [Array.prototype.sort(cmp)]: the sort is stable, which for a consistent
    comparator fixes its result; [after x y] stands for [cmp(x, y) > 0]. *)
Fixpoint insertBy {A} (after : A -> A -> bool) (x : A) (l : list A) : list A :=
  match l with
  | [] => [x]
  | y :: l' => if after x y then y :: insertBy after x l' else x :: l
  end.

Definition sortBy {A} (after : A -> A -> bool) (l : list A) : list A :=
  foldr (insertBy after) [] l.

(** [cmp(a, b) <= 0]: [a] may stand before [b]. *)
Definition notAfter {A} (after : A -> A -> bool) (a b : A) : Prop :=
  after a b = false.

(** ** [Map<string, string>] *)

Abbreviation JSMap := (list (jsstring * jsstring)).

Fixpoint mapGet (m : JSMap) (k : jsstring) : option jsstring :=
  match m with
  | [] => None
  | (k', v) :: m' => if decide (k = k') then Some v else mapGet m' k
  end.

Definition mapHas (m : JSMap) (k : jsstring) : bool :=
  match mapGet m k with Some _ => true | None => false end.

(** [m.set(k, v)]: an existing key keeps its place in the iteration order. *)
Fixpoint mapSet (m : JSMap) (k v : jsstring) : JSMap :=
  match m with
  | [] => [(k, v)]
  | (k', v') :: m' =>
      if decide (k = k') then (k, v) :: m' else (k', v') :: mapSet m' k v
  end.

Fixpoint mapDelete (m : JSMap) (k : jsstring) : JSMap :=
  match m with
  | [] => []
  | (k', v') :: m' =>
      if decide (k = k') then m' else (k', v') :: mapDelete m' k
  end.

Definition mapKeys (m : JSMap) : list jsstring := map fst m.

(** ** What the engine supplies *)

Record Platform := {
  (** [s.trim()] *)
  trim : jsstring -> jsstring;
  (** [s.normalize("NFD")], [s.normalize("NFC")], [s.normalize("NFKD")] *)
  nfd : jsstring -> jsstring;
  nfc : jsstring -> jsstring;
  nfkd : jsstring -> jsstring;
  (** [s.toLowerCase()] *)
  toLowerCase : jsstring -> jsstring;
  (** [new Intl.Segmenter("en-US", { granularity: "word" }).segment(s)]:
      the segments in order, each with its [isWordLike] flag. *)
  segment : jsstring -> list (jsstring * bool);
  (** the general categories behind [\p{L}], [\p{M}] and [\p{N}] *)
  isL : N -> bool;
  isM : N -> bool;
  isN : N -> bool;
  (** [a.localeCompare(b, "en-US")] *)
  localeCompare : jsstring -> jsstring -> Z;
}.

End JS.

(** ** [text/slugify.ts] *)

Module Slugify.
Import JS.

(** *** The patterns [new RegExp(source, "gu")] is given

    [getTransliterationRe] interpolates the map's keys into the pattern
    source unescaped, so the source has to be read as a pattern. The fragment
    read here has pattern characters, [.], [|], groups [( )] and [(?: )];
    every other syntax character puts a source outside the fragment. *)

Inductive Pattern :=
| PEmpty
| PChar (c : N)
| PAny
| PSeq (p q : Pattern)
| PAlt (p q : Pattern).

(** LineTerminator :: LF, CR, LS, PS *)
Definition isLineTerminator (c : N) : bool :=
  bool_decide (c ∈ [10; 13; 8232; 8233]%N).

(** The lengths of the matches of [p] at the head of [s], in the order in
    which a backtracking matcher tries them. *)
Fixpoint matches (p : Pattern) (s : jsstring) : list nat :=
  match p with
  | PEmpty => [0]
  | PChar c =>
      match s with
      | c' :: _ => if decide (c = c') then [1] else []
      | [] => []
      end
  | PAny =>
      match s with
      | c' :: _ => if isLineTerminator c' then [] else [1]
      | [] => []
      end
  | PSeq p q =>
      flat_map (fun n => map (Nat.add n) (matches q (drop n s))) (matches p s)
  | PAlt p q => matches p s ++ matches q s
  end.

Definition regexOf (p : Pattern) : RegExp :=
  {| exec := fun _ rest => head (matches p rest); global := true |}.

(** SyntaxCharacter :: one of [^ $ \ . * + ? ( ) [ ] { } |] *)
Definition isSyntaxCharacter (c : N) : bool :=
  bool_decide (c ∈ str "^$\.*+?()[]{}|").

Inductive Token := TChar (c : N) | TDot | TBar | TOpen | TClose | TOther.

Definition LPAREN : N := 40%N.
Definition RPAREN : N := 41%N.
Definition BAR : N := 124%N.
Definition DOT : N := 46%N.

Fixpoint tokenize (src : jsstring) : list Token :=
  match src with
  | [] => []
  | c :: rest =>
      let one :=
        (if decide (c = LPAREN) then TOpen
         else if decide (c = RPAREN) then TClose
         else if decide (c = BAR) then TBar
         else if decide (c = DOT) then TDot
         else if isSyntaxCharacter c then TOther
         else TChar c) :: tokenize rest in
      match rest with
      | c2 :: c3 :: rest3 =>
          if decide (c = LPAREN ∧ c2 = 63%N ∧ c3 = 58%N)
          then TOpen :: tokenize rest3
          else one
      | _ => one
      end
  end.

(** A disjunction being read: the alternatives already closed by a [|]
    (latest first) and the alternative under construction. *)
Record Frame := { alts : list Pattern; cur : Pattern }.

Definition emptyFrame : Frame := {| alts := []; cur := PEmpty |}.

Definition closeFrame (f : Frame) : Pattern :=
  foldl (fun acc a => PAlt a acc) (cur f) (alts f).

Definition pushTerm (f : Frame) (p : Pattern) : Frame :=
  {| alts := alts f; cur := PSeq (cur f) p |}.

Inductive Compiled :=
| Compiles (p : Pattern)
| SyntaxError
| OutsideFragment.

Fixpoint parse (ts : list Token) (top : Frame) (stack : list Frame) : Compiled :=
  match ts with
  | [] =>
      match stack with
      | [] => Compiles (closeFrame top)
      | _ :: _ => SyntaxError (* unterminated group *)
      end
  | TChar c :: ts' => parse ts' (pushTerm top (PChar c)) stack
  | TDot :: ts' => parse ts' (pushTerm top PAny) stack
  | TBar :: ts' => parse ts' {| alts := cur top :: alts top; cur := PEmpty |} stack
  | TOpen :: ts' => parse ts' emptyFrame (top :: stack)
  | TClose :: ts' =>
      match stack with
      | [] => SyntaxError (* unmatched ')' *)
      | parent :: stack' => parse ts' (pushTerm parent (closeFrame top)) stack'
      end
  | TOther :: _ => OutsideFragment
  end.

Definition isOther (t : Token) : bool :=
  match t with TOther => true | _ => false end.

(** [new RegExp(source, "gu")] on the fragment. *)
Definition compile (source : jsstring) : Compiled :=
  let ts := tokenize source in
  if existsb isOther ts then OutsideFragment else parse ts emptyFrame [].

(** *** The store: Map objects and the pattern cache *)

Abbreviation loc := positive.

Record Store := {
  (** the Map objects, by identity *)
  maps : gmap loc JSMap;
  (** [transliterationReCache], a [WeakMap] keyed by the Map object *)
  transliterationReCache : gmap loc RegExp;
}.

(** No Map object yet, nothing cached. *)
Definition emptyStore : Store := {| maps := ∅; transliterationReCache := ∅ |}.

Definition theMap (st : Store) (l : loc) : JSMap := default [] (maps st !! l).

(** [charMap.set(k, v)] on the object at [l]. *)
Definition storeSet (st : Store) (l : loc) (k v : jsstring) : Store :=
  {| maps := <[l := mapSet (theMap st l) k v]> (maps st);
     transliterationReCache := transliterationReCache st |}.

(** How a call ends: with a value, with the [SyntaxError] that
    [new RegExp] throws ([Throws]), with the [TypeError] that [replaceAll]
    throws, or outside what is modelled (a pattern source outside the
    fragment). *)
Inductive Outcome (A : Type) :=
| Returns (a : A)
| Throws
| TypeError
| Unmodelled.
Arguments Returns {A} a.
Arguments Throws {A}.
Arguments TypeError {A}.
Arguments Unmodelled {A}.

(** [/[^\s\S]/gu]: matches nothing. *)
Definition matchNothing : RegExp :=
  {| exec := fun _ _ => None; global := true |}.

(** [(a, b) => b.length - a.length] is positive when [a] is the shorter. *)
Definition shorter (a b : jsstring) : bool := jslength a <? jslength b.

Definition transliterationSource (m : JSMap) : jsstring :=
  str "(?:" ++ join (str "|") (sortBy shorter (mapKeys m)) ++ str ")".

Definition getTransliterationRe (l : loc) (st : Store) : Outcome RegExp * Store :=
  match transliterationReCache st !! l with
  | Some re => (Returns re, st)
  | None =>
      match theMap st l with
      | [] => (Returns matchNothing, st)
      | m =>
          match compile (transliterationSource m) with
          | Compiles p =>
              let re := regexOf p in
              (Returns re,
               {| maps := maps st;
                  transliterationReCache := <[l := re]> (transliterationReCache st) |})
          | SyntaxError => (Throws, st)
          | OutsideFragment => (Unmodelled, st)
          end
      end
  end.

Inductive TransliterationConfig :=
| Transliterate (charMap : loc) (re : RegExp)
| NoTransliterate.

Definition transliterate (config : TransliterationConfig) : bool :=
  match config with Transliterate _ _ => true | NoTransliterate => false end.

(** [word.replaceAll(config.re, (m) => config.charMap.get(m) ?? m)] *)
Definition convertWord (st : Store) (word : jsstring)
    (config : TransliterationConfig) : jsstring :=
  match config with
  | Transliterate l re =>
      replaceAll re (fun m => default m (mapGet (theMap st l) m)) word
  | NoTransliterate => word
  end.

(** Every cached pattern has the [g] flag. Only [getTransliterationRe]
    writes the cache, and it keeps it so: the [replaceAll] of [convertWord]
    does not throw. *)
Definition cacheGlobal (st : Store) : Prop :=
  ∀ l re, transliterationReCache st !! l = Some re → global re = true.

(** *** The exported strip patterns *)

Definition inRange (lo hi c : N) : bool := ((lo <=? c) && (c <=? hi))%N.

Definition isDigit (c : N) : bool := inRange 48 57 c.
Definition isLower (c : N) : bool := inRange 97 122 c.
Definition isUpper (c : N) : bool := inRange 65 90 c.
Definition isHyphen (c : N) : bool := bool_decide (c = HYPHEN).

(** [[0-9a-zA-Z\-]] *)
Definition asciiWord (c : N) : bool :=
  isDigit c || isLower c || isUpper c || isHyphen c.

Section Patterns.
Context (P : Platform).

(** [[\p{L}\p{M}\p{N}\-]] *)
Definition unicodeWord (c : N) : bool :=
  isL P c || isM P c || isN P c || isHyphen c.

(** [NON_WORD = /[^\p{L}\p{M}\p{N}\-]+/gu] *)
Definition NON_WORD : RegExp := runOf 1 (fun c => negb (unicodeWord c)).

(** [DIACRITICS = /[^\p{L}\p{N}\-]+/gu] *)
Definition DIACRITICS : RegExp :=
  runOf 1 (fun c => negb (isL P c || isN P c || isHyphen c)).

(** [ASCII_DIACRITICS = /(?<=[a-zA-Z])\p{M}+|[^\p{L}\p{M}\p{N}\-]+/gu] *)
Definition ASCII_DIACRITICS : RegExp :=
  {| exec := fun before rest =>
       let marks := run (isM P) rest in
       match before with
       | b :: _ =>
           if (isLower b || isUpper b) && bool_decide (1 ≤ marks)
           then Some marks
           else exec NON_WORD before rest
       | [] => exec NON_WORD before rest
       end;
     global := true |}.

End Patterns.

(** [NON_ASCII = /[^0-9a-zA-Z\-]/g] *)
Definition NON_ASCII : RegExp := oneOf (fun c => negb (asciiWord c)).

(** [/-{2,}/g] *)
Definition HYPHENS : RegExp := runOf 2 isHyphen.

(** [/^-|-$/g] *)
Definition EDGE_HYPHEN : RegExp :=
  {| exec := fun before rest =>
       match before, rest with
       | [], c :: _ => if isHyphen c then Some 1 else None
       | _ :: _, [c] => if isHyphen c then Some 1 else None
       | _, _ => None
       end;
     global := true |}.

(** *** [slugify] *)

Record SlugifyOptions := {
  charMap : option loc;
  strip : option RegExp;
}.

(** No options given. *)
Definition noOptions : SlugifyOptions := {| charMap := None; strip := None |}.

Section WithPlatform.
Context (P : Platform).

(** The loop over the segments. *)
Definition collectWords (segments : list (jsstring * bool)) : list jsstring :=
  omap (fun s =>
          if (s.2 : bool) then Some s.1
          else match s.1 with
               | [] => None
               | _ :: _ => Some [HYPHEN]
               end) segments.

Definition stripPattern (options : SlugifyOptions)
    (config : TransliterationConfig) : RegExp :=
  match strip options with
  | Some re => re
  | None => if transliterate config then NON_ASCII else NON_WORD P
  end.

(** The chain of the [return] statement up to the two hyphen rewrites. *)
Definition stages (st : Store) (input : jsstring) (stripRe : RegExp)
    (config : TransliterationConfig) : jsstring :=
  let words := collectWords (segment P (toLowerCase P (nfd P (trim P input)))) in
  let joined :=
    join (if transliterate config then [HYPHEN] else [])
         (map (fun word => convertWord st word config) words) in
  let stripped := replaceAll stripRe (fun _ => []) joined in
  let collapsed := replaceAll HYPHENS (fun _ => [HYPHEN]) (nfc P stripped) in
  replaceAll EDGE_HYPHEN (fun _ => []) collapsed.

(** [slugify(input, options)] once [config] is known. *)
Definition slugifyWith (st : Store) (input : jsstring)
    (options : SlugifyOptions) (config : TransliterationConfig) : jsstring :=
  orElse (stages st input (stripPattern options config) config) [HYPHEN].

(** The [return] statement: [.replaceAll(stripRe, "")] throws a
    [TypeError] when [stripRe], the clone of the strip pattern, has no [g]
    flag. *)
Definition finish (st : Store) (input : jsstring) (options : SlugifyOptions)
    (config : TransliterationConfig) : Outcome jsstring :=
  if global (stripPattern options config)
  then Returns (slugifyWith st input options config)
  else TypeError.

Definition slugify (input : jsstring) (options : SlugifyOptions)
    (st : Store) : Outcome jsstring * Store :=
  match charMap options with
  | Some l =>
      match getTransliterationRe l st with
      | (Returns re, st') => (finish st' input options (Transliterate l re), st')
      | (Throws, st') => (Throws, st')
      | (TypeError, st') => (TypeError, st')
      | (Unmodelled, st') => (Unmodelled, st')
      end
  | None => (finish st input options NoTransliterate, st)
  end.

End WithPlatform.

End Slugify.

(** ** [text/slugify_char_map.ts] and [text/_slugify_char_map/build.ts] *)

Module Build.
Import JS Slugify.

(** *** Objects used as records of string keys

    An object is kept as its properties in creation order; enumeration
    ([Object.entries], [JSON.stringify]) lists the array-index keys first, in
    ascending numeric order, and then the other keys in creation order. *)

Abbreviation JSObject V := (list (jsstring * V)).

Definition digitValue (c : N) : option N :=
  if ((48 <=? c) && (c <=? 57))%N then Some (c - 48)%N else None.

Fixpoint decimal (acc : N) (s : jsstring) : option N :=
  match s with
  | [] => Some acc
  | c :: s' =>
      match digitValue c with
      | Some d => decimal (acc * 10 + d)%N s'
      | None => None
      end
  end.

(** The array index a key denotes: a canonical numeric string below
    [2^32 - 1]. *)
Definition arrayIndex (k : jsstring) : option N :=
  match k with
  | [] => None
  | c :: k' =>
      if decide (c = 48%N ∧ k' ≠ []) then None
      else match decimal 0 k with
           | Some n => if (n <? 4294967295)%N then Some n else None
           | None => None
           end
  end.

Definition isArrayIndex (k : jsstring) : bool :=
  match arrayIndex k with Some _ => true | None => false end.

Definition indexAfter {V} (x y : jsstring * V) : bool :=
  match arrayIndex x.1, arrayIndex y.1 with
  | Some a, Some b => (b <? a)%N
  | _, _ => false
  end.

(** [Object.entries(o)] *)
Definition entries {V} (o : JSObject V) : list (jsstring * V) :=
  sortBy indexAfter (filter (fun e => isArrayIndex e.1 = true) o)
  ++ filter (fun e => isArrayIndex e.1 = false) o.

Fixpoint objGet {V} (o : JSObject V) (k : jsstring) : option V :=
  match o with
  | [] => None
  | (k', v) :: o' => if decide (k = k') then Some v else objGet o' k
  end.

(** [o[k] = v] *)
Fixpoint objSet {V} (o : JSObject V) (k : jsstring) (v : V) : JSObject V :=
  match o with
  | [] => [(k, v)]
  | (k', v') :: o' =>
      if decide (k = k') then (k, v) :: o' else (k', v') :: objSet o' k v
  end.

(** [Object.fromEntries(l)], and the object a JSON text denotes. *)
Definition fromEntries {V} (l : list (jsstring * V)) : JSObject V :=
  foldl (fun o e => objSet o e.1 e.2) [] l.

(** The property names every object literal inherits from
    [Object.prototype] under Deno, where the script runs: Deno removes
    [__proto__] from [Object.prototype], so that name is not among them. *)
Definition inheritedNames : list jsstring :=
  map str ["constructor"; "__defineGetter__"; "__defineSetter__";
           "hasOwnProperty"; "__lookupGetter__"; "__lookupSetter__";
           "isPrototypeOf"; "propertyIsEnumerable"; "toString"; "valueOf";
           "toLocaleString"]%string.

(** *** [split] and [Set] *)

Definition COMMA : N := 44%N.

(** [s.split(",")] *)
Fixpoint splitComma (s : jsstring) : list jsstring :=
  match s with
  | [] => [[]]
  | c :: s' =>
      if decide (c = COMMA) then [] :: splitComma s'
      else match splitComma s' with
           | w :: ws => (c :: w) :: ws
           | [] => [[c]]
           end
  end.

(** [[...new Set(l)]]: the first occurrence of each element, in order. *)
Definition dedupe (l : list jsstring) : list jsstring :=
  foldl (fun acc x => if decide (x ∈ acc) then acc else acc ++ [x]) [] l.

(** *** The loader, [slugify_char_map.ts] *)

(** A serialized table: the members of the JSON object, in text order. *)
Abbreviation SerializedTable := (list (jsstring * jsstring)).

Definition charMap (table : SerializedTable) : JSMap :=
  foldl (fun m x => foldl (fun m y => mapSet m y x.1) m (splitComma x.2))
        [] (entries (fromEntries table)).

(** *** The compiler, [build.ts] *)

Section WithPlatform.
Context (P : Platform).

(** [sortAlphabetical(a, b) > 0] *)
Definition sortAlphabetical (a b : jsstring) : bool :=
  (0 <? localeCompare P a b)%Z.

Definition normalize (s : jsstring) : jsstring :=
  toLowerCase P (nfd P (trim P s)).

(** The three file-name patterns. *)
Inductive StepRe := INTERINDIC | TO_LATIN | LATIN_ASCII.

Definition endsWith (s suffix : jsstring) : bool :=
  bool_decide (drop (length s - length suffix) s = suffix).

(** [name.match(re)] as a truth value. *)
Definition nameMatches (re : StepRe) (name : jsstring) : bool :=
  match re with
  | INTERINDIC => endsWith name (str "_InterIndic.txt")
  | TO_LATIN =>
      existsb (fun suffix =>
                 endsWith name suffix
                 && negb (endsWith (take (length name - length suffix) name)
                                   (str "Grek")))
              [str "_Latn.txt"; str "_Latin.txt"; str "_Latn_BGN.txt"]
  | LATIN_ASCII => bool_decide (name = str "Latin_ASCII.txt")
  end.

Definition mappingStepFileNameRegexes : list StepRe :=
  reverse [INTERINDIC; TO_LATIN; LATIN_ASCII].

(** A rule as the parser yields it; [lhs] is already a list (the
    [Array.isArray(_lhs) ? _lhs : [_lhs]] of the loop). *)
Record Line := { lhs : list jsstring; rhs : jsstring }.

(** A directory entry with the lines parsed from its text. *)
Record DirEntry := { name : jsstring; lines : list Line }.

(** The body of the innermost loop. *)
Definition addRule (map : JSMap) (_lhs _rhs : jsstring) : JSMap :=
  let lhs := normalize _lhs in
  let rhs := normalize _rhs in
  match lhs with
  | [] => map
  | _ :: _ =>
      let map := mapSet map lhs rhs in
      match mapGet map rhs with
      | Some further => mapSet map lhs further
      | None => map
      end
  end.

Definition addLine (map : JSMap) (line : Line) : JSMap :=
  foldl (fun map l => addRule map l (rhs line)) map (lhs line).

(** The state of the run: the map and what [console.info] has printed. *)
Definition addFile (acc : JSMap * list jsstring) (f : DirEntry)
    : JSMap * list jsstring :=
  (foldl addLine acc.1 (lines f), acc.2 ++ [name f]).

Definition addStep (dirEntries : list DirEntry)
    (acc : JSMap * list jsstring) (re : StepRe) : JSMap * list jsstring :=
  foldl addFile acc (filter (fun f => nameMatches re (name f) = true) dirEntries).

Definition buildMap (dirEntries : list DirEntry) : JSMap * list jsstring :=
  foldl (addStep dirEntries) ([], []) mappingStepFileNameRegexes.

(** [NON_ASCII_ALPHANUM.test(s)], with
    [NON_ASCII_ALPHANUM = /[^a-zA-Z0-9\-']/] *)
Definition NON_ASCII_ALPHANUM (s : jsstring) : bool :=
  existsb (fun c => negb (asciiWord c || bool_decide (c = 39%N))) s.

(** [/[$()\[\]\-\+\*\?\{\},]/.test(k)] *)
Definition hasReserved (k : jsstring) : bool :=
  existsb (fun c => bool_decide (c ∈ str "$()[]-+*?{},")) k.

(** The body of the loop over [map.entries()]; the entry visited is the
    only one the body deletes or sets. *)
Definition postProcessEntry (map : JSMap) (e : jsstring * jsstring) : JSMap :=
  let k := e.1 in
  let v := e.2 in
  let vNormalized :=
    replaceAll (oneOf (fun c => negb (isL P c || isN P c))) (fun _ => [])
               (nfkd P v) in
  if negb (NON_ASCII_ALPHANUM k) && negb (NON_ASCII_ALPHANUM v)
  then mapDelete map k
  else if bool_decide (k = []) || hasReserved k then mapDelete map k
  else if bool_decide (vNormalized = []) then mapDelete map k
  else if NON_ASCII_ALPHANUM vNormalized then mapDelete map k
  else mapSet map k vNormalized.

Definition postProcess (map : JSMap) : JSMap :=
  foldl postProcessEntry map map.

(** [_out[v] ??= []; _out[v].push(k)]. [_out] is an object literal: for a
    name it inherits, [_out[v]] is not nullish and has no [push], and the
    statement throws a [TypeError] ([None]). *)
Definition pushUnder (_out : JSObject (list jsstring)) (v k : jsstring)
    : option (JSObject (list jsstring)) :=
  match objGet _out v with
  | Some l => Some (objSet _out v (l ++ [k]))
  | None =>
      if bool_decide (v ∈ inheritedNames) then None
      else Some (objSet _out v [k])
  end.

Definition groupByTarget (map : JSMap) : option (JSObject (list jsstring)) :=
  foldl (fun _out e =>
           match _out with
           | Some o => pushUnder o e.2 e.1
           | None => None
           end)
        (Some []) map.

(** [out], as [JSON.stringify] lists it. *)
Definition out (map : JSMap) : option SerializedTable :=
  match groupByTarget map with
  | Some _out =>
      Some (entries
        (fromEntries
           (List.map
              (fun e => (e.1, join [COMMA] (dedupe (sortBy sortAlphabetical e.2))))
              (sortBy (fun a b => sortAlphabetical a.1 b.1) (entries _out)))))
  | None => None
  end.

(** The run of the script up to the table it writes. *)
Definition build (dirEntries : list DirEntry) : option SerializedTable :=
  out (postProcess (buildMap dirEntries).1).

(** [dirEntries]: the listing of the directory, sorted by name. *)
Definition dirEntries (listing : list DirEntry) : list DirEntry :=
  sortBy (fun a b => sortAlphabetical (name a) (name b)) listing.

(** The whole script, from the listing of the directory to the table. *)
Definition script (listing : list DirEntry) : option SerializedTable :=
  build (dirEntries listing).

(** *** The earlier version of the script: from the map to the table *)

(** [outRev[v] ??= []; outRev[v].push(k)], where [outRev] is
    [Object.create(null)] and so inherits nothing. *)
Definition pushUnderNull (outRev : JSObject (list jsstring)) (v k : jsstring)
    : JSObject (list jsstring) :=
  match objGet outRev v with
  | Some l => objSet outRev v (l ++ [k])
  | None => objSet outRev v [k]
  end.

Definition outRev (all : JSMap) : JSObject (list jsstring) :=
  foldl (fun o e => pushUnderNull o e.2 e.1) [] all.

Definition allOut (all : JSMap) : list (jsstring * jsstring) :=
  List.map (fun e => (e.1, join [COMMA] (sortBy sortAlphabetical e.2)))
    (sortBy (fun a b => sortAlphabetical a.1 b.1) (entries (outRev all))).

(** [Object.fromEntries(allOut)], as [JSON.stringify] lists it. *)
Definition writtenEarlier (all : JSMap) : SerializedTable :=
  entries (fromEntries (allOut all)).

End WithPlatform.

End Build.

(** ** An engine for a small repertoire

    [Basic.platform] does what the engine does on text written with ASCII,
    U+00C9, U+00E9 and U+0301 (combining acute accent): canonical
    (de)composition of the two accented letters, lowercasing, the word
    boundaries of UAX #29 with the word-break classes of that repertoire, and
    the general categories. It is what the examples run on; the general
    statements quantify over every [Platform]. *)

Module Basic.
Import JS.

Definition ACUTE : N := 769%N.

Definition isWhiteSpace (c : N) : bool :=
  bool_decide (c ∈ [9; 10; 11; 12; 13; 32; 160; 5760; 8232; 8233; 8239; 8287;
                    12288; 65279]%N)
  || ((8192 <=? c) && (c <=? 8202))%N.

Fixpoint trimStart (s : jsstring) : jsstring :=
  match s with
  | c :: s' => if isWhiteSpace c then trimStart s' else s
  | [] => []
  end.

Definition trim (s : jsstring) : jsstring :=
  reverse (trimStart (reverse (trimStart s))).

Definition decompose (c : N) : jsstring :=
  if decide (c = 233%N) then [101%N; ACUTE]
  else if decide (c = 201%N) then [69%N; ACUTE]
  else [c].

Definition nfd (s : jsstring) : jsstring := flat_map decompose s.

Fixpoint nfc (s : jsstring) : jsstring :=
  match s with
  | [] => []
  | c :: rest =>
      match rest with
      | m :: rest' =>
          if decide (m = ACUTE ∧ c = 101%N) then 233%N :: nfc rest'
          else if decide (m = ACUTE ∧ c = 69%N) then 201%N :: nfc rest'
          else c :: nfc rest
      | [] => [c]
      end
  end.

Definition lowerChar (c : N) : N :=
  if ((65 <=? c) && (c <=? 90))%N then (c + 32)%N
  else if decide (c = 201%N) then 233%N
  else c.

Definition toLowerCase (s : jsstring) : jsstring := map lowerChar s.

Definition isL (c : N) : bool :=
  ((65 <=? c) && (c <=? 90))%N || ((97 <=? c) && (c <=? 122))%N
  || bool_decide (c = 201%N) || bool_decide (c = 233%N).
Definition isM (c : N) : bool := bool_decide (c = ACUTE).
Definition isN (c : N) : bool := ((48 <=? c) && (c <=? 57))%N.

(** Word-break classes. *)
Inductive WB :=
| ALetter | Numeric | ExtendNumLet | Extend | WSegSpace
| CR | LF | Newline | MidNumLet | MidNum | SingleQuote | Other.

#[export] Instance WB_eq_dec : EqDecision WB.
Proof. solve_decision. Defined.

Definition wordBreak (c : N) : WB :=
  if isL c then ALetter
  else if isN c then Numeric
  else if decide (c = 95%N) then ExtendNumLet
  else if decide (c = ACUTE) then Extend
  else if decide (c = 32%N) then WSegSpace
  else if decide (c = 13%N) then CR
  else if decide (c = 10%N) then LF
  else if decide (c = 11%N ∨ c = 12%N) then Newline
  else if decide (c = 46%N) then MidNumLet
  else if decide (c = 44%N ∨ c = 59%N) then MidNum
  else if decide (c = 39%N) then SingleQuote
  else Other.

(** A code point with the [Extend] code points attached to it (WB4). *)
Abbreviation unit := (WB * jsstring)%type.

Definition isLineEnd (w : WB) : bool :=
  bool_decide (w = CR ∨ w = LF ∨ w = Newline).

Definition flush (pending : jsstring) (us : list unit) : list unit :=
  match pending with [] => us | _ :: _ => (Extend, pending) :: us end.

(** Right to left: [Extend] code points wait for the code point on their
    left; at the start of the text and after a line end they stand alone. *)
Definition unitStep (c : N) (acc : jsstring * list unit) : jsstring * list unit :=
  let w := wordBreak c in
  if decide (w = Extend) then (c :: acc.1, acc.2)
  else if isLineEnd w then ([], (w, [c]) :: flush acc.1 acc.2)
  else ([], (w, c :: acc.1) :: acc.2).

Definition unitsOf (s : jsstring) : list unit :=
  let acc := foldr unitStep ([], []) s in flush acc.1 acc.2.

Definition isMidLetterQ (w : WB) : bool :=
  bool_decide (w = MidNumLet ∨ w = SingleQuote).
Definition isMidNumQ (w : WB) : bool :=
  bool_decide (w = MidNum ∨ w = MidNumLet ∨ w = SingleQuote).

(** No boundary between [prev] and [next] (WB3, WB3d, WB5 to WB13b). *)
Definition noBreak (prev2 : option WB) (prev : unit) (next : unit)
    (next2 : option WB) : bool :=
  match prev.1, next.1 with
  | CR, LF => true
  | WSegSpace, WSegSpace => bool_decide (length prev.2 = 1)
  | ALetter, ALetter | Numeric, Numeric
  | ALetter, Numeric | Numeric, ALetter => true
  | ALetter, w => bool_decide (w = ExtendNumLet)
                  || (isMidLetterQ w && bool_decide (next2 = Some ALetter))
  | Numeric, w => bool_decide (w = ExtendNumLet)
                  || (isMidNumQ w && bool_decide (next2 = Some Numeric))
  | ExtendNumLet, w =>
      bool_decide (w = ExtendNumLet ∨ w = ALetter ∨ w = Numeric)
  | w, ALetter => isMidLetterQ w && bool_decide (prev2 = Some ALetter)
  | w, Numeric => isMidNumQ w && bool_decide (prev2 = Some Numeric)
  | _, _ => false
  end.

(** [cur] is the segment under construction, latest unit first. *)
Fixpoint groupUnits (cur : list unit) (us : list unit) : list (list unit) :=
  match us with
  | [] => match cur with [] => [] | _ :: _ => [reverse cur] end
  | u :: us' =>
      match cur with
      | [] => groupUnits [u] us'
      | p :: before =>
          if noBreak (fst <$> head before) p u (fst <$> head us')
          then groupUnits (u :: cur) us'
          else reverse cur :: groupUnits [u] us'
      end
  end.

Definition isWordLike (seg : list unit) : bool :=
  existsb (fun u => bool_decide (u.1 = ALetter ∨ u.1 = Numeric)) seg
  || match seg with
     | (ExtendNumLet, _) :: _ :: _ => true
     | _ => false
     end.

Definition segment (s : jsstring) : list (jsstring * bool) :=
  map (fun seg => (concat (map snd seg), isWordLike seg))
      (groupUnits [] (unitsOf s)).

(** Code point order: the collation order on strings of lowercase ASCII
    letters and digits, also when some carry the combining accent. *)
Fixpoint localeCompare (a b : jsstring) : Z :=
  match a, b with
  | [], [] => 0
  | [], _ :: _ => -1
  | _ :: _, [] => 1
  | x :: a', y :: b' =>
      match N.compare x y with
      | Lt => -1
      | Gt => 1
      | Eq => localeCompare a' b'
      end
  end%Z.

Definition platform : Platform :=
  {| JS.trim := trim; JS.nfd := nfd; JS.nfc := nfc; JS.nfkd := nfd;
     JS.toLowerCase := toLowerCase; JS.segment := segment;
     JS.isL := isL; JS.isM := isM; JS.isN := isN;
     JS.localeCompare := localeCompare |}.

(** Units of a text of lowercase letters, digits and hyphens, and the
    segments they make. *)
Definition alnumUnit (u : WB * jsstring) : Prop :=
  u.1 = ALetter ∨ u.1 = Numeric.

Definition hyphenUnit (u : WB * jsstring) : Prop :=
  u = (Other, [HYPHEN]).

Definition goodSegment (seg : list (WB * jsstring)) : Prop :=
  isWordLike seg = true ∨ seg = [(Other, [HYPHEN])].

End Basic.

(** ** The properties the specification states *)

Module Spec.
Import JS Build Slugify.

(** U+0000 to U+007F *)
Definition isAscii (c : N) : bool := (c <? 128)%N.

(** [^[a-z0-9-]+$] *)
Definition slugChar (c : N) : bool := isLower c || isDigit c || isHyphen c.

Definition matchesSlugCharset (r : jsstring) : Prop :=
  r ≠ [] ∧ Forall (fun c => slugChar c = true) r.

(** Two consecutive hyphens somewhere in [r]. *)
Definition hasDoubleHyphen (r : jsstring) : Prop :=
  ∃ a b, r = a ++ [HYPHEN; HYPHEN] ++ b.

Definition hyphenStructure (r : jsstring) : Prop :=
  ¬ hasDoubleHyphen r
  ∧ (r = [HYPHEN] ∨ (head r ≠ Some HYPHEN ∧ last r ≠ Some HYPHEN)).

(** *** Longest match first, in the words of the specification *)

(** The longest key of [m] that [rest] starts with. *)
Definition longestKeyAt (m : JSMap) (rest : jsstring) : option jsstring :=
  foldr (fun k best =>
           if bool_decide (k `prefix_of` rest)
           then match best with
                | Some b => if length b <? length k then Some k else Some b
                | None => Some k
                end
           else best)
        None (mapKeys m).

(** The pattern that matches, at each position, the longest key there. *)
Definition longestKeyPattern (m : JSMap) : RegExp :=
  {| exec := fun _ rest => length <$> longestKeyAt m rest; global := true |}.

(** Left to right, without overlap, every match gives way to its mapped
    root; what is not matched stays. *)
Definition longestMatchFirst (m : JSMap) (word : jsstring) : jsstring :=
  replaceAll (longestKeyPattern m)
    (fun key => default key (mapGet m key)) word.

(** A key that stands for itself in a pattern source. *)
Definition literalKey (k : jsstring) : Prop :=
  Forall (fun c => isSyntaxCharacter c = false) k.

(** *** The pattern compiled from literal keys *)

(** The key [k] as a sequence of pattern characters, after [p]. *)
Definition keyAfter (p : Pattern) (k : jsstring) : Pattern :=
  foldl (fun p c => PSeq p (PChar c)) p k.

Fixpoint alternation (ks : list jsstring) : Pattern :=
  match ks with
  | [] => PEmpty
  | [k] => keyAfter PEmpty k
  | k :: ks' => PAlt (keyAfter PEmpty k) (alternation ks')
  end.

(** The tokens of the keys joined by [|]. *)
Fixpoint keyTokens (ks : list jsstring) : list Token :=
  match ks with
  | [] => []
  | [k] => map TChar k
  | k :: ks' => map TChar k ++ TBar :: keyTokens ks'
  end.

(** The order the keys are sorted into. *)
Definition notShorter (a b : jsstring) : Prop := jslength b ≤ jslength a.

(** *** A serialized table as the compiler writes it *)

(** The sources listed under a root. *)
Definition sourcesOf (e : jsstring * jsstring) : list jsstring :=
  splitComma e.2.

(** The roots are distinct, none is a name that objects inherit, and they
    are listed in the order of the artifact (sorted alphabetically, then
    enumerated as the properties of an object); under each root the sources
    are sorted alphabetically and distinct; no source is listed twice. *)
Definition wellFormedTable (P : Platform) (table : SerializedTable) : Prop :=
  NoDup (map fst table)
  ∧ Forall (fun e => e.1 ∉ inheritedNames) table
  ∧ entries (fromEntries
       (sortBy (fun a b => sortAlphabetical P a.1 b.1) table)) = table
  ∧ Forall (fun e => dedupe (sortBy (sortAlphabetical P) (sourcesOf e))
                     = sourcesOf e) table
  ∧ NoDup (flat_map sourcesOf table).

(** Array-index keys in ascending order. *)
Definition indexSorted {V} (a b : jsstring * V) : Prop :=
  ∀ i j, arrayIndex a.1 = Some i → arrayIndex b.1 = Some j → (i ≤ j)%N.

(** *** What the statements assume of the engine *)

(** The empty string. *)
Record EmptyLaws (P : Platform) : Prop := {
  trim_nil : trim P [] = [];
  nfd_nil : nfd P [] = [];
  nfc_nil : nfc P [] = [];
  lower_nil : toLowerCase P [] = [];
  segment_nil : segment P [] = [];
}.

(** Lowercasing leaves no ASCII capital, the segments of a text make up the
    text, and composition leaves ASCII letters, digits and hyphens alone. *)
Record TextLaws (P : Platform) : Prop := {
  lower_no_upper : ∀ s, Forall (fun c => isUpper c = false) (toLowerCase P s);
  segment_concat : ∀ s, concat (map fst (segment P s)) = s;
  nfc_ascii : ∀ s, Forall (fun c => asciiWord c = true) s → nfc P s = s;
}.

(** ASCII text stays ASCII when trimmed and lowercased and is in normal
    form; the ASCII characters of the categories L, M and N are the letters
    and the digits. *)
Record AsciiLaws (P : Platform) : Prop := {
  trim_ascii : ∀ s, Forall (fun c => isAscii c = true) s →
    Forall (fun c => isAscii c = true) (trim P s);
  nfd_ascii : ∀ s, Forall (fun c => isAscii c = true) s → nfd P s = s;
  lower_ascii : ∀ s, Forall (fun c => isAscii c = true) s →
    Forall (fun c => isAscii c = true) (toLowerCase P s);
  category_ascii : ∀ c, isAscii c = true → unicodeWord P c = true →
    asciiWord c = true;
}.

(** A text of lowercase ASCII letters, digits and hyphens has no white
    space at its ends, is in both normal forms and in lower case; its letters
    and digits are of the categories L and N; and a segment of it that is not
    word-like is a single hyphen. *)
Record SlugLaws (P : Platform) : Prop := {
  trim_slug : ∀ s, Forall (fun c => slugChar c = true) s → trim P s = s;
  nfd_slug : ∀ s, Forall (fun c => slugChar c = true) s → nfd P s = s;
  lower_slug : ∀ s, Forall (fun c => slugChar c = true) s → toLowerCase P s = s;
  category_slug : ∀ c, slugChar c = true → unicodeWord P c = true;
  segment_slug : ∀ s, Forall (fun c => slugChar c = true) s →
    Forall (fun seg => seg.2 = true ∨ seg.1 = [HYPHEN]) (segment P s);
}.

(** A text is settled when decomposing it, lowercasing it and composing it
    again gives it back. *)
Definition settled (P : Platform) (z : jsstring) : Prop :=
  nfc P (toLowerCase P (nfd P z)) = z.

(** Texts of letters, marks, digits and hyphens: they have no white space
    at their ends and normalization and lowercasing keep them such; what
    [toLowerCase] returns is in lower case, also taken apart and put
    together with hyphens; the composition of a lowercase text is settled;
    and a settled text is still settled with one hyphen less. *)
Record FormLaws (P : Platform) : Prop := {
  word_trim : ∀ s, Forall (fun c => unicodeWord P c = true) s → trim P s = s;
  word_nfc : ∀ s, Forall (fun c => unicodeWord P c = true) s →
    Forall (fun c => unicodeWord P c = true) (nfc P s);
  word_nfd_lower : ∀ s, Forall (fun c => unicodeWord P c = true) s →
    Forall (fun c => unicodeWord P c = true) (toLowerCase P (nfd P s));
  lower_pieces : ∀ y x,
    Forall (fun c => c ∈ toLowerCase P y ∨ c = HYPHEN) x → toLowerCase P x = x;
  nfc_settled : ∀ x, toLowerCase P x = x → settled P (nfc P x);
  settled_double : ∀ a b,
    settled P (a ++ [HYPHEN; HYPHEN] ++ b) → settled P (a ++ [HYPHEN] ++ b);
  settled_leading : ∀ b, settled P (HYPHEN :: b) → settled P b;
  settled_trailing : ∀ a, settled P (a ++ [HYPHEN]) → settled P a;
}.

(** [localeCompare] is a consistent comparator. *)
Record CollationLaws (P : Platform) : Prop := {
  alphabetical_asym : ∀ a b,
    sortAlphabetical P a b = true → sortAlphabetical P b a = false;
  alphabetical_trans : ∀ a b c,
    notAfter (sortAlphabetical P) a b → notAfter (sortAlphabetical P) b c →
    notAfter (sortAlphabetical P) a c;
}.

(** The comparator tells any two of the strings [l] apart. *)
Definition tellsApart (P : Platform) (l : list jsstring) : Prop :=
  ∀ a b, a ∈ l → b ∈ l →
    notAfter (sortAlphabetical P) a b → notAfter (sortAlphabetical P) b a →
    a = b.

(** An entry the loop over [map.entries()] keeps. *)
Definition keptEntry (e : jsstring * jsstring) : Prop :=
  hasReserved e.1 = false ∧ NON_ASCII_ALPHANUM e.2 = false.

(** What [groupByTarget] has made of the entries [m]: distinct roots, none
    an inherited name, each with a non-empty list of sources, together the
    entries of [m]. *)
Definition groupsOf (G : JSObject (list jsstring)) (m : JSMap) : Prop :=
  NoDup (map fst G)
  ∧ Forall (fun g => (g.1 ∉ inheritedNames) ∧ (g.2 ≠ [])) G
  ∧ flat_map (fun g => map (fun k => (k, g.1)) g.2) G ≡ₚ m.

(** *** What the two hyphen rewrites compute *)

(** Dropping every hyphen that is followed by a hyphen. *)
Fixpoint squeeze (s : jsstring) : jsstring :=
  match s with
  | [] => []
  | c :: s' =>
      match s' with
      | d :: _ => if isHyphen c && isHyphen d then squeeze s' else c :: squeeze s'
      | [] => [c]
      end
  end.

(** One leading hyphen less. *)
Definition dropLeading (s : jsstring) : jsstring :=
  match s with
  | c :: s' => if isHyphen c then s' else s
  | [] => []
  end.

(** One trailing hyphen less. *)
Fixpoint dropTrailing (s : jsstring) : jsstring :=
  match s with
  | [] => []
  | c :: s' =>
      match s' with
      | [] => if isHyphen c then [] else [c]
      | _ :: _ => c :: dropTrailing s'
      end
  end.

(** No hyphen is followed by a hyphen. *)
Fixpoint noDouble (s : jsstring) : bool :=
  match s with
  | [] => true
  | c :: s' =>
      match s' with
      | d :: _ => negb (isHyphen c && isHyphen d) && noDouble s'
      | [] => true
      end
  end.

(** *** Further notions *)

(** [word.includes(k)] *)
Definition occursIn (k word : jsstring) : Prop := ∃ a b, word = a ++ k ++ b.

(** What [ASCII_DIACRITICS] leaves of a text, read from left to right:
    [marked] tells that the code point before is an ASCII letter, or a mark
    of the run of marks that follows one. *)
Fixpoint withoutAsciiDiacritics (P : Platform) (marked : bool) (s : jsstring)
    : jsstring :=
  match s with
  | [] => []
  | c :: s' =>
      if marked && isM P c then withoutAsciiDiacritics P true s'
      else if unicodeWord P c
           then c :: withoutAsciiDiacritics P (isLower c || isUpper c) s'
           else withoutAsciiDiacritics P (isLower c || isUpper c) s'
  end.

(** In the small repertoire: no letter [e] or [E] is followed by the
    combining accent. *)
Fixpoint composed (s : jsstring) : bool :=
  match s with
  | [] => true
  | c :: rest =>
      match rest with
      | m :: _ =>
          negb (bool_decide (m = Basic.ACUTE ∧ (c = 101%N ∨ c = 69%N)))
          && composed rest
      | [] => true
      end
  end.

(** *** The order of the steps *)




End Spec.

(** ** Concrete data for the examples *)

Module Scenario.
Import JS Build Slugify.

(** A char map whose only key is an opening parenthesis. *)
Definition parenStore : Store :=
  {| maps := {[ 1%positive := [(str "(", str "x")] ]};
     transliterationReCache := ∅ |}.

(** [new Map([["a", "x"]])], not used yet. *)
Definition axStore : Store :=
  {| maps := {[ 1%positive := [(str "a", str "x")] ]};
     transliterationReCache := ∅ |}.

Definition withMap1 : SlugifyOptions :=
  {| charMap := Some 1%positive; strip := None |}.

(** A directory with one file for each step of the conversion. *)
Definition threeFiles : list DirEntry :=
  [ {| name := str "Deva_InterIndic.txt";
       lines := [ {| lhs := [str "d"]; rhs := str "k" |} ] |};
    {| name := str "InterIndic_Latn.txt";
       lines := [ {| lhs := [str "k"]; rhs := str "x" |} ] |};
    {| name := str "Latin_ASCII.txt";
       lines := [ {| lhs := [str "x"]; rhs := str "y" |} ] |} ].

(** [new Map([["a", "x"], ["ab", "y"]])], not used yet. *)
Definition abStore : Store :=
  {| maps := {[ 1%positive := [(str "a", str "x"); (str "ab", str "y")] ]};
     transliterationReCache := ∅ |}.

(** A table with the roots ["2"], ["10"] and ["e"]: the two array-index
    keys come first, in numeric order. The sources are written with the
    combining acute accent. *)
Definition smallTable : SerializedTable :=
  [ (str "2", [50%N; 769%N]);
    (str "10", [49%N; 48%N; 769%N]);
    (str "e", [101%N; 769%N; COMMA; 101%N; 769%N; 769%N]) ].

(** [new Map([["a.b", "y"], ["x", "k"]])], not used yet. *)
Definition dotStore : Store :=
  {| maps := {[ 1%positive := [(str "a.b", str "y"); (str "x", str "k")] ]};
     transliterationReCache := ∅ |}.

(** A directory whose Latin-to-ASCII file folds accented letters and
    digits. *)
Definition foldingFiles : list DirEntry :=
  [ {| name := str "Latin_ASCII.txt";
       lines := [ {| lhs := [[201%N]; [69%N; 769%N; 769%N]]; rhs := str "E" |};
                  {| lhs := [[49%N; 48%N; 769%N]]; rhs := str "10" |};
                  {| lhs := [[50%N; 769%N]]; rhs := str "2" |} ] |} ].

(** The table written for it. *)
Definition foldingTable : SerializedTable :=
  [ (str "2", [50%N; 769%N]);
    (str "10", [49%N; 48%N; 769%N]);
    (str "e", [101%N; 769%N; COMMA; 101%N; 769%N; 769%N]) ].

(** [slugify(input)] on the engine of the small repertoire, with nothing in
    the store. *)
Definition slugOf (input : jsstring) (options : SlugifyOptions) : Outcome jsstring :=
  (slugify Basic.platform input options emptyStore).1.

(** [ALL_ASCII] of the test file: the code points 0 to 127. *)
Definition ALL_ASCII : jsstring := map N.of_nat (seq 0 128).

(** [new Map([["a", "x"], ["b", "y"], ["c", "z"]])] *)
Definition xyzStore : Store :=
  {| maps := {[ 1%positive := [(str "a", str "x"); (str "b", str "y");
                               (str "c", str "z")] ]};
     transliterationReCache := ∅ |}.

(** [new Map()] *)
Definition emptyMapStore : Store :=
  {| maps := {[ 1%positive := [] ]}; transliterationReCache := ∅ |}.

(** [new Map([[".", "x"]])], not used yet. *)
Definition anyCharStore : Store :=
  {| maps := {[ 1%positive := [(str ".", str "x")] ]};
     transliterationReCache := ∅ |}.

End Scenario.

(** * Properties *)

Import JS Build Slugify Spec Scenario.


(** ** The expectations of [slugify_test.ts] that stay within the small
    repertoire *)

Section Tests.

Example test_kebabcase :
  slugOf (str "hello world") noOptions = Returns (str "hello-world").
Proof. by vm_compute. Qed.

Example test_whitespace :
  slugOf (str "  Hello   World  ") noOptions = Returns (str "hello-world")
  ∧ slugOf (str "Hello" ++ [13%N; 10%N] ++ str "World") noOptions
    = Returns (str "hello-world").
Proof. split; by vm_compute. Qed.

Example test_dashes :
  slugOf (str "-Hello-World-") noOptions = Returns (str "hello-world")
  ∧ slugOf (str "--Hello--World--") noOptions = Returns (str "hello-world").
Proof. split; by vm_compute. Qed.

Example test_non_word :
  slugOf (str "Bitcoin soars past $33,000, its highest ever") noOptions
  = Returns (str "bitcoin-soars-past-33000-its-highest-ever")
  ∧ slugOf (str "What's up?") noOptions = Returns (str "whats-up").
Proof. split; by vm_compute. Qed.

Example test_nfc_by_default :
  slugOf (str "Cliche" ++ [769%N]) noOptions = Returns (str "clich" ++ [233%N]).
Proof. by vm_compute. Qed.

Example test_strip_diacritics :
  (slugify Basic.platform (str "Clich" ++ [233%N]) withMap1 emptyMapStore).1
  = Returns (str "cliche")
  ∧ slugOf (str "Clich" ++ [233%N]) {| charMap := None; strip := Some NON_ASCII |}
    = Returns (str "cliche")
  ∧ slugOf (str "Clich" ++ [233%N])
      {| charMap := None; strip := Some (DIACRITICS Basic.platform) |}
    = Returns (str "cliche").
Proof. repeat split; by vm_compute. Qed.

Example test_custom_map :
  (slugify Basic.platform (str "A B C") withMap1 xyzStore).1
  = Returns (str "x-y-z").
Proof. by vm_compute. Qed.

Example test_custom_strip :
  slugOf (str "abcdef")
    {| charMap := None;
       strip := Some (oneOf (fun c => bool_decide (c ∈ str "ace"))) |}
  = Returns (str "bdf").
Proof. by vm_compute. Qed.

Example test_all_ascii :
  slugOf ALL_ASCII noOptions
  = Returns (str "0123456789-abcdefghijklmnopqrstuvwxyz-abcdefghijklmnopqrstuvwxyz")
  ∧ slugOf ALL_ASCII {| charMap := None; strip := Some matchNothing |}
    = Returns (str "0123456789-abcdefghijklmnopqrstuvwxyz-abcdefghijklmnopqrstuvwxyz").
Proof. split; by vm_compute. Qed.

End Tests.

(** ** [replaceAll] with the two hyphen patterns *)

Section Returns.
Context (P : Platform).

Lemma finish_Returns st input options config r :
  finish P st input options config = Returns r →
  r = slugifyWith P st input options config
  ∧ global (stripPattern P options config) = true.
Proof.
  unfold finish. destruct (global _); [|done]. by intros [= <-].
Qed.

(** What a call that returns went through. *)
Lemma slugify_Returns input options st r st' :
  slugify P input options st = (Returns r, st') →
  ∃ config,
    r = slugifyWith P st' input options config
    ∧ global (stripPattern P options config) = true
    ∧ ((config = NoTransliterate ∧ charMap options = None ∧ st' = st)
       ∨ ∃ l re, config = Transliterate l re ∧ charMap options = Some l
                 ∧ getTransliterationRe l st = (Returns re, st')).
Proof.
  unfold slugify. destruct (charMap options) as [l|].
  - destruct (getTransliterationRe l st) as [[re| | |] st1] eqn:Hre; try done.
    intros [= Hf <-]. apply finish_Returns in Hf as [-> Hg].
    exists (Transliterate l re). split; [done|]. split; [done|].
    right. by exists l, re.
  - intros [= Hf <-]. apply finish_Returns in Hf as [-> Hg].
    exists NoTransliterate. split; [done|]. split; [done|]. by left.
Qed.

End Returns.

Section ReplaceAll.

(** Passing over the rest of a match. *)
Lemma replaceFrom_skip re f k : ∀ rest before,
  k ≤ length rest →
  replaceFrom re f before rest k
  = replaceFrom re f (reverse (take k rest) ++ before) (drop k rest) 0.
Proof.
  induction k as [|k IH]; intros rest before Hk.
  - by rewrite take_0, drop_0.
  - destruct rest as [|c rest]; simpl in *; [lia|].
    rewrite IH by lia. by rewrite reverse_cons, <- app_assoc.
Qed.

Lemma isHyphen_true c : isHyphen c = true ↔ c = HYPHEN.
Proof. unfold isHyphen. by rewrite bool_decide_eq_true. Qed.

Lemma run_le cls s : run cls s ≤ length s.
Proof. induction s as [|c s IH]; simpl; [lia|]. destruct (cls c); simpl; lia. Qed.

Lemma squeeze_run s n :
  run isHyphen s = S n → squeeze s = HYPHEN :: squeeze (drop (S n) s).
Proof.
  revert n. induction s as [|c s IH]; intros n Hn; simpl in Hn; [done|].
  destruct (isHyphen c) eqn:Hc; [|done].
  apply isHyphen_true in Hc as ->.
  injection Hn as Hn. destruct s as [|d s]; simpl in *.
  - subst n. done.
  - destruct (isHyphen d) eqn:Hd.
    + destruct n as [|n]; [done|]. rewrite (IH n Hn).
      change (isHyphen HYPHEN) with true. simpl. done.
    + subst n. simpl. destruct s; by rewrite ?Hd.
Qed.

Lemma collapse_from n : ∀ rest before, length rest ≤ n →
  replaceFrom HYPHENS (fun _ => [HYPHEN]) before rest 0 = squeeze rest.
Proof.
  induction n as [|n IH]; intros rest before Hlen.
  - destruct rest; simpl in *; [done|lia].
  - destruct rest as [|c rest]; [done|].
    cbn [replaceFrom HYPHENS runOf exec].
    pose proof (run_le isHyphen rest) as Hle.
    destruct (run isHyphen (c :: rest)) as [|k] eqn:Hrun.
    + rewrite decide_False by lia. simpl in Hrun.
      destruct (isHyphen c) eqn:Hc; [done|].
      rewrite IH by (simpl in Hlen; lia).
      simpl. destruct rest; by rewrite ?Hc.
    + destruct (decide (2 ≤ S k ∧ 1 ≤ S k)) as [Hk|Hk].
      * rewrite (squeeze_run _ _ Hrun). simpl in Hrun.
        destruct (isHyphen c); [|done]. injection Hrun as Hrun.
        rewrite replaceFrom_skip by lia. simpl.
        rewrite IH; [done|]. rewrite length_drop. simpl in Hlen. lia.
      * assert (k = 0) as -> by lia. simpl in Hrun.
        destruct (isHyphen c) eqn:Hc; [|done].
        injection Hrun as Hrun.
        rewrite IH by (simpl in Hlen; lia).
        simpl. destruct rest as [|d rest]; [done|].
        simpl in Hrun. destruct (isHyphen d); [done|].
        by rewrite Hc.
Qed.

Lemma collapse_squeeze s :
  replaceAll HYPHENS (fun _ => [HYPHEN]) s = squeeze s.
Proof. by apply (collapse_from (length s)). Qed.

End ReplaceAll.

(** ** The hyphen rewrites at the end of the chain *)

Section Edges.

Lemma edge_inner : ∀ rest before, before ≠ [] →
  replaceFrom EDGE_HYPHEN (fun _ => []) before rest 0 = dropTrailing rest.
Proof.
  induction rest as [|c rest IH]; intros before Hb.
  - by destruct before.
  - destruct before as [|b before]; [done|].
    cbn [replaceFrom EDGE_HYPHEN exec].
    destruct rest as [|d rest].
    + cbn [dropTrailing]. destruct (isHyphen c); simpl; done.
    + rewrite IH by done. done.
Qed.

Lemma edge_drop s :
  replaceAll EDGE_HYPHEN (fun _ => []) s = dropTrailing (dropLeading s).
Proof.
  unfold replaceAll. destruct s as [|c s]; [done|].
  cbn [replaceFrom EDGE_HYPHEN exec dropLeading].
  destruct (isHyphen c) eqn:Hc.
  - rewrite edge_inner by done. done.
  - rewrite edge_inner by done. simpl. destruct s; by rewrite ?Hc.
Qed.

Lemma noDouble_spec s : noDouble s = true ↔ ¬ hasDoubleHyphen s.
Proof.
  induction s as [|c s IH].
  - split; [|done]. intros _ (a & b & Hab). by destruct a.
  - destruct s as [|d s].
    + split; [|done]. intros _ (a & b & Hab).
      destruct a as [|? [|? ?]]; discriminate.
    + cbn [noDouble]. rewrite andb_true_iff, negb_true_iff, IH. split.
      * intros [Hcd Hs] (a & b & Hab). destruct a as [|x a].
        -- simpl in Hab. injection Hab as -> -> _. done.
        -- apply Hs. exists a, b. simpl in Hab. by injection Hab as _ ->.
      * intros Hno. split.
        -- destruct (isHyphen c) eqn:Hc, (isHyphen d) eqn:Hd; try done.
           apply isHyphen_true in Hc as ->, Hd as ->.
           exfalso. apply Hno. by exists [], s.
        -- intros (a & b & Hab). apply Hno. exists (c :: a), b. by rewrite Hab.
Qed.

Lemma squeeze_cons c d s :
  squeeze (c :: d :: s)
  = if isHyphen c && isHyphen d then squeeze (d :: s) else c :: squeeze (d :: s).
Proof. done. Qed.

Lemma head_squeeze s : head (squeeze s) = head s.
Proof.
  induction s as [|c s IH]; [done|]. destruct s as [|d s]; [done|].
  rewrite squeeze_cons.
  destruct (isHyphen c) eqn:Hc, (isHyphen d) eqn:Hd; simpl andb; cbn iota; try done.
  rewrite IH. simpl. apply isHyphen_true in Hc, Hd. by subst.
Qed.

Lemma noDouble_squeeze s : noDouble (squeeze s) = true.
Proof.
  induction s as [|c s IH]; [done|]. destruct s as [|d s]; [done|].
  rewrite squeeze_cons.
  destruct (isHyphen c && isHyphen d) eqn:Hcd; [done|].
  pose proof (head_squeeze (d :: s)) as Hh.
  destruct (squeeze (d :: s)) as [|e t] eqn:Hsq; [done|].
  cbn [noDouble]. simpl in Hh. injection Hh as Hh. subst e. rewrite Hcd. exact IH.
Qed.

Lemma noDouble_tail c s : noDouble (c :: s) = true → noDouble s = true.
Proof. destruct s; [done|]. simpl. by intros [_ ?]%andb_true_iff. Qed.

Lemma noDouble_dropLeading s :
  noDouble s = true →
  noDouble (dropLeading s) = true ∧ head (dropLeading s) ≠ Some HYPHEN.
Proof.
  destruct s as [|c s]; [done|]. intros Hs. simpl.
  destruct (isHyphen c) eqn:Hc.
  - split; [by eapply noDouble_tail|]. destruct s as [|d s]; [done|].
    simpl in *. rewrite Hc in Hs. intros [= ->]. done.
  - split; [done|]. simpl. intros [= ->]. done.
Qed.

Lemma noDouble_dropTrailing s :
  noDouble s = true →
  noDouble (dropTrailing s) = true
  ∧ last (dropTrailing s) ≠ Some HYPHEN
  ∧ (head s ≠ Some HYPHEN → head (dropTrailing s) ≠ Some HYPHEN).
Proof.
  induction s as [|c s IH]; [done|]. intros Hs.
  destruct s as [|d s].
  - simpl. destruct (isHyphen c) eqn:Hc; [done|].
    repeat split; try done. simpl. intros [= ->]. done.
  - specialize (IH (noDouble_tail _ _ Hs)) as (IH1 & IH2 & IH3).
    change (dropTrailing (c :: d :: s)) with (c :: dropTrailing (d :: s)).
    cbn [noDouble] in Hs. apply andb_true_iff in Hs as [Hcd Hs].
    destruct (dropTrailing (d :: s)) as [|e t] eqn:Hdt.
    + repeat split; try done. simpl. intros [= ->].
      (* the dropped last code point was a hyphen *)
      destruct s as [|? ?]; simpl in Hdt.
      * destruct (isHyphen d) eqn:Hd; [|done]. done.
      * done.
    + repeat split; try done.
      * assert (e = d) as ->.
        { destruct s; simpl in Hdt; [destruct (isHyphen d)|]; congruence. }
        change (negb (isHyphen c && isHyphen d) && noDouble (d :: t) = true).
        by rewrite Hcd, IH1.
Qed.

End Edges.

(** ** C9: the hyphens of a slug *)

Section HyphenStructure.
Context (P : Platform).

Lemma tail_hyphen_structure x :
  hyphenStructure
    (orElse (replaceAll EDGE_HYPHEN (fun _ => [])
               (replaceAll HYPHENS (fun _ => [HYPHEN]) x)) [HYPHEN]).
Proof.
  rewrite collapse_squeeze, edge_drop.
  pose proof (noDouble_squeeze x) as H0.
  apply noDouble_dropLeading in H0 as [H1 H2].
  apply noDouble_dropTrailing in H1 as (H3 & H4 & H5).
  specialize (H5 H2).
  destruct (dropTrailing (dropLeading (squeeze x))) as [|c r] eqn:Hr.
  - split; [|by left]. intros (a & b & Hab). by destruct a as [|? [|? ?]].
  - split; [by apply noDouble_spec|]. by right.
Qed.

Lemma slugifyWith_hyphen_structure st input options config :
  hyphenStructure (slugifyWith P st input options config).
Proof. apply tail_hyphen_structure. Qed.

(** C9. Whatever the input and the options, a slug that [slugify] returns
    has no two consecutive hyphens, and it starts or ends with a hyphen only
    when it is the fallback ["-"]. *)
Theorem slugify_hyphen_structure input options st r st' :
  slugify P input options st = (Returns r, st') →
  hyphenStructure r.
Proof.
  intros (config & -> & _)%slugify_Returns.
  apply slugifyWith_hyphen_structure.
Qed.

End HyphenStructure.

Lemma slugify_hyphen_structure_witness :
  slugify Basic.platform (str "--Hello,  World--") noOptions emptyStore
  = (Returns (str "hello-world"), emptyStore)
  ∧ hyphenStructure (str "hello-world").
Proof.
  assert (slugify Basic.platform (str "--Hello,  World--") noOptions emptyStore
          = (Returns (str "hello-world"), emptyStore)) as H
    by (vm_compute; reflexivity).
  split; [exact H|].
  exact (slugify_hyphen_structure Basic.platform _ _ _ _ _ H).
Defined.

(** ** C8: the fallback *)

Section Fallback.
Context (P : Platform).

Lemma replaceAll_delete_nil re : replaceAll re (fun _ => []) [] = [].
Proof. unfold replaceAll. simpl. by destruct (exec re [] []). Qed.

Lemma stages_nil (H : EmptyLaws P) st stripRe :
  stages P st [] stripRe NoTransliterate = [].
Proof.
  unfold stages.
  rewrite (trim_nil P H), (nfd_nil P H), (lower_nil P H), (segment_nil P H).
  change (join _ _) with (@nil N).
  rewrite replaceAll_delete_nil. by rewrite (nfc_nil P H).
Qed.

(** C8. [slugify("")] is ["-"], and whenever the chain of stages comes out
    empty, for any input and options, [slugify] returns ["-"]. (The chain
    comes out at all only with a strip pattern that has the [g] flag, as the
    default ones have.) *)
Theorem empty_result_fallback (H : EmptyLaws P) :
  (∀ st, slugify P [] noOptions st = (Returns [HYPHEN], st))
  ∧ (∀ input options st,
       charMap options = None →
       global (stripPattern P options NoTransliterate) = true →
       stages P st input (stripPattern P options NoTransliterate) NoTransliterate = [] →
       slugify P input options st = (Returns [HYPHEN], st))
  ∧ (∀ input options st l re st',
       charMap options = Some l →
       getTransliterationRe l st = (Returns re, st') →
       global (stripPattern P options (Transliterate l re)) = true →
       stages P st' input (stripPattern P options (Transliterate l re))
              (Transliterate l re) = [] →
       slugify P input options st = (Returns [HYPHEN], st')).
Proof.
  split; [|split].
  - intros st. unfold slugify, finish, slugifyWith. simpl. by rewrite stages_nil.
  - intros input options st Hc Hg Hs. unfold slugify, finish, slugifyWith.
    by rewrite Hc, Hg, Hs.
  - intros input options st l re st' Hc Hre Hg Hs.
    unfold slugify, finish, slugifyWith. by rewrite Hc, Hre, Hg, Hs.
Qed.

End Fallback.

Lemma basic_empty_laws : EmptyLaws Basic.platform.
Proof. by split. Qed.

Lemma empty_result_fallback_witness :
  slugify Basic.platform [] noOptions emptyStore = (Returns [HYPHEN], emptyStore)
  ∧ slugify Basic.platform (str " ?! ") noOptions emptyStore
    = (Returns [HYPHEN], emptyStore)
  ∧ slugify Basic.platform (str "?") {| charMap := Some 1%positive; strip := None |}
      {| maps := {[ 1%positive := [] ]}; transliterationReCache := ∅ |}
    = (Returns [HYPHEN],
       {| maps := {[ 1%positive := [] ]}; transliterationReCache := ∅ |}).
Proof.
  destruct (empty_result_fallback Basic.platform basic_empty_laws)
    as (H1 & H2 & H3).
  split; [apply H1|split].
  - apply H2; [reflexivity|reflexivity|vm_compute; reflexivity].
  - apply (H3 _ _ _ 1%positive matchNothing);
      [reflexivity|vm_compute; reflexivity|reflexivity|vm_compute; reflexivity].
Defined.

(** ** C2: a key that is not a pattern *)

(** C2, at the input where the code departs from it: with a char map whose
    only key is ["("], the pattern source is ["(?:()"], an unterminated
    group, and [slugify] throws whatever the input. *)
Theorem slugify_throws_on_paren_key (P : Platform) (input : jsstring) :
  slugify P input withMap1 parenStore
  = (Throws, parenStore).
Proof. reflexivity. Qed.

(** ** The cache of compiled patterns *)

Section Cache.
Context (P : Platform).

Lemma getTransliterationRe_cached l st re :
  transliterationReCache st !! l = Some re →
  getTransliterationRe l st = (Returns re, st).
Proof. intros H. unfold getTransliterationRe. by rewrite H. Qed.

Lemma getTransliterationRe_fresh l st m p :
  transliterationReCache st !! l = None →
  maps st !! l = Some m → m ≠ [] →
  compile (transliterationSource m) = Compiles p →
  getTransliterationRe l st
  = (Returns (regexOf p),
     {| maps := maps st;
        transliterationReCache := <[l := regexOf p]> (transliterationReCache st) |}).
Proof.
  intros Hc Hm Hne Hp. unfold getTransliterationRe, theMap.
  rewrite Hc, Hm. simpl. destruct m as [|e m]; [done|]. by rewrite Hp.
Qed.

End Cache.

(** ** C7: the chaining rule *)

Section Chaining.
Context (P : Platform).

Lemma mapGet_mapSet (m : JSMap) k v k' :
  mapGet (mapSet m k v) k' = if decide (k' = k) then Some v else mapGet m k'.
Proof.
  induction m as [|[k0 v0] m IH]; simpl.
  - by destruct (decide (k' = k)).
  - destruct (decide (k = k0)) as [->|Hk]; simpl.
    + by destruct (decide (k' = k0)).
    + destruct (decide (k' = k0)) as [->|Hk'].
      * by rewrite decide_False.
      * done.
Qed.

(** C7. Right after the record from [from] to [to] is inserted, the entry
    for [from] holds the value the map has for [to] when [to] is a key of
    the map, and [to] otherwise; no other entry changes. *)
Theorem chaining_rule (map : JSMap) (from to : jsstring) :
  normalize P from ≠ [] →
  mapGet (addRule P map from to) (normalize P from)
  = Some (default (normalize P to)
            (mapGet (mapSet map (normalize P from) (normalize P to))
                    (normalize P to)))
  ∧ (normalize P from ≠ normalize P to →
     mapHas map (normalize P to) = true →
     mapGet (addRule P map from to) (normalize P from)
     = mapGet map (normalize P to))
  ∧ (∀ k, k ≠ normalize P from →
          mapGet (addRule P map from to) k = mapGet map k).
Proof.
  intros Hf. unfold addRule.
  destruct (normalize P from) as [|c f] eqn:Ef; [done|].
  set (t := normalize P to).
  assert (Hget : ∀ k, mapGet
     match mapGet (mapSet map (c :: f) t) t with
     | Some further => mapSet (mapSet map (c :: f) t) (c :: f) further
     | None => mapSet map (c :: f) t
     end k
     = if decide (k = c :: f)
       then Some (default t (mapGet (mapSet map (c :: f) t) t))
       else mapGet map k).
  { intros k. destruct (mapGet (mapSet map (c :: f) t) t) as [u|] eqn:Eu.
    - rewrite !mapGet_mapSet. by destruct (decide (k = c :: f)).
    - rewrite mapGet_mapSet. by destruct (decide (k = c :: f)). }
  split; [|split].
  - rewrite Hget. by rewrite decide_True.
  - intros Hne Hhas. rewrite Hget, decide_True by done.
    rewrite mapGet_mapSet, decide_False by done.
    unfold mapHas in Hhas. by destruct (mapGet map t).
  - intros k Hk. rewrite Hget. by rewrite decide_False.
Qed.

End Chaining.

Lemma chaining_rule_witness :
  Build.normalize Basic.platform (str " K ") ≠ []
  ∧ mapGet (addRule Basic.platform [(str "x", str "y")] (str " K ") (str "X"))
           (str "k")
    = Some (str "y").
Proof.
  split; [by vm_compute|].
  destruct (chaining_rule Basic.platform [(str "x", str "y")] (str " K ") (str "X"))
    as (H & _ & _); [by vm_compute|].
  exact H.
Defined.

(** ** C6: the order of the steps *)

Section StepOrder.
Context (P : Platform).

Lemma addFile_log fs : ∀ acc,
  (foldl (addFile P) acc fs).2 = acc.2 ++ map name fs.
Proof.
  induction fs as [|f fs IH]; intros acc; simpl.
  - by rewrite app_nil_r.
  - rewrite IH. simpl. by rewrite <- app_assoc.
Qed.

End StepOrder.


Section StepOrderRules.
Context (P : Platform).




End StepOrderRules.


(** What reading backwards achieves with the chaining rule: every key ends
    at the ASCII target. *)
Example threeFiles_map :
  (buildMap Basic.platform threeFiles).1
  = [(str "x", str "y"); (str "k", str "y"); (str "d", str "y")].
Proof. by vm_compute. Qed.

(** ** Deleting the code points of a class *)

Section Delete.

Lemma delete_oneOf cls : ∀ s before,
  replaceFrom (oneOf cls) (fun _ => []) before s 0
  = filter (fun c => cls c = false) s.
Proof.
  induction s as [|c s IH]; intros before; [done|].
  cbn [replaceFrom oneOf exec]. rewrite filter_cons.
  destruct (cls c) eqn:Hc.
  - rewrite decide_False by done. simpl. apply IH.
  - rewrite decide_True by done. by rewrite IH.
Qed.

Lemma filter_run cls s :
  filter (fun c => cls c = false) s
  = filter (fun c => cls c = false) (drop (run cls s) s).
Proof.
  induction s as [|c s IH]; [done|]. simpl.
  destruct (cls c) eqn:Hc; [|done].
  rewrite filter_cons, decide_False by congruence. exact IH.
Qed.

Lemma delete_runOf cls n : ∀ s before, length s ≤ n →
  replaceFrom (runOf 1 cls) (fun _ => []) before s 0
  = filter (fun c => cls c = false) s.
Proof.
  induction n as [|n IH]; intros s before Hlen.
  - destruct s; simpl in *; [done|lia].
  - destruct s as [|c s]; [done|].
    cbn [replaceFrom runOf exec].
    pose proof (run_le cls s) as Hle.
    destruct (run cls (c :: s)) as [|k] eqn:Hrun.
    + rewrite decide_False by lia. simpl in Hrun.
      destruct (cls c) eqn:Hc; [done|].
      rewrite filter_cons, decide_True by done.
      rewrite IH by (simpl in Hlen; lia). done.
    + rewrite decide_True by lia.
      rewrite (filter_run cls (c :: s)), Hrun. simpl in Hrun.
      destruct (cls c); [|done]. injection Hrun as Hrun.
      rewrite replaceFrom_skip by lia. simpl.
      apply IH. rewrite length_drop. simpl in Hlen. lia.
Qed.

Lemma delete_NON_ASCII s :
  replaceAll NON_ASCII (fun _ => []) s = filter (fun c => asciiWord c = true) s.
Proof.
  unfold replaceAll, NON_ASCII. rewrite delete_oneOf.
  apply list_filter_iff. intros c. by rewrite negb_false_iff.
Qed.

Lemma delete_NON_WORD P s :
  replaceAll (NON_WORD P) (fun _ => []) s
  = filter (fun c => unicodeWord P c = true) s.
Proof.
  unfold replaceAll, NON_WORD. rewrite (delete_runOf _ (length s)) by done.
  apply list_filter_iff. intros c. by rewrite negb_false_iff.
Qed.

End Delete.

(** ** What the stages keep of a property of code points *)

Section Keeps.
Context (Q : N → Prop).

Lemma replaceFrom_Forall re f : 
  (∀ m, Forall Q m → Forall Q (f m)) →
  ∀ rest before skip, Forall Q rest → Forall Q (replaceFrom re f before rest skip).
Proof.
  intros Hf. induction rest as [|c rest IH]; intros before skip Hrest.
  - destruct skip; simpl; [|done].
    destruct (exec re before []); [by apply Hf|done].
  - apply Forall_cons in Hrest as Hcr. destruct Hcr as [Hc Hr].
    destruct skip as [|k]; cbn [replaceFrom]; [|by apply IH].
    destruct (exec re before (c :: rest)) as [[|n]|].
    + apply Forall_app. split; [by apply Hf|]. apply Forall_cons. split; [done|by apply IH].
    + apply Forall_app. split; [|by apply IH].
      apply Hf. by apply Forall_take.
    + apply Forall_cons. split; [done|by apply IH].
Qed.

Lemma join_Forall sep words :
  Forall Q sep → Forall (Forall Q) words → Forall Q (join sep words).
Proof.
  intros Hsep. induction words as [|w ws IH]; intros Hws; [done|].
  apply Forall_cons in Hws as [Hw Hws]. simpl. destruct ws as [|w' ws']; [done|].
  apply Forall_app. split; [done|]. apply Forall_app. split; [done|by apply IH].
Qed.

Lemma squeeze_Forall s : Forall Q s → Forall Q (squeeze s).
Proof.
  induction s as [|c s IH]; [done|]. intros [Hc Hs]%Forall_cons.
  destruct s as [|d s]; [by apply Forall_cons|].
  rewrite squeeze_cons. destruct (isHyphen c && isHyphen d); [by apply IH|].
  apply Forall_cons. split; [done|by apply IH].
Qed.

Lemma dropLeading_Forall s : Forall Q s → Forall Q (dropLeading s).
Proof.
  destruct s as [|c s]; [done|]. intros H. simpl.
  destruct (isHyphen c); [|done]. by apply Forall_cons in H as [_ ?].
Qed.

Lemma dropTrailing_Forall s : Forall Q s → Forall Q (dropTrailing s).
Proof.
  induction s as [|c s IH]; [done|]. intros [Hc Hs]%Forall_cons.
  destruct s as [|d s].
  - simpl. destruct (isHyphen c); [done|by apply Forall_cons].
  - change (dropTrailing (c :: d :: s)) with (c :: dropTrailing (d :: s)).
    apply Forall_cons. split; [done|by apply IH].
Qed.

Lemma collectWords_Forall segs :
  Q HYPHEN → Forall Q (concat (map fst segs)) →
  Forall (Forall Q) (collectWords segs).
Proof.
  intros Hh. induction segs as [|[w b] segs IH]; intros H; [done|].
  simpl in H. apply Forall_app in H as [Hw Hsegs].
  unfold collectWords. simpl. destruct b; simpl.
  - apply Forall_cons. split; [done|by apply IH].
  - destruct w; simpl; [by apply IH|].
    apply Forall_cons. split; [by apply Forall_cons|by apply IH].
Qed.

End Keeps.

(** ** C1: the characters of a slug *)

Section Charset.
Context (P : Platform) (H : TextLaws P) (HA : AsciiLaws P).


Lemma mapGet_Forall (R : jsstring → Prop) (m : JSMap) k v :
  Forall (fun kv => R kv.2) m → mapGet m k = Some v → R v.
Proof.
  induction m as [|[k0 v0] m IH]; [done|]. intros [H0 Hm]%Forall_cons. simpl.
  destruct (decide (k = k0)); [by intros [= <-]|by apply IH].
Qed.

Lemma convertWord_Forall (Q : N → Prop) st word config :
  (∀ l re, config = Transliterate l re →
           Forall (fun kv => Forall Q kv.2) (theMap st l)) →
  Forall Q word → Forall Q (convertWord st word config).
Proof.
  intros Hvals Hw. destruct config as [l re|]; [|done].
  apply replaceFrom_Forall; [|done]. intros m Hm.
  destruct (mapGet (theMap st l) m) as [v|] eqn:Hv; [|done].
  simpl. by eapply (mapGet_Forall (Forall Q)), Hv; eauto.
Qed.

Lemma slugChar_ascii c :
  asciiWord c = true → isUpper c = false → slugChar c = true.
Proof.
  unfold asciiWord, slugChar. intros Ha Hu. rewrite Hu in Ha.
  destruct (isDigit c), (isLower c), (isHyphen c); done.
Qed.

Lemma orElse_charset x :
  Forall (fun c => slugChar c = true) x →
  matchesSlugCharset (orElse x [HYPHEN]).
Proof.
  intros Hx. destruct x as [|c x]; simpl.
  - split; [done|]. by apply Forall_cons.
  - by split.
Qed.

Lemma joined_no_upper st input config :
  (∀ l re, config = Transliterate l re →
     Forall (fun kv => Forall (fun c => isUpper c = false) kv.2) (theMap st l)) →
  Forall (fun c => isUpper c = false)
    (join (if transliterate config then [HYPHEN] else [])
       (map (fun word => convertWord st word config)
          (collectWords (segment P (toLowerCase P (nfd P (trim P input))))))).
Proof.
  intros Hvals. apply join_Forall.
  - destruct (transliterate config); [by apply Forall_cons|done].
  - apply Forall_fmap. eapply Forall_impl.
    + apply collectWords_Forall with (Q := fun c => isUpper c = false); [done|].
      rewrite (segment_concat P H). apply (lower_no_upper P H).
    + intros w Hw. by apply convertWord_Forall.
Qed.

Lemma slugifyWith_charset st input options config :
  stripPattern P options config = NON_ASCII →
  (∀ l re, config = Transliterate l re →
     Forall (fun kv => Forall (fun c => isUpper c = false) kv.2) (theMap st l)) →
  matchesSlugCharset (slugifyWith P st input options config).
Proof.
  intros Hstrip Hvals. unfold slugifyWith, stages. rewrite Hstrip.
  rewrite delete_NON_ASCII.
  pose proof (joined_no_upper st input config Hvals) as Hj.
  set (joined := join _ _) in *.
  rewrite (nfc_ascii P H).
  2:{ apply Forall_forall. by intros c [? _]%list_elem_of_filter. }
  rewrite collapse_squeeze, edge_drop. apply orElse_charset.
  apply dropTrailing_Forall, dropLeading_Forall, squeeze_Forall.
  apply Forall_forall. intros c [Ha Hc]%list_elem_of_filter.
  apply slugChar_ascii; [done|]. by eapply Forall_forall in Hj.
Qed.



End Charset.

(** ** The engine of the small repertoire satisfies the laws *)

Section BasicLaws.

Ltac ranges :=
  repeat match goal with
  | |- context [(?a <=? ?b)%N] => destruct (N.leb_spec a b)
  | H : context [(?a <=? ?b)%N] |- _ => destruct (N.leb_spec a b)
  | |- context [bool_decide ?p] => destruct (bool_decide_reflect p)
  | H : context [bool_decide ?p] |- _ => destruct (bool_decide_reflect p)
  | |- context [decide ?p] => destruct (decide p)
  | H : context [decide ?p] |- _ => destruct (decide p)
  end; simpl in *; try done; try lia.

Lemma lowerChar_no_upper c : isUpper (Basic.lowerChar c) = false.
Proof. unfold isUpper, inRange, Basic.lowerChar. ranges. Qed.

Lemma nfc_cons c m s :
  Basic.nfc (c :: m :: s)
  = if decide (m = Basic.ACUTE ∧ c = 101%N) then 233%N :: Basic.nfc s
    else if decide (m = Basic.ACUTE ∧ c = 69%N) then 201%N :: Basic.nfc s
    else c :: Basic.nfc (m :: s).
Proof. done. Qed.

Lemma basic_nfc_ascii s :
  Forall (fun c => asciiWord c = true) s → Basic.nfc s = s.
Proof.
  induction s as [|c s IH]; [done|]. intros [Hc Hs]%Forall_cons.
  specialize (IH Hs). destruct s as [|m s]; [done|].
  rewrite nfc_cons. apply Forall_cons in Hs as [Hm _].
  assert (m ≠ Basic.ACUTE).
  { intros ->. by vm_compute in Hm. }
  rewrite !decide_False by tauto. by rewrite IH.
Qed.

Lemma unitStep_concat c acc :
  (Basic.unitStep c acc).1
  ++ concat (map snd (Basic.unitStep c acc).2)
  = c :: acc.1 ++ concat (map snd acc.2).
Proof.
  unfold Basic.unitStep. destruct acc as [pending us]. simpl.
  destruct (decide (Basic.wordBreak c = Basic.Extend)); [done|].
  destruct (Basic.isLineEnd _); simpl.
  - by destruct pending.
  - done.
Qed.

Lemma unitsOf_concat s : concat (map snd (Basic.unitsOf s)) = s.
Proof.
  unfold Basic.unitsOf.
  assert (∀ s, (foldr Basic.unitStep ([], []) s).1
               ++ concat (map snd (foldr Basic.unitStep ([], []) s).2) = s) as Hs.
  { clear s. induction s as [|c s IH]; [done|]. simpl.
    rewrite unitStep_concat. by rewrite IH. }
  specialize (Hs s). destruct (foldr Basic.unitStep ([], []) s) as [pending us].
  simpl in *. by destruct pending.
Qed.

Lemma groupUnits_concat us : ∀ cur,
  concat (Basic.groupUnits cur us) = reverse cur ++ us.
Proof.
  induction us as [|u us IH]; intros cur; simpl.
  - destruct cur; simpl; [done|]. by rewrite !app_nil_r.
  - destruct cur as [|p before]; [by rewrite IH|].
    destruct (Basic.noBreak _ _ _ _); simpl; rewrite IH.
    + by rewrite reverse_cons, <- app_assoc.
    + done.
Qed.

Lemma basic_segment_concat s : concat (map fst (Basic.segment s)) = s.
Proof.
  unfold Basic.segment. rewrite map_map. simpl.
  pose proof (groupUnits_concat (Basic.unitsOf s) []) as Hg. simpl in Hg.
  transitivity (concat (map snd (concat (Basic.groupUnits [] (Basic.unitsOf s))))).
  - generalize (Basic.groupUnits [] (Basic.unitsOf s)). intros gs.
    induction gs as [|g gs IH]; [done|]. simpl.
    by rewrite map_app, concat_app, IH.
  - rewrite Hg. apply unitsOf_concat.
Qed.

Lemma basic_text_laws : TextLaws Basic.platform.
Proof.
  split.
  - intros s. simpl. unfold Basic.toLowerCase. apply Forall_fmap, Forall_forall.
    intros c _. apply lowerChar_no_upper.
  - apply basic_segment_concat.
  - apply basic_nfc_ascii.
Qed.

End BasicLaws.

Section BasicAsciiLaws.

Lemma trimStart_Forall (Q : N → Prop) s :
  Forall Q s → Forall Q (Basic.trimStart s).
Proof.
  induction s as [|c s IH]; [done|]. intros Hs. simpl.
  destruct (Basic.isWhiteSpace c); [|done]. apply IH.
  by apply Forall_cons in Hs as [_ ?].
Qed.

Lemma basic_ascii_laws : AsciiLaws Basic.platform.
Proof.
  split.
  - intros s Hs. simpl. unfold Basic.trim.
    by apply Forall_reverse, trimStart_Forall, Forall_reverse, trimStart_Forall.
  - intros s Hs. simpl. unfold Basic.nfd.
    induction s as [|c s IH]; [done|]. apply Forall_cons in Hs as [Hc Hs].
    simpl. rewrite IH by done. unfold isAscii in Hc. apply N.ltb_lt in Hc.
    unfold Basic.decompose. by rewrite !decide_False by lia.
  - intros s Hs. simpl. unfold Basic.toLowerCase. apply Forall_fmap.
    eapply Forall_impl; [exact Hs|]. intros c Hc. simpl.
    unfold isAscii in *. apply N.ltb_lt in Hc. apply N.ltb_lt.
    unfold Basic.lowerChar.
    destruct (N.leb_spec 65 c), (N.leb_spec c 90); simpl; try lia;
      destruct (decide (c = 201%N)); lia.
  - intros c Hc. unfold isAscii in Hc. apply N.ltb_lt in Hc.
    unfold unicodeWord, asciiWord, isDigit, isLower, isUpper, inRange. simpl.
    unfold Basic.isL, Basic.isM, Basic.isN, Basic.ACUTE.
    destruct (isHyphen c); [by rewrite !orb_true_r|]. rewrite !orb_false_r.
    destruct (N.leb_spec 65 c), (N.leb_spec c 90), (N.leb_spec 97 c),
      (N.leb_spec c 122), (N.leb_spec 48 c), (N.leb_spec c 57); simpl; try done;
      rewrite ?orb_false_r;
      repeat match goal with
             | |- context [bool_decide ?p] => destruct (bool_decide_reflect p)
             end; simpl; try done; lia.
Qed.

End BasicAsciiLaws.



(** ** C3: slugs of slugs *)

Section Idempotence.
Context (P : Platform) (HT : TextLaws P) (HS : SlugLaws P).

Lemma squeeze_id s : noDouble s = true → squeeze s = s.
Proof.
  induction s as [|c s IH]; [done|]. intros Hs.
  destruct s as [|d s]; [done|]. rewrite squeeze_cons.
  cbn [noDouble] in Hs. apply andb_true_iff in Hs as [Hcd Hs].
  apply negb_true_iff in Hcd. rewrite Hcd. by rewrite IH.
Qed.

Lemma dropLeading_id s : head s ≠ Some HYPHEN → dropLeading s = s.
Proof.
  destruct s as [|c s]; [done|]. simpl. intros Hc.
  destruct (isHyphen c) eqn:E; [|done]. apply isHyphen_true in E. by subst.
Qed.

Lemma dropTrailing_id s : last s ≠ Some HYPHEN → dropTrailing s = s.
Proof.
  induction s as [|c s IH]; [done|]. destruct s as [|d s].
  - simpl. intros Hc. destruct (isHyphen c) eqn:E; [|done].
    apply isHyphen_true in E. by subst.
  - intros Hl. change (dropTrailing (c :: d :: s)) with (c :: dropTrailing (d :: s)).
    by rewrite IH.
Qed.

Lemma join_nil_concat ws : join [] ws = concat ws.
Proof.
  induction ws as [|w ws IH]; [done|]. simpl. rewrite <- IH.
  destruct ws; [by rewrite app_nil_r|done].
Qed.

Lemma collectWords_cons w (b : bool) segs :
  collectWords ((w, b) :: segs)
  = (if b then [w] else match w with [] => [] | _ :: _ => [[HYPHEN]] end)
    ++ collectWords segs.
Proof. unfold collectWords. simpl. by destruct b, w. Qed.

Lemma collectWords_fst segs :
  Forall (fun seg : jsstring * bool => seg.2 = true ∨ seg.1 = [HYPHEN]) segs →
  collectWords segs = map fst segs.
Proof.
  induction segs as [|[w b] segs IH]; [done|]. intros [Hw Hs]%Forall_cons.
  rewrite collectWords_cons, IH by done. destruct b; [done|].
  destruct Hw as [|Hw]; [done|]. simpl in Hw. by subst w.
Qed.

Lemma slugChar_asciiWord c : slugChar c = true → asciiWord c = true.
Proof.
  unfold slugChar, asciiWord.
  destruct (isDigit c), (isLower c), (isUpper c), (isHyphen c); done.
Qed.

(** On a text of lowercase ASCII letters, digits and hyphens the stages up
    to the hyphen rewrites change nothing. *)
Lemma stages_slug st r :
  Forall (fun c => slugChar c = true) r →
  stages P st r (NON_WORD P) NoTransliterate
  = replaceAll EDGE_HYPHEN (fun _ => []) (replaceAll HYPHENS (fun _ => [HYPHEN]) r).
Proof.
  intros Hr. unfold stages.
  rewrite (trim_slug P HS r Hr), (nfd_slug P HS r Hr), (lower_slug P HS r Hr).
  rewrite (collectWords_fst _ (segment_slug P HS r Hr)).
  cbn [transliterate convertWord]. rewrite map_id, join_nil_concat.
  rewrite (segment_concat P HT), delete_NON_WORD.
  assert (filter (fun c => unicodeWord P c = true) r = r) as ->.
  { clear -Hr HS. induction r as [|c r IH]; [done|].
    apply Forall_cons in Hr as [Hc Hr].
    rewrite filter_cons_True by by apply (category_slug P HS).
    by rewrite IH. }
  rewrite (nfc_ascii P HT); [done|].
  eapply Forall_impl; [exact Hr|]. apply slugChar_asciiWord.
Qed.

(** A slug made of lowercase ASCII letters, digits and hyphens is its own
    slug: for every input [s] whose slug matches [^[a-z0-9-]+$],
    [slugify(slugify(s))] is [slugify(s)]. *)
Theorem slugify_idempotent_on_ascii_slugs s st r st' :
  slugify P s noOptions st = (Returns r, st') →
  matchesSlugCharset r →
  slugify P r noOptions st' = (Returns r, st').
Proof.
  unfold slugify, finish. cbn [charMap noOptions].
  change (global (stripPattern P noOptions NoTransliterate)) with true.
  cbv iota. intros [= <- <-] [Hne Hr]. f_equal. f_equal.
  pose proof (slugifyWith_hyphen_structure P st s noOptions NoTransliterate)
    as [Hnd Hedges].
  set (r := slugifyWith P st s noOptions NoTransliterate) in *.
  unfold slugifyWith at 1.
  change (stripPattern P noOptions NoTransliterate) with (NON_WORD P).
  rewrite (stages_slug st r Hr).
  rewrite collapse_squeeze, edge_drop.
  rewrite squeeze_id by by apply noDouble_spec.
  destruct Hedges as [->|[Hh Hl]]; [done|].
  rewrite dropLeading_id, dropTrailing_id by done.
  by destruct r.
Qed.

End Idempotence.

(** C3 as stated fails. In ["_" U+0301 "a"] the underscore ties mark and
    letter into one word; [NON_WORD] deletes the underscore and leaves the
    mark in front. In that slug the mark stands alone at the start of the
    text, a segment that is not word-like, which becomes a hyphen and is
    trimmed away. *)
Lemma slugify_idempotent_counterexample :
  slugify Basic.platform (str "_" ++ [769%N] ++ str "a") noOptions emptyStore
  = (Returns ([769%N] ++ str "a"), emptyStore)
  ∧ slugify Basic.platform ([769%N] ++ str "a") noOptions emptyStore
    = (Returns (str "a"), emptyStore)
  ∧ [769%N] ++ str "a" ≠ str "a".
Proof. repeat split; by vm_compute. Qed.

Section BasicSlugLaws.

Ltac ranges :=
  repeat match goal with
  | |- context [(?a <=? ?b)%N] => destruct (N.leb_spec a b)
  | H : context [(?a <=? ?b)%N] |- _ => destruct (N.leb_spec a b)
  | |- context [bool_decide ?p] => destruct (bool_decide_reflect p)
  | H : context [bool_decide ?p] |- _ => destruct (bool_decide_reflect p)
  | |- context [decide ?p] => destruct (decide p)
  | H : context [decide ?p] |- _ => destruct (decide p)
  end; simpl in *; try done; try lia.

(** A slug character is a lowercase letter, a digit or the hyphen. *)
Lemma slugChar_cases c :
  slugChar c = true →
  (97 ≤ c ≤ 122)%N ∨ (48 ≤ c ≤ 57)%N ∨ c = HYPHEN.
Proof. unfold slugChar, isLower, isDigit, isHyphen, inRange. ranges; tauto. Qed.

Lemma slugChar_no_space c : slugChar c = true → Basic.isWhiteSpace c = false.
Proof.
  intros Hc. apply slugChar_cases in Hc. unfold Basic.isWhiteSpace.
  apply orb_false_iff. split.
  - apply bool_decide_eq_false. rewrite !elem_of_cons, elem_of_nil.
    unfold HYPHEN in Hc. lia.
  - unfold HYPHEN in Hc. ranges.
Qed.

Lemma trimStart_id s :
  Forall (fun c => Basic.isWhiteSpace c = false) s → Basic.trimStart s = s.
Proof. destruct s as [|c s]; [done|]. intros [Hc _]%Forall_cons. simpl. by rewrite Hc. Qed.

Lemma basic_trim_slug s :
  Forall (fun c => slugChar c = true) s → Basic.trim s = s.
Proof.
  intros Hs. unfold Basic.trim.
  assert (Forall (fun c => Basic.isWhiteSpace c = false) s) as Hw.
  { eapply Forall_impl; [exact Hs|]. apply slugChar_no_space. }
  rewrite (trimStart_id s Hw), trimStart_id by by apply Forall_reverse.
  apply reverse_involutive.
Qed.

Lemma basic_nfd_slug s :
  Forall (fun c => slugChar c = true) s → Basic.nfd s = s.
Proof.
  induction s as [|c s IH]; [done|]. intros [Hc Hs]%Forall_cons.
  unfold Basic.nfd in *. simpl. rewrite IH by done.
  apply slugChar_cases in Hc. unfold Basic.decompose, HYPHEN in *.
  rewrite !decide_False by lia. done.
Qed.

Lemma basic_lower_slug s :
  Forall (fun c => slugChar c = true) s → Basic.toLowerCase s = s.
Proof.
  induction s as [|c s IH]; [done|]. intros [Hc Hs]%Forall_cons.
  unfold Basic.toLowerCase in *. simpl. rewrite IH by done. f_equal.
  apply slugChar_cases in Hc. unfold Basic.lowerChar, HYPHEN in *. ranges.
Qed.

Lemma basic_category_slug c :
  slugChar c = true → unicodeWord Basic.platform c = true.
Proof.
  intros Hc. apply slugChar_cases in Hc.
  unfold unicodeWord, isHyphen, HYPHEN in *. simpl.
  unfold Basic.isL, Basic.isM, Basic.isN. ranges.
Qed.

Lemma wordBreak_slug c :
  slugChar c = true →
  Basic.alnumUnit (Basic.wordBreak c, [c]) ∨ Basic.hyphenUnit (Basic.wordBreak c, [c]).
Proof.
  intros Hc. apply slugChar_cases in Hc.
  unfold Basic.alnumUnit, Basic.hyphenUnit, Basic.wordBreak, Basic.isL, Basic.isN,
    Basic.ACUTE, HYPHEN in *. simpl.
  destruct Hc as [Hc|[Hc| ->]]; [ranges; tauto|ranges; tauto|]. by right.
Qed.

Lemma unitsOf_slug s :
  Forall (fun c => slugChar c = true) s →
  Basic.unitsOf s = map (fun c => (Basic.wordBreak c, [c])) s.
Proof.
  intros Hs. unfold Basic.unitsOf.
  assert (foldr Basic.unitStep ([], []) s
          = ([], map (fun c => (Basic.wordBreak c, [c])) s)) as ->; [|done].
  induction s as [|c s IH]; [done|]. apply Forall_cons in Hs as [Hc Hs].
  simpl. rewrite IH by done. unfold Basic.unitStep. simpl.
  destruct (wordBreak_slug c Hc) as [[H|H]|H]; simpl in H.
  - rewrite H. done.
  - rewrite H. done.
  - injection H as H _. rewrite H. done.
Qed.

Lemma noBreak_hyphen_l a p u b : Basic.hyphenUnit p → (Basic.alnumUnit u ∨ Basic.hyphenUnit u) →
  Basic.noBreak a p u b = false.
Proof.
  unfold Basic.hyphenUnit. intros -> [[H|H]| ->]; unfold Basic.noBreak; simpl; try rewrite H; done.
Qed.

Lemma noBreak_hyphen_r a p u b : Basic.alnumUnit p → Basic.hyphenUnit u →
  Basic.noBreak a p u b = false.
Proof.
  unfold Basic.hyphenUnit. intros [H|H] ->; unfold Basic.noBreak; simpl; rewrite H; done.
Qed.

Lemma isWordLike_alnum seg :
  seg ≠ [] → Forall Basic.alnumUnit seg → Basic.isWordLike seg = true.
Proof.
  destruct seg as [|u seg]; [done|]. intros _ [Hu _]%Forall_cons.
  unfold Basic.isWordLike. apply orb_true_iff. left. simpl.
  apply orb_true_iff. left. by apply bool_decide_eq_true.
Qed.

Lemma reverse_cons_ne {A} (x : A) l : reverse (x :: l) ≠ [].
Proof.
  intros E. apply (f_equal length) in E. by rewrite length_reverse in E.
Qed.

Lemma groupUnits_slug us : ∀ cur,
  Forall (fun u => Basic.alnumUnit u ∨ Basic.hyphenUnit u) us →
  (Forall Basic.alnumUnit cur ∨ cur = [(Basic.Other, [HYPHEN])]) →
  Forall Basic.goodSegment (Basic.groupUnits cur us).
Proof.
  induction us as [|u us IH]; intros cur Hus Hcur.
  - simpl. destruct cur as [|p cur]; [done|]. apply Forall_cons. split; [|done].
    destruct Hcur as [Hcur| ->]; [|by right]. left.
    apply isWordLike_alnum; [apply reverse_cons_ne|].
    by apply Forall_reverse.
  - apply Forall_cons in Hus as [Hu Hus]. simpl.
    assert (Forall Basic.alnumUnit [u] ∨ [u] = [(Basic.Other, [HYPHEN])]) as Hu1.
    { destruct Hu as [Hu|Hu]; [left; by apply Forall_cons|right; by rewrite Hu]. }
    destruct cur as [|p before]; [by apply IH|].
    destruct (Basic.noBreak _ p u _) eqn:Hnb.
    + apply IH; [done|]. left.
      destruct Hcur as [Hcur|Hcur].
      * apply Forall_cons in Hcur as Hp. destruct Hp as [Hp _].
        destruct Hu as [Hu|Hu]; [by apply Forall_cons|].
        by rewrite noBreak_hyphen_r in Hnb.
      * injection Hcur as -> ->. by rewrite noBreak_hyphen_l in Hnb.
    + apply Forall_cons. split; [|by apply IH].
      destruct Hcur as [Hcur|Hcur]; [|right; by rewrite Hcur].
      left. apply isWordLike_alnum; [apply reverse_cons_ne|by apply Forall_reverse].
Qed.

Lemma basic_segment_slug s :
  Forall (fun c => slugChar c = true) s →
  Forall (fun seg : jsstring * bool => seg.2 = true ∨ seg.1 = [HYPHEN])
         (Basic.segment s).
Proof.
  intros Hs. unfold Basic.segment. apply Forall_fmap.
  eapply Forall_impl.
  - apply (groupUnits_slug (Basic.unitsOf s) []); [|by left].
    rewrite (unitsOf_slug s Hs). apply Forall_fmap.
    eapply Forall_impl; [exact Hs|]. intros c Hc. by apply wordBreak_slug.
  - intros seg [Hw| ->]; [by left|by right].
Qed.

Lemma basic_slug_laws : SlugLaws Basic.platform.
Proof.
  split.
  - apply basic_trim_slug.
  - apply basic_nfd_slug.
  - apply basic_lower_slug.
  - apply basic_category_slug.
  - apply basic_segment_slug.
Qed.

End BasicSlugLaws.

Lemma slugify_idempotent_on_ascii_slugs_witness :
  slugify Basic.platform (str " What's  up, Doc? ") noOptions emptyStore
  = (Returns (str "whats-up-doc"), emptyStore)
  ∧ matchesSlugCharset (str "whats-up-doc")
  ∧ slugify Basic.platform (str "whats-up-doc") noOptions emptyStore
    = (Returns (str "whats-up-doc"), emptyStore).
Proof.
  assert (slugify Basic.platform (str " What's  up, Doc? ") noOptions emptyStore
          = (Returns (str "whats-up-doc"), emptyStore)) as E
    by (vm_compute; reflexivity).
  assert (matchesSlugCharset (str "whats-up-doc")) as M.
  { split; [discriminate|]. apply Forall_forall. intros c Hc.
    vm_compute in Hc. repeat (apply elem_of_cons in Hc as [->|Hc]; [reflexivity|]).
    by apply elem_of_nil in Hc. }
  split; [exact E|]. split; [exact M|].
  exact (slugify_idempotent_on_ascii_slugs Basic.platform basic_text_laws
           basic_slug_laws _ _ _ _ E M).
Defined.

(** ** C3: slugs that fall into words and hyphens *)

Section Resegmented.
Context (P : Platform) (HT : TextLaws P) (HF : FormLaws P).

Lemma unicodeWord_hyphen : unicodeWord P HYPHEN = true.
Proof. unfold unicodeWord. by rewrite orb_true_r. Qed.

Lemma settled_squeeze : ∀ s pre,
  settled P (pre ++ s) → settled P (pre ++ squeeze s).
Proof.
  intros s. remember (length s) as n eqn:Hn. revert s Hn.
  induction n as [n IH] using lt_wf_ind. intros s -> pre Hs.
  destruct s as [|c s]; [done|]. destruct s as [|d s]; [done|].
  rewrite squeeze_cons. destruct (isHyphen c && isHyphen d) eqn:E.
  - apply andb_true_iff in E as [->%isHyphen_true ->%isHyphen_true].
    apply (IH (length (HYPHEN :: s))); [simpl; lia|done|].
    by apply (settled_double P HF pre s).
  - replace (pre ++ c :: squeeze (d :: s)) with ((pre ++ [c]) ++ squeeze (d :: s))
      by by rewrite <- app_assoc.
    apply (IH (length (d :: s))); [simpl; lia|done|].
    by rewrite <- app_assoc.
Qed.

Lemma settled_dropLeading s : settled P s → settled P (dropLeading s).
Proof.
  destruct s as [|c s]; [done|]. simpl.
  destruct (isHyphen c) eqn:E; [|done]. apply isHyphen_true in E as ->.
  apply (settled_leading P HF).
Qed.

Lemma dropTrailing_cases s :
  dropTrailing s = s ∨ s = dropTrailing s ++ [HYPHEN].
Proof.
  induction s as [|c s IH]; [by left|]. destruct s as [|d s].
  - simpl. destruct (isHyphen c) eqn:E; [|by left].
    apply isHyphen_true in E as ->. by right.
  - change (dropTrailing (c :: d :: s)) with (c :: dropTrailing (d :: s)).
    destruct IH as [->|IH]; [by left|]. right. simpl. by f_equal.
Qed.

Lemma settled_dropTrailing s : settled P s → settled P (dropTrailing s).
Proof.
  destruct (dropTrailing_cases s) as [->|E]; [done|].
  intros Hs. rewrite E in Hs. by apply (settled_trailing P HF).
Qed.

Lemma settled_hyphen : settled P [HYPHEN].
Proof.
  assert (nfc P [HYPHEN] = [HYPHEN]) as E.
  { apply (nfc_ascii P HT). by repeat constructor. }
  rewrite <- E. apply (nfc_settled P HF).
  apply (lower_pieces P HF []). apply Forall_cons. split; [by right|done].
Qed.

(** The slug computed with no options is a text of letters, marks, digits
    and hyphens, and it is settled. *)
Lemma slug_form st s :
  let r := slugifyWith P st s noOptions NoTransliterate in
  Forall (fun c => unicodeWord P c = true) r ∧ settled P r.
Proof.
  unfold slugifyWith, stages.
  change (stripPattern P noOptions NoTransliterate) with (NON_WORD P).
  cbn [transliterate convertWord]. rewrite map_id, delete_NON_WORD.
  rewrite collapse_squeeze, edge_drop.
  set (t0 := toLowerCase P (nfd P (trim P s))).
  set (x := filter (fun c => unicodeWord P c = true)
              (join [] (collectWords (segment P t0)))).
  assert (Forall (fun c => unicodeWord P c = true) x) as Hw.
  { apply Forall_forall. intros c Hc. by apply list_elem_of_filter in Hc as [Hc _]. }
  assert (toLowerCase P x = x) as Hl.
  { apply (lower_pieces P HF (nfd P (trim P s))). fold t0.
    assert (Forall (fun c => c ∈ t0 ∨ c = HYPHEN)
              (join [] (collectWords (segment P t0)))) as Hj.
    { apply join_Forall; [done|]. apply collectWords_Forall; [by right|].
      rewrite (segment_concat P HT). apply Forall_forall. intros c Hc. by left. }
    apply Forall_forall. intros c Hc. apply list_elem_of_filter in Hc as [_ Hc].
    by apply (proj1 (Forall_forall _ _) Hj). }
  pose proof (word_nfc P HF x Hw) as Hwn.
  pose proof (nfc_settled P HF x Hl) as Hsn.
  set (y := dropTrailing (dropLeading (squeeze (nfc P x)))).
  assert (Forall (fun c => unicodeWord P c = true) y ∧ settled P y) as [Hy1 Hy2].
  { split.
    - by apply dropTrailing_Forall, dropLeading_Forall, squeeze_Forall.
    - apply settled_dropTrailing, settled_dropLeading.
      by apply (settled_squeeze (nfc P x) []). }
  destruct y as [|c y]; simpl.
  - split; [|apply settled_hyphen]. repeat constructor. apply unicodeWord_hyphen.
  - done.
Qed.

(** C3, as the code has it: a slug computed with no options is its own slug
    whenever, segmented again, it falls into word-like segments and single
    hyphens; that is, whenever no mark or digit group of it has lost the
    letter that tied it to a word. *)
Theorem slugify_idempotent_on_word_slugs s st r st' :
  slugify P s noOptions st = (Returns r, st') →
  Forall (fun seg : jsstring * bool => seg.2 = true ∨ seg.1 = [HYPHEN])
    (segment P (toLowerCase P (nfd P (trim P r)))) →
  slugify P r noOptions st' = (Returns r, st').
Proof.
  unfold slugify, finish. cbn [charMap noOptions].
  change (global (stripPattern P noOptions NoTransliterate)) with true.
  cbv iota. intros [= <- <-]. 
  pose proof (slugifyWith_hyphen_structure P st s noOptions NoTransliterate)
    as [Hnd Hedges].
  pose proof (slug_form st s) as [Hw Hs]. cbv zeta in Hw, Hs.
  set (r := slugifyWith P st s noOptions NoTransliterate) in *.
  intros Hseg. f_equal. f_equal.
  unfold slugifyWith at 1, stages.
  change (stripPattern P noOptions NoTransliterate) with (NON_WORD P).
  rewrite (word_trim P HF r Hw) in Hseg |- *.
  rewrite (collectWords_fst _ Hseg).
  cbn [transliterate convertWord]. rewrite map_id, join_nil_concat.
  rewrite (segment_concat P HT), delete_NON_WORD.
  assert (filter (fun c => unicodeWord P c = true) (toLowerCase P (nfd P r))
          = toLowerCase P (nfd P r)) as ->.
  { pose proof (word_nfd_lower P HF r Hw) as Hw'.
    revert Hw'. generalize (toLowerCase P (nfd P r)). clear.
    intros t Ht. induction Ht as [|c t Hc Ht IH]; [done|].
    rewrite filter_cons_True by done. by rewrite IH. }
  rewrite Hs, collapse_squeeze, edge_drop.
  rewrite squeeze_id by by apply noDouble_spec.
  destruct Hedges as [->|[Hh Hl]]; [done|].
  rewrite dropLeading_id, dropTrailing_id by done.
  assert (r ≠ []) as Hne.
  { unfold r, slugifyWith. by destruct (stages _ _ _ _ _). }
  by destruct r.
Qed.

End Resegmented.

Section BasicFormLaws.

Ltac ranges :=
  repeat match goal with
  | |- context [(?a <=? ?b)%N] => destruct (N.leb_spec a b)
  | H : context [(?a <=? ?b)%N] |- _ => destruct (N.leb_spec a b)
  | |- context [bool_decide ?p] => destruct (bool_decide_reflect p)
  | H : context [bool_decide ?p] |- _ => destruct (bool_decide_reflect p)
  | |- context [decide ?p] => destruct (decide p)
  | H : context [decide ?p] |- _ => destruct (decide p)
  end; simpl in *; try done; try lia.

Abbreviation W := (fun c => unicodeWord Basic.platform c = true).
Abbreviation lowered := (fun c => Basic.lowerChar c = c).

(** The letters, marks, digits and the hyphen of the small repertoire. *)
Lemma basic_word_cases c :
  unicodeWord Basic.platform c = true ↔
  ((65 ≤ c ≤ 90) ∨ (97 ≤ c ≤ 122) ∨ c = 201 ∨ c = 233 ∨ c = 769
   ∨ (48 ≤ c ≤ 57) ∨ c = 45)%N.
Proof.
  unfold unicodeWord, isHyphen, HYPHEN. cbn [isL isM isN Basic.platform].
  unfold Basic.isL, Basic.isM, Basic.isN, Basic.ACUTE.
  split.
  - intros H. ranges.
  - intros H. ranges.
Qed.

Lemma basic_word_no_space c :
  unicodeWord Basic.platform c = true → Basic.isWhiteSpace c = false.
Proof.
  intros Hc%basic_word_cases. unfold Basic.isWhiteSpace.
  apply orb_false_iff. split.
  - apply bool_decide_eq_false. rewrite !elem_of_cons, elem_of_nil. lia.
  - ranges.
Qed.

Lemma basic_word_trim s : Forall W s → Basic.trim s = s.
Proof.
  intros Hs. unfold Basic.trim.
  assert (Forall (fun c => Basic.isWhiteSpace c = false) s) as Hw.
  { eapply Forall_impl; [exact Hs|]. apply basic_word_no_space. }
  rewrite (trimStart_id s Hw), trimStart_id by by apply Forall_reverse.
  apply reverse_involutive.
Qed.

(** What composition puts into a text. *)
Lemma nfc_elem : ∀ s c, c ∈ Basic.nfc s →
  c ∈ s ∨ (c = 233%N ∧ 101%N ∈ s) ∨ (c = 201%N ∧ 69%N ∈ s).
Proof.
  intros s. remember (length s) as n eqn:Hn. revert s Hn.
  induction n as [n IH] using lt_wf_ind. intros s -> c.
  destruct s as [|a s]; [by intros ?%elem_of_nil|]. destruct s as [|m s].
  { by left. }
  rewrite nfc_cons. repeat case_decide.
  - destruct H as [-> ->]. intros [->|Hc]%elem_of_cons.
    + right. left. split; [done|]. by left.
    + apply (IH (length s)) in Hc; [|simpl; lia|done].
      destruct Hc as [Hc|[[-> Hc]|[-> Hc]]].
      * left. by do 2 right.
      * right. left. split; [done|by do 2 right].
      * right. right. split; [done|by do 2 right].
  - destruct H0 as [-> ->]. intros [->|Hc]%elem_of_cons.
    + right. right. split; [done|]. by left.
    + apply (IH (length s)) in Hc; [|simpl; lia|done].
      destruct Hc as [Hc|[[-> Hc]|[-> Hc]]].
      * left. by do 2 right.
      * right. left. split; [done|by do 2 right].
      * right. right. split; [done|by do 2 right].
  - intros [->|Hc]%elem_of_cons.
    + left. by left.
    + apply (IH (length (m :: s))) in Hc; [|simpl; lia|done].
      destruct Hc as [Hc|[[-> Hc]|[-> Hc]]].
      * left. by right.
      * right. left. split; [done|by right].
      * right. right. split; [done|by right].
Qed.

Lemma basic_word_nfc s : Forall W s → Forall W (Basic.nfc s).
Proof.
  intros Hs. apply Forall_forall. intros c Hc.
  apply nfc_elem in Hc as [Hc|[[-> _]|[-> _]]]; [|done..].
  by apply (proj1 (Forall_forall _ _) Hs).
Qed.

Lemma basic_word_nfd s : Forall W s → Forall W (Basic.nfd s).
Proof.
  induction 1 as [|c s Hc Hs IH]; [done|].
  unfold Basic.nfd in *. simpl. apply Forall_app. split; [|done].
  unfold Basic.decompose. repeat case_decide; by repeat constructor.
Qed.

Lemma basic_word_lower s : Forall W s → Forall W (Basic.toLowerCase s).
Proof.
  intros Hs. apply Forall_fmap. eapply Forall_impl; [exact Hs|].
  intros c Hc%basic_word_cases. simpl. apply basic_word_cases.
  unfold Basic.lowerChar. ranges.
Qed.

Lemma lowerChar_idemp c : Basic.lowerChar (Basic.lowerChar c) = Basic.lowerChar c.
Proof. unfold Basic.lowerChar. ranges. Qed.

Lemma lowered_map x : Forall lowered x ↔ Basic.toLowerCase x = x.
Proof.
  unfold Basic.toLowerCase. induction x as [|c x IH]; [done|].
  rewrite Forall_cons, IH. simpl. split.
  - by intros [-> ->].
  - by intros [= -> ->].
Qed.

Lemma basic_lower_pieces y x :
  Forall (fun c => c ∈ Basic.toLowerCase y ∨ c = HYPHEN) x →
  Basic.toLowerCase x = x.
Proof.
  intros Hx. apply lowered_map. eapply Forall_impl; [exact Hx|].
  intros c [Hc| ->]; [|done]. simpl.
  apply list_elem_of_fmap in Hc as (d & -> & _). apply lowerChar_idemp.
Qed.

Lemma lowered_nfc x : Forall lowered x → Forall lowered (Basic.nfc x).
Proof.
  intros Hx. apply Forall_forall. intros c Hc.
  apply nfc_elem in Hc as [Hc|[[-> _]|[-> Hc]]].
  - by apply (proj1 (Forall_forall _ _) Hx).
  - done.
  - by apply (proj1 (Forall_forall _ _) Hx) in Hc.
Qed.

Lemma lowered_nfd x : Forall lowered x → Forall lowered (Basic.nfd x).
Proof.
  induction 1 as [|c s Hc Hs IH]; [done|].
  unfold Basic.nfd in *. simpl. apply Forall_app. split; [|done].
  unfold Basic.decompose. repeat case_decide; subst; try done.
  - by repeat constructor.
  - by repeat constructor.
Qed.

Lemma nfc_cons_apart c m s :
  ¬ (m = Basic.ACUTE ∧ (c = 101%N ∨ c = 69%N)) →
  Basic.nfc (c :: m :: s) = c :: Basic.nfc (m :: s).
Proof. intros H. rewrite nfc_cons, !decide_False by tauto. done. Qed.

Lemma decompose_head c :
  ∃ h t, Basic.decompose c = h :: t ∧ (h = Basic.ACUTE → c = Basic.ACUTE).
Proof.
  unfold Basic.decompose. repeat case_decide; subst; eexists _, _; by split.
Qed.

(** Composition undoes decomposition. *)
Lemma nfc_nfd z : Basic.nfc (Basic.nfd z) = Basic.nfc z.
Proof.
  remember (length z) as n eqn:Hn. revert z Hn.
  induction n as [n IH] using lt_wf_ind. intros z ->.
  destruct z as [|c z]; [done|].
  assert (Basic.nfc (Basic.nfd z) = Basic.nfc z) as IHz
    by (apply (IH (length z)); [simpl; lia|done]).
  unfold Basic.nfd in *. cbn [flat_map]. unfold Basic.decompose at 1.
  repeat case_decide; subst.
  - cbn [app]. rewrite nfc_cons, decide_True by done. rewrite IHz.
    destruct z as [|m z]; [done|]. by rewrite nfc_cons_apart by (intros [_ [[=]|[=]]]).
  - cbn [app]. rewrite nfc_cons, decide_False by (intros [_ [=]]).
    rewrite decide_True by done. rewrite IHz.
    destruct z as [|m z]; [done|]. by rewrite nfc_cons_apart by (intros [_ [[=]|[=]]]).
  - cbn [app]. destruct z as [|m z]; [done|].
    destruct (decide (m = Basic.ACUTE ∧ (c = 101%N ∨ c = 69%N))) as [[-> Hc]|Hn].
    + cbn [flat_map]. change (Basic.decompose Basic.ACUTE) with [Basic.ACUTE].
      cbn [app]. rewrite !nfc_cons.
      assert (Basic.nfc (flat_map Basic.decompose z) = Basic.nfc z) as ->
        by (apply (IH (length z)); [simpl; lia|done]).
      repeat case_decide; try done. exfalso. destruct Hc; tauto.
    + rewrite (nfc_cons_apart c m z Hn), <- IHz. cbn [flat_map].
      destruct (decompose_head m) as (h & t & -> & Hh). cbn [app].
      apply nfc_cons_apart. intros [Hm Hc]. apply Hn. split; [by apply Hh|done].
Qed.

Lemma composed_cons c m s :
  composed (c :: m :: s)
  = negb (bool_decide (m = Basic.ACUTE ∧ (c = 101%N ∨ c = 69%N)))
    && composed (m :: s).
Proof. done. Qed.

Lemma nfc_head m s :
  head (Basic.nfc (m :: s)) = Some Basic.ACUTE → m = Basic.ACUTE.
Proof.
  destruct s as [|m2 s]; [by intros [= ->]|]. rewrite nfc_cons.
  repeat case_decide; simpl; by intros [= ?].
Qed.

(** What composition returns is composed, and composition leaves a
    composed text as it is. *)
Lemma nfc_composed x : composed (Basic.nfc x) = true.
Proof.
  remember (length x) as n eqn:Hn. revert x Hn.
  induction n as [n IH] using lt_wf_ind. intros x ->.
  destruct x as [|c x]; [done|]. destruct x as [|m x]; [done|].
  assert (composed (Basic.nfc x) = true) as IHx
    by (apply (IH (length x)); [simpl; lia|done]).
  assert (composed (Basic.nfc (m :: x)) = true) as IHm
    by (apply (IH (length (m :: x))); [simpl; lia|done]).
  rewrite nfc_cons. repeat case_decide.
  - destruct (Basic.nfc x) as [|h t]; [done|]. rewrite composed_cons, IHx.
    rewrite bool_decide_eq_false_2; [done|]. by intros [_ [[=]|[=]]].
  - destruct (Basic.nfc x) as [|h t]; [done|]. rewrite composed_cons, IHx.
    rewrite bool_decide_eq_false_2; [done|]. by intros [_ [[=]|[=]]].
  - pose proof (nfc_head m x) as Hh.
    destruct (Basic.nfc (m :: x)) as [|h t]; [done|]. rewrite composed_cons, IHm.
    rewrite bool_decide_eq_false_2; [done|]. intros [-> Hc].
    specialize (Hh eq_refl). subst m. tauto.
Qed.

Lemma composed_nfc z : composed z = true → Basic.nfc z = z.
Proof.
  induction z as [|c z IH]; [done|]. destruct z as [|m z]; [done|].
  rewrite composed_cons. intros [Hc Hz]%andb_true_iff.
  apply negb_true_iff, bool_decide_eq_false in Hc.
  rewrite (nfc_cons_apart c m z Hc). by rewrite IH.
Qed.

Lemma basic_nfc_settled x :
  Basic.toLowerCase x = x →
  Basic.nfc (Basic.toLowerCase (Basic.nfd (Basic.nfc x))) = Basic.nfc x.
Proof.
  intros Hx%lowered_map.
  rewrite (proj1 (lowered_map _) (lowered_nfd _ (lowered_nfc _ Hx))).
  rewrite nfc_nfd. apply composed_nfc, nfc_composed.
Qed.

(** The settled texts of the small repertoire are the lowercase composed
    ones. *)
Lemma basic_settled z :
  settled Basic.platform z ↔ Forall lowered z ∧ composed z = true.
Proof.
  unfold settled. cbn [nfc toLowerCase nfd Basic.platform]. split.
  - intros E. split.
    + rewrite <- E. apply lowered_nfc. apply lowered_map.
      apply (basic_lower_pieces (Basic.nfd z)). apply Forall_forall. intros c Hc. by left.
    + rewrite <- E. apply nfc_composed.
  - intros [Hl Hc].
    rewrite (proj1 (lowered_map _) (lowered_nfd _ Hl)), nfc_nfd.
    by apply composed_nfc.
Qed.

Lemma composed_double a b :
  composed (a ++ [HYPHEN; HYPHEN] ++ b) = true →
  composed (a ++ [HYPHEN] ++ b) = true.
Proof.
  induction a as [|c a IH].
  - cbn [app]. rewrite composed_cons. by intros [_ ?]%andb_true_iff.
  - destruct a as [|d a].
    + cbn [app] in *. rewrite !(composed_cons c). intros [Hc Hr]%andb_true_iff.
      by rewrite Hc, IH.
    + cbn [app] in *. rewrite !(composed_cons c). intros [Hc Hr]%andb_true_iff.
      by rewrite Hc, IH.
Qed.

Lemma composed_tail c b : composed (c :: b) = true → composed b = true.
Proof.
  destruct b as [|d b]; [done|]. rewrite composed_cons.
  by intros [_ ?]%andb_true_iff.
Qed.

Lemma composed_init a : composed (a ++ [HYPHEN]) = true → composed a = true.
Proof.
  induction a as [|c a IH]; [done|]. destruct a as [|d a]; [done|].
  cbn [app] in *. rewrite !(composed_cons c). intros [Hc Hr]%andb_true_iff.
  by rewrite Hc, IH.
Qed.

Lemma basic_form_laws : FormLaws Basic.platform.
Proof.
  split.
  - apply basic_word_trim.
  - apply basic_word_nfc.
  - intros s Hs. by apply basic_word_lower, basic_word_nfd.
  - apply basic_lower_pieces.
  - apply basic_nfc_settled.
  - intros a b [Hl Hc]%basic_settled. apply basic_settled. split.
    + apply Forall_app in Hl as [Ha Hb]. apply Forall_cons in Hb as [_ Hb].
      apply Forall_app. by split.
    + by apply composed_double.
  - intros b [Hl Hc]%basic_settled. apply basic_settled. split.
    + by apply Forall_cons in Hl as [_ ?].
    + by apply composed_tail in Hc.
  - intros a [Hl Hc]%basic_settled. apply basic_settled. split.
    + by apply Forall_app in Hl as [? _].
    + by apply composed_init.
Qed.

End BasicFormLaws.

Lemma slugify_idempotent_on_word_slugs_witness :
  slugify Basic.platform (str " D" ++ [233%N] ++ str "j  Vu! ")
    noOptions emptyStore
  = (Returns (str "d" ++ [233%N] ++ str "j-vu"), emptyStore)
  ∧ slugify Basic.platform (str "d" ++ [233%N] ++ str "j-vu") noOptions emptyStore
    = (Returns (str "d" ++ [233%N] ++ str "j-vu"), emptyStore).
Proof.
  assert (slugify Basic.platform
            (str " D" ++ [233%N] ++ str "j  Vu! ")
            noOptions emptyStore
          = (Returns (str "d" ++ [233%N] ++ str "j-vu"), emptyStore)) as E
    by (vm_compute; reflexivity).
  split; [exact E|].
  apply (slugify_idempotent_on_word_slugs Basic.platform basic_text_laws
           basic_form_laws _ _ _ _ E).
  apply (bool_decide_unpack _). vm_compute. exact I.
Defined.

(** ** C4: the pattern compiled from the keys *)

Section Compile.

Lemma literal_not_special c :
  isSyntaxCharacter c = false → c ≠ LPAREN ∧ c ≠ RPAREN ∧ c ≠ BAR ∧ c ≠ DOT.
Proof. intros H. repeat split; intros ->; by vm_compute in H. Qed.

Lemma tokenize_literal c rest :
  isSyntaxCharacter c = false →
  tokenize (c :: rest) = TChar c :: tokenize rest.
Proof.
  intros H. destruct (literal_not_special c H) as (H1 & H2 & H3 & H4).
  cbn [tokenize]. rewrite !decide_False by tauto. rewrite H.
  destruct rest as [|c2 [|c3 rest3]]; try done.
  by rewrite decide_False by tauto.
Qed.

Lemma tokenize_bar rest : tokenize (BAR :: rest) = TBar :: tokenize rest.
Proof.
  cbn [tokenize]. destruct rest as [|c2 [|c3 rest3]]; try done.
Qed.

Lemma tokenize_key k rest :
  literalKey k → tokenize (k ++ rest) = map TChar k ++ tokenize rest.
Proof.
  induction k as [|c k IH]; [done|]. intros [Hc Hk]%Forall_cons.
  cbn [app map]. rewrite tokenize_literal by done. by rewrite IH.
Qed.

Lemma tokenize_join ks rest :
  Forall literalKey ks →
  tokenize (join [BAR] ks ++ rest) = keyTokens ks ++ tokenize rest.
Proof.
  induction ks as [|k ks IH]; [done|]. intros [Hk Hks]%Forall_cons.
  destruct ks as [|k' ks'].
  - simpl. by apply tokenize_key.
  - change (join [BAR] (k :: k' :: ks')) with (k ++ [BAR] ++ join [BAR] (k' :: ks')).
    replace ((k ++ [BAR] ++ join [BAR] (k' :: ks')) ++ rest)
      with (k ++ BAR :: (join [BAR] (k' :: ks') ++ rest))
      by (by rewrite <- !app_assoc).
    rewrite tokenize_key, tokenize_bar, IH by done.
    change (keyTokens (k :: k' :: ks')) with (map TChar k ++ TBar :: keyTokens (k' :: ks')).
    by rewrite <- app_assoc.
Qed.

Lemma tokenize_source ks :
  Forall literalKey ks →
  tokenize (str "(?:" ++ join (str "|") ks ++ str ")")
  = TOpen :: keyTokens ks ++ [TClose].
Proof.
  intros Hks. change (str "(?:") with [LPAREN; 63%N; 58%N].
  change (str "|") with [BAR]. change (str ")") with [RPAREN].
  pose proof (tokenize_join ks [RPAREN] Hks) as Hj.
  change (tokenize [RPAREN]) with [TClose] in Hj. rewrite <- Hj.
  generalize (join [BAR] ks ++ [RPAREN]). intros s. cbn [app tokenize].
  by rewrite decide_True.
Qed.

Lemma parse_key k : ∀ ts top stack,
  parse (map TChar k ++ ts) top stack
  = parse ts {| alts := alts top; cur := keyAfter (cur top) k |} stack.
Proof.
  induction k as [|c k IH]; intros ts top stack.
  - by destruct top.
  - simpl. by rewrite IH.
Qed.

Lemma parse_keys ks : ∀ closed ts parent stack,
  parse (keyTokens ks ++ TClose :: ts) {| alts := closed; cur := PEmpty |}
        (parent :: stack)
  = parse ts
      (pushTerm parent (foldl (fun acc a => PAlt a acc) (alternation ks) closed))
      stack.
Proof.
  induction ks as [|k ks IH]; intros closed ts parent stack; [done|].
  destruct ks as [|k' ks'].
  - cbn [keyTokens]. by rewrite parse_key.
  - change (keyTokens (k :: k' :: ks'))
      with (map TChar k ++ TBar :: keyTokens (k' :: ks')).
    rewrite <- app_assoc, parse_key. cbn [app parse alts cur].
    by rewrite IH.
Qed.

Lemma keyTokens_supported ks : existsb isOther (keyTokens ks) = false.
Proof.
  assert (∀ k, existsb isOther (map TChar k) = false) as Hk
    by (induction k; done).
  induction ks as [|k ks IH]; [done|]. destruct ks as [|k' ks']; [apply Hk|].
  change (keyTokens (k :: k' :: ks'))
    with (map TChar k ++ TBar :: keyTokens (k' :: ks')).
  rewrite existsb_app, Hk. exact IH.
Qed.

Lemma compile_literal ks :
  Forall literalKey ks →
  compile (str "(?:" ++ join (str "|") ks ++ str ")")
  = Compiles (PSeq PEmpty (alternation ks)).
Proof.
  intros Hks. unfold compile. rewrite (tokenize_source ks Hks).
  cbn [existsb isOther orb]. rewrite existsb_app, keyTokens_supported.
  cbn [existsb isOther orb parse]. unfold emptyFrame at 1.
  rewrite parse_keys. done.
Qed.

End Compile.

Section Matching.

Lemma keyAfter_snoc p k c : keyAfter p (k ++ [c]) = PSeq (keyAfter p k) (PChar c).
Proof. unfold keyAfter. by rewrite foldl_app. Qed.

Lemma matches_key k : ∀ s,
  matches (keyAfter PEmpty k) s
  = if bool_decide (k `prefix_of` s) then [length k] else [].
Proof.
  induction k as [|c k IH] using rev_ind; intros s.
  - rewrite bool_decide_eq_true_2 by apply prefix_nil. done.
  - rewrite keyAfter_snoc. cbn [matches]. rewrite IH.
    destruct (bool_decide_reflect (k `prefix_of` s)) as [[t ->]|Hk].
    + cbn [flat_map]. rewrite app_nil_r, drop_app_length.
      destruct t as [|c' t].
      * rewrite bool_decide_eq_false_2; [done|].
        intros [u Hu]. apply (f_equal length) in Hu.
        rewrite !length_app in Hu. simpl in Hu. lia.
      * cbn [matches]. destruct (decide (c = c')) as [->|Hc].
        -- rewrite bool_decide_eq_true_2.
           ++ simpl. rewrite length_app. simpl. done.
           ++ exists t. by rewrite <- app_assoc.
        -- rewrite bool_decide_eq_false_2; [done|].
           intros [u Hu]. rewrite <- app_assoc in Hu.
           apply app_inv_head in Hu. simpl in Hu. congruence.
    + rewrite bool_decide_eq_false_2; [done|].
      intros [u Hu]. apply Hk. exists ([c] ++ u). by rewrite Hu, <- app_assoc.
Qed.

Lemma matches_alternation ks s :
  ks ≠ [] →
  head (matches (alternation ks) s)
  = length <$> head (filter (fun k => k `prefix_of` s) ks).
Proof.
  induction ks as [|k ks IH]; [done|]. intros _.
  destruct ks as [|k' ks'].
  - cbn [alternation]. rewrite matches_key, filter_cons, filter_nil.
    destruct (bool_decide_reflect (k `prefix_of` s)).
    + by rewrite decide_True.
    + by rewrite decide_False.
  - change (alternation (k :: k' :: ks'))
      with (PAlt (keyAfter PEmpty k) (alternation (k' :: ks'))).
    cbn [matches]. rewrite matches_key, filter_cons.
    destruct (bool_decide_reflect (k `prefix_of` s)).
    + by rewrite decide_True.
    + rewrite decide_False by done. simpl app. by apply IH.
Qed.

Lemma exec_alternation ks before s :
  ks ≠ [] →
  exec (regexOf (PSeq PEmpty (alternation ks))) before s
  = length <$> head (filter (fun k => k `prefix_of` s) ks).
Proof.
  intros Hks. cbn [exec regexOf matches flat_map]. rewrite app_nil_r.
  rewrite drop_0, <- (matches_alternation ks s Hks).
  by destruct (matches (alternation ks) s).
Qed.

End Matching.

Section Sorting.

Lemma insertBy_elem {A} (after : A → A → bool) x y l :
  y ∈ insertBy after x l ↔ y = x ∨ y ∈ l.
Proof.
  induction l as [|z l IH]; simpl.
  - rewrite elem_of_cons, elem_of_nil. tauto.
  - destruct (after x z).
    + rewrite !elem_of_cons, IH. tauto.
    + rewrite !elem_of_cons. tauto.
Qed.

Lemma sortBy_elem {A} (after : A → A → bool) y l :
  y ∈ sortBy after l ↔ y ∈ l.
Proof.
  induction l as [|x l IH]; [done|]. unfold sortBy in *. simpl.
  rewrite insertBy_elem, IH, elem_of_cons. tauto.
Qed.

Lemma insertBy_shorter_sorted x l :
  StronglySorted notShorter l → StronglySorted notShorter (insertBy shorter x l).
Proof.
  induction 1 as [|z l Hl IH Hz]; simpl.
  - repeat constructor.
  - unfold shorter at 1. destruct (Nat.ltb_spec (jslength x) (jslength z)).
    + constructor; [done|]. apply Forall_forall. intros y Hy.
      apply insertBy_elem in Hy as [->|Hy].
      * unfold notShorter. lia.
      * by eapply Forall_forall in Hz.
    + constructor; [by constructor|]. apply Forall_cons. split; [done|].
      eapply Forall_impl; [exact Hz|]. unfold notShorter. intros y Hy. lia.
Qed.

Lemma sortBy_shorter_sorted l : StronglySorted notShorter (sortBy shorter l).
Proof.
  induction l as [|x l IH]; [constructor|].
  unfold sortBy in *. simpl. by apply insertBy_shorter_sorted.
Qed.

Lemma first_prefix_longest ks s k0 :
  StronglySorted notShorter ks →
  head (filter (fun k => k `prefix_of` s) ks) = Some k0 →
  k0 ∈ ks ∧ k0 `prefix_of` s
  ∧ ∀ k, k ∈ ks → k `prefix_of` s → jslength k ≤ jslength k0.
Proof.
  induction 1 as [|z l Hl IH Hz]; [done|]. rewrite filter_cons.
  destruct (decide (z `prefix_of` s)) as [Hp|Hp].
  - intros [= ->]. split; [by left|]. split; [done|].
    intros k [->|Hk]%elem_of_cons _; [done|]. by eapply Forall_forall in Hz.
  - intros Hh. destruct (IH Hh) as (H1 & H2 & H3).
    split; [by right|]. split; [done|].
    intros k [->|Hk]%elem_of_cons Hkp; [done|]. by apply H3.
Qed.

Lemma units_pos c : 1 ≤ units c.
Proof. unfold units. destruct (_ <? _)%N; lia. Qed.

Lemma jslength_app a b : jslength (a ++ b) = jslength a + jslength b.
Proof.
  unfold jslength. rewrite map_app. induction (map units a); simpl; [done|lia].
Qed.

Lemma jslength_ge s : length s ≤ jslength s.
Proof.
  unfold jslength. induction s as [|c s IH]; simpl; [done|].
  pose proof (units_pos c). lia.
Qed.

(** Of two keys a text starts with, the one with more code units has more
    code points. *)
Lemma prefixes_lengths a b s :
  a `prefix_of` s → b `prefix_of` s → jslength a ≤ jslength b →
  length a ≤ length b.
Proof.
  intros Ha Hb Hab. destruct (decide (length a ≤ length b)) as [|Hlt]; [done|].
  exfalso. destruct (prefix_weak_total a b s Ha Hb) as [[t ->]|[t ->]].
  - rewrite length_app in Hlt. lia.
  - rewrite jslength_app in Hab. rewrite length_app in Hlt.
    pose proof (jslength_ge t). lia.
Qed.

End Sorting.

Section LongestMatch.

Lemma longestKeyAt_Some m rest k :
  longestKeyAt m rest = Some k →
  k ∈ mapKeys m ∧ k `prefix_of` rest
  ∧ ∀ k', k' ∈ mapKeys m → k' `prefix_of` rest → length k' ≤ length k.
Proof.
  unfold longestKeyAt. generalize (mapKeys m). intros ks. revert k.
  induction ks as [|k0 ks IH]; intros k; [done|]. cbn [foldr].
  destruct (bool_decide_reflect (k0 `prefix_of` rest)) as [Hp|Hp].
  - destruct (foldr _ None ks) as [b|] eqn:Hb.
    + destruct (IH b eq_refl) as (H1 & H2 & H3).
      destruct (Nat.ltb_spec (length b) (length k0)); intros [= <-].
      * split; [by left|]. split; [done|].
        intros k' [->|Hk']%elem_of_cons Hk'p; [done|]. specialize (H3 k' Hk' Hk'p). lia.
      * split; [by right|]. split; [done|].
        intros k' [->|Hk']%elem_of_cons Hk'p; [done|]. by apply H3.
    + intros [= <-]. split; [by left|]. split; [done|].
      intros k' [->|Hk']%elem_of_cons Hk'p; [done|].
      exfalso. clear IH. induction ks as [|z ks IHks]; [by apply elem_of_nil in Hk'|].
      cbn [foldr] in Hb.
      destruct (bool_decide_reflect (z `prefix_of` rest)) as [Hz|Hz].
      * by destruct (foldr _ None ks) as [b|]; [destruct (_ <? _)|].
      * apply elem_of_cons in Hk' as [->|Hk']; [done|]. by apply IHks.
  - intros Hk. destruct (IH k Hk) as (H1 & H2 & H3).
    split; [by right|]. split; [done|].
    intros k' [->|Hk']%elem_of_cons Hk'p; [done|]. by apply H3.
Qed.

Lemma longestKeyAt_None m rest k :
  longestKeyAt m rest = None → k ∈ mapKeys m → ¬ k `prefix_of` rest.
Proof.
  unfold longestKeyAt. generalize (mapKeys m). intros ks.
  induction ks as [|z ks IH]; [by intros _ ?%elem_of_nil|]. cbn [foldr].
  destruct (bool_decide_reflect (z `prefix_of` rest)) as [Hz|Hz].
  - by destruct (foldr _ None ks) as [b|]; [destruct (_ <? _)|].
  - intros Hn [->|Hk]%elem_of_cons; [done|]. by apply IH.
Qed.

Lemma mapGet_key (m : JSMap) k : k ∈ mapKeys m → ∃ v, mapGet m k = Some v.
Proof.
  induction m as [|[k0 v0] m IH]; [by intros ?%elem_of_nil|]. simpl.
  intros [->|Hk]%elem_of_cons.
  - exists v0. by rewrite decide_True.
  - destruct (decide (k = k0)); [by exists v0|by apply IH].
Qed.

Lemma exec_sorted_keys m before rest :
  m ≠ [] →
  exec (regexOf (PSeq PEmpty (alternation (sortBy shorter (mapKeys m))))) before rest
  = length <$> longestKeyAt m rest.
Proof.
  intros Hm. set (ks := sortBy shorter (mapKeys m)).
  assert (ks ≠ []) as Hks.
  { destruct m as [|[k v] m]; [done|]. intros E.
    assert (k ∈ ks) as Hk by (apply sortBy_elem; by left).
    rewrite E in Hk. by apply elem_of_nil in Hk. }
  rewrite (exec_alternation ks before rest Hks).
  destruct (head (filter _ ks)) as [k0|] eqn:Hh.
  - destruct (first_prefix_longest ks rest k0 (sortBy_shorter_sorted _) Hh)
      as (H1 & H2 & H3).
    apply sortBy_elem in H1.
    destruct (longestKeyAt m rest) as [k|] eqn:Hk.
    + destruct (longestKeyAt_Some m rest k Hk) as (K1 & K2 & K3).
      simpl. f_equal. apply Nat.le_antisymm; [by apply K3|].
      apply (prefixes_lengths k k0 rest K2 H2). apply H3; [|done].
      by apply sortBy_elem.
    + by destruct (longestKeyAt_None m rest k0 Hk H1).
  - destruct (longestKeyAt m rest) as [k|] eqn:Hk; [|done].
    destruct (longestKeyAt_Some m rest k Hk) as (K1 & K2 & _).
    exfalso. destruct (filter _ ks) as [|? ?] eqn:Hf; [|done].
    eapply (filter_nil_not_elem_of _ ks k Hf); [done|by apply sortBy_elem].
Qed.

Lemma replaceFrom_ext re1 re2 f :
  (∀ before rest, exec re1 before rest = exec re2 before rest) →
  ∀ rest before skip,
    replaceFrom re1 f before rest skip = replaceFrom re2 f before rest skip.
Proof.
  intros He. induction rest as [|c rest IH]; intros before skip.
  - destruct skip; simpl; [|done]. by rewrite He.
  - destruct skip as [|k]; cbn [replaceFrom]; [|by apply IH].
    rewrite He. destruct (exec re2 before (c :: rest)) as [[|n]|]; by rewrite IH.
Qed.

(** C4. For a Map object used for the first time whose keys have no syntax
    character, the pattern compiles, and at every position it matches the
    longest key the text starts with there: such a key is in the map (and so
    has a mapped root), and no key the text starts with there is longer.
    [convertWord] is the left-to-right replacement of those matches by
    their roots; what no key matches is left as it is. *)
Theorem longest_match_first l st m :
  maps st !! l = Some m → m ≠ [] →
  transliterationReCache st !! l = None →
  Forall literalKey (mapKeys m) →
  ∃ re st',
    getTransliterationRe l st = (Returns re, st')
    ∧ (∀ before rest, exec re before rest = length <$> longestKeyAt m rest)
    ∧ (∀ rest k, longestKeyAt m rest = Some k →
         (∃ root, mapGet m k = Some root)
         ∧ k `prefix_of` rest
         ∧ ∀ k', k' ∈ mapKeys m → k' `prefix_of` rest → length k' ≤ length k)
    ∧ (∀ word,
         convertWord st' word (Transliterate l re) = longestMatchFirst m word).
Proof.
  intros Hm Hne Hc Hlit.
  assert (compile (transliterationSource m)
          = Compiles (PSeq PEmpty (alternation (sortBy shorter (mapKeys m))))) as Hp.
  { apply compile_literal. apply Forall_forall. intros k Hk.
    apply sortBy_elem in Hk. by eapply Forall_forall in Hlit. }
  eexists _, _. split; [exact (getTransliterationRe_fresh l st m _ Hc Hm Hne Hp)|].
  split; [intros; by apply exec_sorted_keys|]. split.
  - intros rest k Hk. destruct (longestKeyAt_Some m rest k Hk) as (K1 & K2 & K3).
    split; [by apply mapGet_key|done].
  - intros word. unfold convertWord, longestMatchFirst, replaceAll, theMap.
    cbn [maps]. rewrite Hm. simpl.
    apply replaceFrom_ext. intros. by apply exec_sorted_keys.
Qed.

End LongestMatch.

Lemma longest_match_first_witness :
  ∃ re st',
    getTransliterationRe 1%positive abStore = (Returns re, st')
    ∧ exec re [] (str "abc") = Some 2
    ∧ convertWord st' (str "cabba") (Transliterate 1%positive re) = str "cybx".
Proof.
  destruct (longest_match_first 1%positive abStore
              [(str "a", str "x"); (str "ab", str "y")])
    as (re & st' & H1 & H2 & _ & H4).
  - reflexivity.
  - discriminate.
  - reflexivity.
  - repeat constructor.
  - exists re, st'. split; [exact H1|]. split.
    + rewrite H2. vm_compute. reflexivity.
    + rewrite H4. vm_compute. reflexivity.
Defined.

(** ** C5: from the table to the map and back *)

Section Objects.
Context {V : Type}.

Lemma objSet_fresh (o : JSObject V) k v :
  k ∉ map fst o → objSet o k v = o ++ [(k, v)].
Proof.
  induction o as [|[k0 v0] o IH]; [done|]. simpl.
  intros Hk. rewrite not_elem_of_cons in Hk. destruct Hk as [Hne Hk].
  rewrite decide_False by done. by rewrite IH.
Qed.

Lemma fromEntries_acc (l : list (jsstring * V)) : ∀ acc,
  NoDup (map fst (acc ++ l)) →
  foldl (fun o e => objSet o e.1 e.2) acc l = acc ++ l.
Proof.
  induction l as [|[k v] l IH]; intros acc Hnd; [by rewrite app_nil_r|].
  simpl. rewrite objSet_fresh.
  - rewrite IH; rewrite <- app_assoc; done.
  - rewrite map_app in Hnd. apply NoDup_app in Hnd as (_ & Hd & _).
    intros Hk. apply (Hd k Hk). by left.
Qed.

Lemma fromEntries_nodup (l : list (jsstring * V)) :
  NoDup (map fst l) → fromEntries l = l.
Proof. intros H. unfold fromEntries. by rewrite fromEntries_acc. Qed.

End Objects.

Section SortedIndices.
Context {V : Type}.

Lemma insertBy_index_id (x : jsstring * V) l :
  Forall (indexSorted x) l → insertBy indexAfter x l = x :: l.
Proof.
  destruct l as [|y l]; [done|]. intros [Hxy _]%Forall_cons. simpl.
  unfold indexAfter. destruct (arrayIndex x.1) as [i|] eqn:Hi; [|done].
  destruct (arrayIndex y.1) as [j|] eqn:Hj; [|done].
  specialize (Hxy i j Hi Hj). by rewrite (proj2 (N.ltb_ge j i)).
Qed.

Lemma sortBy_index_id (l : list (jsstring * V)) :
  StronglySorted indexSorted l → sortBy indexAfter l = l.
Proof.
  induction 1 as [|x l Hl IH Hx]; [done|]. unfold sortBy in *. simpl.
  rewrite IH. by apply insertBy_index_id.
Qed.

Lemma insertBy_index_sorted (x : jsstring * V) l :
  isArrayIndex x.1 = true → Forall (fun e => isArrayIndex e.1 = true) l →
  StronglySorted indexSorted l →
  StronglySorted indexSorted (insertBy indexAfter x l).
Proof.
  intros Hx Hall Hs. induction Hs as [|z l Hl IH Hz]; simpl.
  - repeat constructor.
  - apply Forall_cons in Hall as [Hzi Hall].
    unfold isArrayIndex in Hx, Hzi. unfold indexAfter at 1.
    destruct (arrayIndex x.1) as [i|] eqn:Hi; [|done].
    destruct (arrayIndex z.1) as [j|] eqn:Hj; [|done].
    destruct (N.ltb_spec j i).
    + constructor; [by apply IH|]. apply Forall_forall. intros y Hy.
      apply insertBy_elem in Hy as [->|Hy].
      * intros a b Ha Hb. rewrite Hj in Ha. rewrite Hi in Hb.
        injection Ha as <-. injection Hb as <-. lia.
      * by eapply Forall_forall in Hz.
    + constructor; [by constructor|]. apply Forall_cons. split.
      * intros a b Ha Hb. rewrite Hi in Ha. rewrite Hj in Hb.
        injection Ha as <-. injection Hb as <-. done.
      * eapply Forall_impl; [exact Hz|]. intros y Hy a b Ha Hb.
        rewrite Hi in Ha. injection Ha as <-.
        specialize (Hy j b Hj Hb). lia.
Qed.

Lemma sortBy_index_sorted (l : list (jsstring * V)) :
  Forall (fun e => isArrayIndex e.1 = true) l →
  StronglySorted indexSorted (sortBy indexAfter l).
Proof.
  induction l as [|x l IH]; [constructor|]. intros [Hx Hl]%Forall_cons.
  unfold sortBy in *. simpl. apply insertBy_index_sorted; [done| |by apply IH].
  apply Forall_forall. intros y Hy. apply sortBy_elem in Hy.
  by eapply Forall_forall in Hl.
Qed.

(** Enumerating the enumeration changes nothing. *)
Lemma entries_idem (o : JSObject V) : entries (entries o) = entries o.
Proof.
  unfold entries at 2.
  set (S := sortBy indexAfter (filter (fun e => isArrayIndex e.1 = true) o)).
  set (R := filter (fun e => isArrayIndex e.1 = false) o).
  assert (Forall (fun e => isArrayIndex e.1 = true) S) as HS.
  { apply Forall_forall. intros y Hy. apply sortBy_elem in Hy.
    by apply list_elem_of_filter in Hy as [? _]. }
  assert (Forall (fun e => isArrayIndex e.1 = false) R) as HR.
  { apply Forall_forall. intros y Hy.
    by apply list_elem_of_filter in Hy as [? _]. }
  unfold entries. rewrite !filter_app.
  assert (filter (fun e => isArrayIndex e.1 = true) S = S) as ->.
  { clear -HS. induction S as [|x S IH]; [done|].
    apply Forall_cons in HS as [Hx HS].
    by rewrite filter_cons_True, IH. }
  assert (filter (fun e => isArrayIndex e.1 = true) R = []) as ->.
  { clear -HR. induction R as [|x R IH]; [done|].
    apply Forall_cons in HR as [Hx HR].
    rewrite filter_cons_False by congruence. by apply IH. }
  assert (filter (fun e => isArrayIndex e.1 = false) S = []) as ->.
  { clear -HS. induction S as [|x S IH]; [done|].
    apply Forall_cons in HS as [Hx HS].
    rewrite filter_cons_False by congruence. by apply IH. }
  assert (filter (fun e => isArrayIndex e.1 = false) R = R) as ->.
  { clear -HR. induction R as [|x R IH]; [done|].
    apply Forall_cons in HR as [Hx HR].
    by rewrite filter_cons_True, IH. }
  rewrite app_nil_r. simpl. f_equal.
  apply sortBy_index_id. subst S. apply sortBy_index_sorted.
  apply Forall_forall. intros y Hy. by apply list_elem_of_filter in Hy as [? _].
Qed.

End SortedIndices.

Section ValuesMapped.
Context {V W : Type} (g : jsstring * V → jsstring * W).
Hypothesis g_key : ∀ x, (g x).1 = x.1.

Lemma insertBy_keys (after : jsstring → jsstring → bool) x l :
  insertBy (fun a b => after a.1 b.1) (g x) (map g l)
  = map g (insertBy (fun a b => after a.1 b.1) x l).
Proof.
  induction l as [|y l IH]; [done|]. simpl. rewrite !g_key.
  destruct (after x.1 y.1); [|done]. simpl. by rewrite IH.
Qed.

Lemma sortBy_keys (after : jsstring → jsstring → bool) l :
  sortBy (fun a b => after a.1 b.1) (map g l)
  = map g (sortBy (fun a b => after a.1 b.1) l).
Proof.
  induction l as [|x l IH]; [done|]. unfold sortBy in *. simpl.
  by rewrite IH, insertBy_keys.
Qed.

Lemma insertBy_index_keys x l :
  insertBy indexAfter (g x) (map g l) = map g (insertBy indexAfter x l).
Proof.
  induction l as [|y l IH]; [done|]. simpl. unfold indexAfter at 1 3.
  rewrite !g_key.
  destruct (match arrayIndex x.1 with
            | Some a => match arrayIndex y.1 with Some b => (b <? a)%N | None => false end
            | None => false end); [|done].
  simpl. by rewrite IH.
Qed.

Lemma filter_keys (q : jsstring → bool) (b : bool) l :
  filter (fun e => q e.1 = b) (map g l) = map g (filter (fun e => q e.1 = b) l).
Proof.
  induction l as [|x l IH]; [done|]. simpl. rewrite !filter_cons, g_key.
  destruct (decide (q x.1 = b)); simpl; by rewrite IH.
Qed.

Lemma entries_keys o : entries (map g o) = map g (entries o).
Proof.
  unfold entries. rewrite !filter_keys, map_app. f_equal.
  generalize (filter (fun e : jsstring * V => isArrayIndex e.1 = true) o).
  intros l. induction l as [|x l IH]; [done|]. unfold sortBy in *. simpl.
  by rewrite IH, insertBy_index_keys.
Qed.

End ValuesMapped.

Section SplitJoin.

Lemma splitComma_ne s : splitComma s ≠ [].
Proof.
  destruct s as [|c s]; [done|]. simpl.
  destruct (decide (c = COMMA)); [done|]. by destruct (splitComma s).
Qed.

Lemma join_splitComma s : join [COMMA] (splitComma s) = s.
Proof.
  induction s as [|c s IH]; [done|]. simpl.
  pose proof (splitComma_ne s) as Hne.
  destruct (decide (c = COMMA)) as [->|Hc].
  - destruct (splitComma s) as [|w ws]; [done|].
    change (join [COMMA] ([] :: w :: ws)) with ([] ++ [COMMA] ++ join [COMMA] (w :: ws)).
    by rewrite IH.
  - destruct (splitComma s) as [|w ws]; [done|].
    rewrite <- IH. by destruct ws.
Qed.

End SplitJoin.

Section Expand.

Lemma mapSet_fresh (m : JSMap) k v :
  k ∉ mapKeys m → mapSet m k v = m ++ [(k, v)].
Proof.
  induction m as [|[k0 v0] m IH]; [done|]. simpl.
  intros Hk. rewrite not_elem_of_cons in Hk. destruct Hk as [Hne Hk].
  rewrite decide_False by done. by rewrite IH.
Qed.

Lemma expand_group r ys : ∀ acc : JSMap,
  NoDup (mapKeys acc ++ ys) →
  foldl (fun m y => mapSet m y r) acc ys = acc ++ map (fun y => (y, r)) ys.
Proof.
  induction ys as [|y ys IH]; intros acc Hnd; [by rewrite app_nil_r|].
  simpl. rewrite mapSet_fresh.
  - rewrite IH.
    + by rewrite <- app_assoc.
    + unfold mapKeys. rewrite map_app, <- app_assoc. exact Hnd.
  - apply NoDup_app in Hnd as (_ & Hd & _). intros Hk. apply (Hd y Hk). by left.
Qed.

Lemma expand_table (table : SerializedTable) : ∀ acc : JSMap,
  NoDup (mapKeys acc ++ flat_map sourcesOf table) →
  foldl (fun m x => foldl (fun m y => mapSet m y x.1) m (splitComma x.2)) acc table
  = acc ++ flat_map (fun x => map (fun y => (y, x.1)) (sourcesOf x)) table.
Proof.
  induction table as [|x table IH]; intros acc Hnd; [by rewrite app_nil_r|].
  simpl in *. rewrite app_assoc in Hnd.
  rewrite expand_group by (by apply NoDup_app in Hnd as (? & _ & _)).
  rewrite IH.
  - by rewrite <- app_assoc.
  - unfold mapKeys in *. rewrite map_app, map_map. simpl. by rewrite map_id.
Qed.

End Expand.

Section Regroup.
Context (P : Platform).

Lemma objGet_last {V} (o : JSObject V) r (l : V) :
  r ∉ map fst o → objGet (o ++ [(r, l)]) r = Some l.
Proof.
  induction o as [|[k0 v0] o IH]; simpl.
  - intros _. by rewrite decide_True.
  - intros Hr. rewrite not_elem_of_cons in Hr. destruct Hr as [Hne Hr].
    rewrite decide_False by done. by apply IH.
Qed.

Lemma objSet_last {V} (o : JSObject V) r (l v : V) :
  r ∉ map fst o → objSet (o ++ [(r, l)]) r v = o ++ [(r, v)].
Proof.
  induction o as [|[k0 v0] o IH]; simpl.
  - intros _. by rewrite decide_True.
  - intros Hr. rewrite not_elem_of_cons in Hr. destruct Hr as [Hne Hr].
    rewrite decide_False by done. by rewrite IH.
Qed.

Lemma objGet_fresh {V} (o : JSObject V) r : r ∉ map fst o → objGet o r = None.
Proof.
  induction o as [|[k0 v0] o IH]; [done|]. simpl.
  intros Hr. rewrite not_elem_of_cons in Hr. destruct Hr as [Hne Hr].
  rewrite decide_False by done. by apply IH.
Qed.

Lemma regroup_more r ys : ∀ (G : JSObject (list jsstring)) l,
  r ∉ map fst G →
  foldl (fun _out e =>
           match _out with Some o => pushUnder o e.2 e.1 | None => None end)
        (Some (G ++ [(r, l)])) (map (fun y => (y, r)) ys)
  = Some (G ++ [(r, l ++ ys)]).
Proof.
  induction ys as [|y ys IH]; intros G l Hr; [by rewrite app_nil_r|].
  simpl. unfold pushUnder at 2. rewrite objGet_last, objSet_last by done.
  rewrite IH by done. by rewrite <- app_assoc.
Qed.

Lemma regroup_group r ys (G : JSObject (list jsstring)) :
  r ∉ map fst G → r ∉ inheritedNames → ys ≠ [] →
  foldl (fun _out e =>
           match _out with Some o => pushUnder o e.2 e.1 | None => None end)
        (Some G) (map (fun y => (y, r)) ys)
  = Some (G ++ [(r, ys)]).
Proof.
  intros Hr Hin Hys. destruct ys as [|y ys]; [done|]. simpl.
  unfold pushUnder at 2. rewrite objGet_fresh by done.
  rewrite bool_decide_eq_false_2, objSet_fresh by done.
  by rewrite regroup_more.
Qed.

Lemma regroup_table (table : SerializedTable) : ∀ G : JSObject (list jsstring),
  NoDup (map fst G ++ map fst table) →
  Forall (fun e => e.1 ∉ inheritedNames) table →
  foldl (fun _out e =>
           match _out with Some o => pushUnder o e.2 e.1 | None => None end)
        (Some G)
        (flat_map (fun x => map (fun y => (y, x.1)) (sourcesOf x)) table)
  = Some (G ++ map (fun x => (x.1, sourcesOf x)) table).
Proof.
  induction table as [|x table IH]; intros G Hnd Hin; [by rewrite app_nil_r|].
  apply Forall_cons in Hin as [Hx Hin].
  simpl. rewrite foldl_app, regroup_group.
  - rewrite IH.
    + by rewrite <- app_assoc.
    + rewrite map_app, <- app_assoc. exact Hnd.
    + done.
  - apply NoDup_app in Hnd as (_ & Hd & _). intros Hk. apply (Hd _ Hk). by left.
  - done.
  - apply splitComma_ne.
Qed.

(** A table as [wellFormedTable] describes it, expanded into the char map
    by the loader and derived again from that map, comes back member for
    member, in the same order. *)
Lemma wellFormed_round_trip (table : SerializedTable) :
  wellFormedTable P table →
  out P (Build.charMap table) = Some table.
Proof.
  intros (Hroots & Hnames & Horder & Hgroups & Hsources).
  assert (entries table = table) as Henum.
  { rewrite <- Horder at 1. rewrite entries_idem. exact Horder. }
  unfold Build.charMap. rewrite (fromEntries_nodup table Hroots), Henum.
  rewrite (expand_table table []) by done. simpl app.
  unfold out, groupByTarget.
  rewrite (regroup_table table []) by done. simpl app. f_equal.
  rewrite (entries_keys (fun x => (x.1, sourcesOf x))) by done.
  rewrite Henum.
  rewrite (sortBy_keys (fun x => (x.1, sourcesOf x))) by done.
  rewrite map_map.
  set (sorted := sortBy _ table).
  transitivity (entries (fromEntries sorted)); [|exact Horder].
  do 2 f_equal.
  assert (Forall (fun e => dedupe (sortBy (sortAlphabetical P) (sourcesOf e))
                           = sourcesOf e) sorted) as Hs.
  { apply Forall_forall. intros e He. apply sortBy_elem in He.
    by eapply Forall_forall in Hgroups. }
  clear -Hs. induction sorted as [|[r v] sorted IH]; [done|].
  apply Forall_cons in Hs as [Hx Hs]. cbn [map]. rewrite IH by done.
  cbn [fst snd]. rewrite Hx. unfold sourcesOf. cbn [snd].
  by rewrite join_splitComma.
Qed.

End Regroup.

Lemma smallTable_wellFormed : wellFormedTable Basic.platform smallTable.
Proof.
  split; [|split; [|split; [|split]]].
  - apply (bool_decide_unpack _). by vm_compute.
  - apply (bool_decide_unpack _). by vm_compute.
  - by vm_compute.
  - apply (bool_decide_unpack _). by vm_compute.
  - apply (bool_decide_unpack _). by vm_compute.
Qed.

(** ** Where [slugify] does return *)

(** [slugify] returns a string (it throws neither on the pattern nor in
    [replaceAll]) whenever the strip pattern, if one is given, has the [g]
    flag, and it is given no char map, or a Map object whose pattern is
    cached, or one whose keys have no syntax character. *)
Lemma slugify_returns (P : Platform) input options st :
  (∀ re, strip options = Some re → global re = true) →
  (∀ l, charMap options = Some l →
        transliterationReCache st !! l = None →
        Forall literalKey (mapKeys (theMap st l))) →
  ∃ r st', slugify P input options st = (Returns r, st').
Proof.
  intros Hglobal Hkeys.
  assert (∀ config, global (stripPattern P options config) = true) as Hg.
  { intros config. unfold stripPattern.
    destruct (strip options) as [re|] eqn:Hs; [by apply Hglobal|].
    by destruct (transliterate config). }
  unfold slugify, finish.
  destruct (charMap options) as [l|]; [|rewrite Hg; by eexists _, _].
  specialize (Hkeys l eq_refl). unfold getTransliterationRe.
  destruct (transliterationReCache st !! l) as [re|];
    [rewrite Hg; by eexists _, _|].
  specialize (Hkeys eq_refl).
  destruct (theMap st l) as [|e m] eqn:Hm; [rewrite Hg; by eexists _, _|].
  unfold transliterationSource.
  rewrite compile_literal; [rewrite Hg; by eexists _, _|].
  apply Forall_forall. intros k Hk. apply sortBy_elem in Hk.
  by eapply Forall_forall in Hkeys.
Qed.

(** ** C4: a key that is not a pattern *)

(** C4, at an input where the code departs from it. With the keys ["a.b"]
    and ["x"] the pattern source is ["(?:a.b|x)"], where the dot matches any
    character: in the word ["axb"] the pattern matches the whole word, which
    is no key and so stays, although the key ["x"] occurs in it; longest
    match first over the keys gives ["akb"]. *)
Theorem convertWord_dot_key :
  ∃ re st',
    getTransliterationRe 1%positive dotStore = (Returns re, st')
    ∧ exec re [] (str "axb") = Some 3
    ∧ convertWord st' (str "axb") (Transliterate 1%positive re) = str "axb"
    ∧ longestMatchFirst (theMap dotStore 1%positive) (str "axb") = str "akb".
Proof.
  eexists _, _. split; [reflexivity|].
  split; [by vm_compute|]. split; by vm_compute.
Qed.

(** ** C10: the pattern of the first call *)

(** C10, at an input where the code departs from it. The Map object has the
    one key ["."] when it is first used, so the cached pattern is
    [(?:.)], which matches any character. After [charMap.set("b", "y")] the
    next call gets the same pattern from the cache; in the word ["b"] it
    matches the key added after the first call, and the live lookup
    replaces it by ["y"]. A pattern that matched the keys of the first call
    only would leave the word as it is. *)
Theorem stale_pattern_matches_added_key :
  ∃ re st1,
    getTransliterationRe 1%positive anyCharStore = (Returns re, st1)
    ∧ let st2 := storeSet st1 1%positive (str "b") (str "y") in
      theMap st2 1%positive = [(str ".", str "x"); (str "b", str "y")]
      ∧ getTransliterationRe 1%positive st2 = (Returns re, st2)
      ∧ exec re [] (str "b") = Some 1
      ∧ convertWord st2 (str "b") (Transliterate 1%positive re) = str "y"
      ∧ slugify Basic.platform (str "b") withMap1 st2 = (Returns (str "y"), st2)
      ∧ replaceAll (longestKeyPattern (theMap anyCharStore 1%positive))
          (fun key => default key (mapGet (theMap st2 1%positive) key)) (str "b")
        = str "b".
Proof.
  eexists _, _. split; [reflexivity|]. cbv zeta.
  split; [by vm_compute|]. split; [reflexivity|].
  split; [by vm_compute|]. split; [by vm_compute|].
  split; by vm_compute.
Qed.

(** ** The cached pattern in later calls *)

Section LaterCalls.
Context (l : loc) (st : Store) (m : JSMap).
Hypothesis Hm : maps st !! l = Some m.
Hypothesis Hne : m ≠ [].
Hypothesis Hc : transliterationReCache st !! l = None.
Hypothesis Hlit : Forall literalKey (mapKeys m).

(** A Map object first used when it is not empty and its keys have no
    syntax character: the pattern compiled then is cached for the object,
    and in every later state that still has it cached, whatever was set or
    deleted in the map meanwhile, [getTransliterationRe] returns it, every
    match of it is a key the map had at the first call, and [convertWord]
    replaces the matches, found longest key of the first call first, by the
    values the map has for them now; a match the map has no value for any
    more is left as it is. *)
Theorem cached_pattern_first_keys :
  ∃ re st1,
    getTransliterationRe l st = (Returns re, st1)
    ∧ maps st1 = maps st
    ∧ transliterationReCache st1 !! l = Some re
    ∧ ∀ st2, transliterationReCache st2 !! l = Some re →
        getTransliterationRe l st2 = (Returns re, st2)
        ∧ (∀ before rest n, exec re before rest = Some n →
             take n rest ∈ mapKeys m)
        ∧ ∀ word,
            convertWord st2 word (Transliterate l re)
            = replaceAll (longestKeyPattern m)
                (fun key => default key (mapGet (theMap st2 l) key)) word.
Proof.
  assert (compile (transliterationSource m)
          = Compiles (PSeq PEmpty (alternation (sortBy shorter (mapKeys m))))) as Hp.
  { apply compile_literal. apply Forall_forall. intros k Hk.
    apply sortBy_elem in Hk. by eapply Forall_forall in Hlit. }
  eexists _, _. split; [exact (getTransliterationRe_fresh l st m _ Hc Hm Hne Hp)|].
  split; [done|]. split; [cbn [transliterationReCache]; by rewrite lookup_insert_eq|].
  intros st2 H2. split; [by apply getTransliterationRe_cached|]. split.
  - intros before rest n. rewrite (exec_sorted_keys m before rest Hne).
    destruct (longestKeyAt m rest) as [k|] eqn:Hk; [|done]. intros [= <-].
    destruct (longestKeyAt_Some m rest k Hk) as (K1 & [b ->] & _).
    by rewrite take_app_length.
  - intros word. unfold convertWord, replaceAll.
    apply replaceFrom_ext. intros. by apply exec_sorted_keys.
Qed.

End LaterCalls.

Lemma cached_pattern_first_keys_witness :
  ∃ re st1,
    getTransliterationRe 1%positive axStore = (Returns re, st1)
    ∧ let st2 := storeSet (storeSet st1 1%positive (str "b") (str "y"))
                   1%positive (str "a") (str "z") in
      theMap st2 1%positive = [(str "a", str "z"); (str "b", str "y")]
      ∧ getTransliterationRe 1%positive st2 = (Returns re, st2)
      ∧ exec re [] (str "b") = None
      ∧ convertWord st2 (str "ab") (Transliterate 1%positive re) = str "zb".
Proof.
  destruct (cached_pattern_first_keys 1%positive axStore [(str "a", str "x")])
    as (re & st1 & H1 & Hmaps & Hcache & H2).
  - reflexivity.
  - discriminate.
  - reflexivity.
  - repeat constructor.
  - exists re, st1. split; [exact H1|]. cbv zeta.
    destruct (H2 (storeSet (storeSet st1 1%positive (str "b") (str "y"))
                    1%positive (str "a") (str "z")) Hcache) as (G1 & G2 & G3).
    assert (theMap (storeSet (storeSet st1 1%positive (str "b") (str "y"))
                      1%positive (str "a") (str "z")) 1%positive
            = [(str "a", str "z"); (str "b", str "y")]) as Emap.
    { unfold storeSet, theMap. cbn [maps]. rewrite Hmaps.
      vm_compute. reflexivity. }
    split; [exact Emap|]. split; [exact G1|]. split.
    + destruct (exec re [] (str "b")) as [n|] eqn:E; [|reflexivity].
      apply G2 in E. exfalso.
      destruct n; vm_compute in E; 
        repeat (apply elem_of_cons in E as [E|E]; [discriminate E|]);
        by apply elem_of_nil in E.
    + rewrite G3, Emap. vm_compute. reflexivity.
Defined.

(** ** The flags of the cached patterns *)

Section CacheGlobal.

Lemma getTransliterationRe_global l st :
  cacheGlobal st →
  cacheGlobal (getTransliterationRe l st).2
  ∧ ∀ re, (getTransliterationRe l st).1 = Returns re → global re = true.
Proof.
  intros Hst. unfold getTransliterationRe. split.
  - destruct (transliterationReCache st !! l) as [re|] eqn:Hc; [done|].
    destruct (theMap st l) as [|e m]; [done|].
    destruct (compile _) as [p| |]; [|done..].
    intros l' re'. cbn [snd transliterationReCache].
    destruct (decide (l' = l)) as [->|Hl].
    + rewrite lookup_insert_eq. by intros [= <-].
    + rewrite lookup_insert_ne by done. apply Hst.
  - intros re. destruct (transliterationReCache st !! l) as [re'|] eqn:Hc.
    + intros [= <-]. by apply (Hst l).
    + destruct (theMap st l) as [|e m]; [by intros [= <-]|].
      destruct (compile _) as [p| |]; [|done..]. by intros [= <-].
Qed.

(** The cache holds only patterns with the [g] flag: it is empty at the
    start, and from a cache of such patterns [getTransliterationRe] returns
    such a pattern and leaves such a cache, as do [slugify] and
    [charMap.set]. *)
Theorem cached_patterns_global :
  cacheGlobal emptyStore
  ∧ ∀ st, cacheGlobal st →
      (∀ l, cacheGlobal (getTransliterationRe l st).2
            ∧ ∀ re, (getTransliterationRe l st).1 = Returns re → global re = true)
      ∧ (∀ P input options, cacheGlobal (slugify P input options st).2)
      ∧ (∀ l k v, cacheGlobal (storeSet st l k v)).
Proof.
  split.
  { intros l' re' H. simpl in H. by rewrite lookup_empty in H. }
  intros st Hst. split; [|split].
  - intros l. by apply getTransliterationRe_global.
  - intros P input options. unfold slugify.
    destruct (charMap options) as [l|]; [|done].
    pose proof (getTransliterationRe_global l st Hst) as [H _].
    by destruct (getTransliterationRe l st) as [[re| | |] st'].
  - intros l k v. exact Hst.
Qed.

End CacheGlobal.

Lemma cached_patterns_global_witness :
  cacheGlobal (slugify Basic.platform (str "ab") withMap1 abStore).2
  ∧ ∃ re, (getTransliterationRe 1%positive abStore).1 = Returns re
          ∧ global re = true.
Proof.
  destruct cached_patterns_global as [_ H].
  destruct (H abStore) as (H1 & H2 & _).
  - intros l re Hl. discriminate Hl.
  - split; [apply H2|]. destruct (H1 1%positive) as [_ H3].
    eexists. split; [reflexivity|]. apply H3. reflexivity.
Defined.

(** ** Stable sorting with a consistent comparator *)

Section StableSort.
Context {A : Type} (after : A → A → bool).

Hypothesis after_asym : ∀ a b, after a b = true → after b a = false.
Hypothesis notAfter_trans :
  ∀ a b c, notAfter after a b → notAfter after b c → notAfter after a c.

Lemma insertBy_perm x l : insertBy after x l ≡ₚ x :: l.
Proof.
  induction l as [|y l IH]; [done|]. simpl. destruct (after x y); [|done].
  rewrite IH. apply Permutation_swap.
Qed.

Lemma sortBy_perm l : sortBy after l ≡ₚ l.
Proof.
  induction l as [|x l IH]; [done|]. unfold sortBy in *. simpl.
  by rewrite insertBy_perm, IH.
Qed.

Lemma insertBy_sorted x l :
  StronglySorted (notAfter after) l → StronglySorted (notAfter after) (insertBy after x l).
Proof.
  induction 1 as [|z l Hl IH Hz]; simpl.
  - repeat constructor.
  - destruct (after x z) eqn:Hxz.
    + constructor; [done|]. apply Forall_forall. intros y Hy.
      apply insertBy_elem in Hy as [->|Hy].
      * by apply after_asym.
      * by eapply Forall_forall in Hz.
    + constructor; [by constructor|]. apply Forall_cons. split; [done|].
      eapply Forall_impl; [exact Hz|]. intros y Hy.
      by apply (notAfter_trans x z y).
Qed.

Lemma sortBy_sorted l : StronglySorted (notAfter after) (sortBy after l).
Proof.
  induction l as [|x l IH]; [constructor|].
  unfold sortBy in *. simpl. by apply insertBy_sorted.
Qed.

Lemma sortBy_sorted_id l : StronglySorted (notAfter after) l → sortBy after l = l.
Proof.
  induction 1 as [|x l Hl IH Hx]; [done|]. unfold sortBy in *. simpl.
  rewrite IH. destruct l as [|y l]; [done|]. simpl.
  apply Forall_cons in Hx as [Hxy _]. by rewrite Hxy.
Qed.

Lemma sortBy_idem l : sortBy after (sortBy after l) = sortBy after l.
Proof. apply sortBy_sorted_id, sortBy_sorted. Qed.

(** Two sorted arrangements of the same elements, no two of which tie,
    are the same list. *)
Lemma sorted_unique l1 : ∀ l2,
  StronglySorted (notAfter after) l1 → StronglySorted (notAfter after) l2 → l1 ≡ₚ l2 →
  (∀ a b, a ∈ l1 → b ∈ l1 → notAfter after a b → notAfter after b a → a = b) →
  l1 = l2.
Proof.
  induction l1 as [|x l1 IH]; intros l2 H1 H2 Hp Htie.
  - by apply Permutation_nil_l in Hp.
  - destruct l2 as [|y l2]; [by apply Permutation_nil_r in Hp|].
    apply StronglySorted_inv in H1 as [H1 Hx].
    apply StronglySorted_inv in H2 as [H2 Hy].
    assert (x = y) as ->.
    { assert (y ∈ x :: l1) as Hyin by (rewrite Hp; by left).
      assert (x ∈ y :: l2) as Hxin by (rewrite <- Hp; by left).
      apply elem_of_cons in Hyin as [->|Hyin]; [done|].
      apply elem_of_cons in Hxin as [->|Hxin]; [done|].
      apply Htie; [by left|by right| |].
      - by eapply Forall_forall in Hx.
      - by eapply Forall_forall in Hy. }
    f_equal. apply IH; [done|done|by apply Permutation_cons_inv in Hp|].
    intros a b Ha Hb. apply Htie; by right.
Qed.

Lemma sortBy_unique l s :
  StronglySorted (notAfter after) s → l ≡ₚ s →
  (∀ a b, a ∈ s → b ∈ s → notAfter after a b → notAfter after b a → a = b) →
  sortBy after l = s.
Proof.
  intros Hs Hp Htie. symmetry. apply sorted_unique; [done|apply sortBy_sorted| |done].
  by rewrite sortBy_perm.
Qed.

End StableSort.

(** ** What the compiler groups *)

Section Groups.

Lemma objGet_None_notin {V} (o : JSObject V) k : objGet o k = None → k ∉ map fst o.
Proof.
  induction o as [|[k0 v0] o IH]; simpl; [by intros _ ?%elem_of_nil|].
  destruct (decide (k = k0)); [done|]. intros H. apply not_elem_of_cons.
  split; [done|by apply IH].
Qed.

Lemma objSet_keys {V} (o : JSObject V) k l v :
  objGet o k = Some l → map fst (objSet o k v) = map fst o.
Proof.
  induction o as [|[k0 v0] o IH]; [done|]. simpl.
  destruct (decide (k = k0)) as [->|]; [done|]. intros H. simpl. by rewrite IH.
Qed.

Lemma objSet_elem {V} (o : JSObject V) k v g :
  g ∈ objSet o k v → g = (k, v) ∨ g ∈ o.
Proof.
  induction o as [|[k0 v0] o IH]; simpl.
  - intros ?%list_elem_of_singleton. by left.
  - destruct (decide (k = k0)) as [->|].
    + intros [->|H]%elem_of_cons; [by left|right; by right].
    + intros [->|H]%elem_of_cons; [right; by left|].
      destruct (IH H) as [->|?]; [by left|right; by right].
Qed.

Lemma objGet_elem {V} (o : JSObject V) k l : objGet o k = Some l → (k, l) ∈ o.
Proof.
  induction o as [|[k0 v0] o IH]; [done|]. simpl.
  destruct (decide (k = k0)) as [->|]; [intros [= ->]; by left|].
  intros H. right. by apply IH.
Qed.

Lemma objSet_pairs (o : JSObject (list jsstring)) v l k :
  objGet o v = Some l →
  flat_map (fun g => map (fun k => (k, g.1)) g.2) (objSet o v (l ++ [k]))
  ≡ₚ flat_map (fun g => map (fun k => (k, g.1)) g.2) o ++ [(k, v)].
Proof.
  induction o as [|[k0 v0] o IH]; [done|]. simpl.
  destruct (decide (v = k0)) as [->|].
  - intros [= ->]. simpl. rewrite map_app. simpl.
    rewrite <- !app_assoc. apply Permutation_app_head.
    by rewrite Permutation_app_comm.
  - intros H. simpl. rewrite IH by done. by rewrite <- app_assoc.
Qed.

Lemma pushUnder_groups G m0 v k G' :
  groupsOf G m0 → pushUnder G v k = Some G' → groupsOf G' (m0 ++ [(k, v)]).
Proof.
  intros (Hnd & Hall & Hp). unfold pushUnder.
  destruct (objGet G v) as [l|] eqn:Hl.
  - intros [= <-]. split; [|split].
    + by rewrite (objSet_keys G v l).
    + apply Forall_forall. intros g Hg. apply objSet_elem in Hg as [->|Hg].
      * split; [|by destruct l]. apply objGet_elem in Hl.
        by eapply Forall_forall in Hall as [? _]; [|exact Hl].
      * by eapply Forall_forall in Hall.
    + by rewrite objSet_pairs, Hp.
  - destruct (bool_decide_reflect (v ∈ inheritedNames)) as [|Hin]; [done|].
    intros [= <-]. apply objGet_None_notin in Hl.
    rewrite objSet_fresh by done. split; [|split].
    + rewrite map_app. simpl. apply NoDup_app. split; [done|].
      split; [|apply NoDup_singleton].
      intros x Hx ->%list_elem_of_singleton. done.
    + apply Forall_app. split; [done|]. by apply Forall_singleton.
    + rewrite flat_map_app. simpl. by rewrite Hp.
Qed.

Lemma groupByTarget_groups m : ∀ G0 m0 G,
  groupsOf G0 m0 →
  foldl (fun _out e =>
           match _out with Some o => pushUnder o e.2 e.1 | None => None end)
        (Some G0) m = Some G →
  groupsOf G (m0 ++ m).
Proof.
  induction m as [|[k v] m IH]; intros G0 m0 G H0; simpl.
  - intros [= <-]. by rewrite app_nil_r.
  - destruct (pushUnder G0 v k) as [G1|] eqn:H1.
    + intros HG. replace (m0 ++ (k, v) :: m) with ((m0 ++ [(k, v)]) ++ m)
        by (by rewrite <- app_assoc).
      eapply IH; [|exact HG]. by eapply pushUnder_groups.
    + intros HG. exfalso. clear -HG. induction m as [|e m IHm]; [done|].
      by apply IHm.
Qed.

End Groups.

Section Written.

Lemma entries_perm {V} (o : JSObject V) : entries o ≡ₚ o.
Proof.
  unfold entries. rewrite sortBy_perm.
  induction o as [|x o IH]; [done|]. rewrite !filter_cons.
  destruct (decide (isArrayIndex x.1 = true)) as [Ht|Hf].
  - rewrite decide_False by congruence. simpl. by rewrite IH.
  - rewrite decide_True by by destruct (isArrayIndex x.1).
    rewrite <- Permutation_middle. by rewrite IH.
Qed.

Lemma dedupe_acc (l : list jsstring) : ∀ acc,
  NoDup (acc ++ l) →
  foldl (fun acc x => if decide (x ∈ acc) then acc else acc ++ [x]) acc l
  = acc ++ l.
Proof.
  induction l as [|x l IH]; intros acc Hnd; [by rewrite app_nil_r|]. simpl.
  rewrite decide_False.
  - rewrite IH; rewrite <- app_assoc; done.
  - apply NoDup_app in Hnd as (_ & Hd & _). intros Hx. apply (Hd x Hx). by left.
Qed.

Lemma dedupe_nodup l : NoDup l → dedupe l = l.
Proof. intros H. unfold dedupe. by rewrite dedupe_acc. Qed.

Lemma splitComma_key k :
  COMMA ∉ k → splitComma k = [k].
Proof.
  induction k as [|c k IH]; [done|]. intros Hk.
  apply not_elem_of_cons in Hk as [Hc Hk]. simpl.
  rewrite decide_False by done. by rewrite IH.
Qed.

Lemma splitComma_more k rest :
  COMMA ∉ k → splitComma (k ++ COMMA :: rest) = k :: splitComma rest.
Proof.
  induction k as [|c k IH]; intros Hk; simpl.
  - done.
  - apply not_elem_of_cons in Hk as [Hc Hk].
    rewrite decide_False by done. by rewrite IH.
Qed.

Lemma splitComma_join l :
  l ≠ [] → Forall (fun k => COMMA ∉ k) l →
  splitComma (join [COMMA] l) = l.
Proof.
  induction l as [|k l IH]; [done|]. intros _ [Hk Hl]%Forall_cons.
  destruct l as [|k' l'].
  - simpl. by apply splitComma_key.
  - change (join [COMMA] (k :: k' :: l'))
      with (k ++ COMMA :: join [COMMA] (k' :: l')).
    rewrite splitComma_more by done. by rewrite IH.
Qed.

Lemma flat_map_perm_outer {A B} (f : A → list B) l l' :
  l ≡ₚ l' → flat_map f l ≡ₚ flat_map f l'.
Proof.
  induction 1 as [|x l l' _ IH|x y l|l1 l2 l3 _ IH1 _ IH2]; simpl.
  - done.
  - by rewrite IH.
  - rewrite !app_assoc. apply Permutation_app_tail, Permutation_app_comm.
  - by rewrite IH1.
Qed.

Lemma flat_map_perm_inner {A B} (f g : A → list B) l :
  Forall (fun x => f x ≡ₚ g x) l → flat_map f l ≡ₚ flat_map g l.
Proof.
  induction 1 as [|x l Hx _ IH]; [done|]. simpl. by rewrite Hx, IH.
Qed.

Lemma fst_determines {V} (l : list (jsstring * V)) a b :
  NoDup (map fst l) → a ∈ l → b ∈ l → a.1 = b.1 → a = b.
Proof.
  induction l as [|x l IH]; [by intros _ ?%elem_of_nil|]. simpl.
  intros [Hx Hl]%NoDup_cons [->|Ha]%elem_of_cons [->|Hb]%elem_of_cons Hab.
  - done.
  - exfalso. apply Hx. rewrite Hab. by apply list_elem_of_fmap_2.
  - exfalso. apply Hx. rewrite <- Hab. by apply list_elem_of_fmap_2.
  - by apply IH.
Qed.

Lemma sources_of_groups G (m : JSMap) :
  groupsOf G m → flat_map snd G ≡ₚ mapKeys m.
Proof.
  intros (_ & _ & Hp). unfold mapKeys. rewrite <- Hp.
  clear. induction G as [|[r l] G IH]; [done|]. simpl.
  rewrite map_app, <- IH, map_map. simpl. by rewrite map_id.
Qed.

Lemma roots_of_groups G (m : JSMap) r :
  groupsOf G m → r ∈ map fst G → r ∈ map snd m.
Proof.
  intros (_ & Hall & Hp) Hr. rewrite <- Hp.
  clear Hp. induction G as [|[r0 l] G IH]; [by apply elem_of_nil in Hr|].
  apply Forall_cons in Hall as [[_ Hl] Hall]. simpl in *.
  rewrite map_app. apply elem_of_app.
  apply elem_of_cons in Hr as [->|Hr]; [left|right; by apply IH].
  destruct l as [|k l]; [done|]. simpl. by left.
Qed.

End Written.

Section WrittenTable.
Context (P : Platform) (L : CollationLaws P).

Lemma NoDup_flat_map_inner {A B} (f : A → list B) l x :
  NoDup (flat_map f l) → x ∈ l → NoDup (f x).
Proof.
  induction l as [|y l IH]; [by intros _ ?%elem_of_nil|]. simpl.
  intros (H1 & _ & H2)%NoDup_app [->|Hx]%elem_of_cons; [done|by apply IH].
Qed.

Lemma elem_of_flat_map_inner {A B} (f : A → list B) l x y :
  x ∈ l → y ∈ f x → y ∈ flat_map f l.
Proof.
  induction l as [|z l IH]; [by intros ?%elem_of_nil|]. simpl.
  intros [->|Hx]%elem_of_cons Hy; apply elem_of_app; [by left|right; by apply IH].
Qed.

(** The value written for a group, read back as a list. *)
Lemma written_group G (m : JSMap) e0 :
  groupsOf G m → NoDup (mapKeys m) → Forall (fun k => COMMA ∉ k) (mapKeys m) →
  e0 ∈ G →
  sourcesOf (e0.1, join [COMMA] (dedupe (sortBy (sortAlphabetical P) e0.2)))
  = sortBy (sortAlphabetical P) e0.2.
Proof.
  intros HG Hnd Hcomma He0.
  pose proof (sources_of_groups G m HG) as Hsrc.
  destruct HG as (_ & Hall & _).
  eapply Forall_forall in Hall as [_ Hne]; [|exact He0].
  assert (NoDup e0.2) as Hnd0.
  { apply (NoDup_flat_map_inner snd G e0); [by rewrite Hsrc|done]. }
  unfold sourcesOf. cbn [snd].
  rewrite dedupe_nodup by by rewrite sortBy_perm.
  apply splitComma_join.
  - intros E. apply Hne. apply Permutation_nil_r. by rewrite <- E, sortBy_perm.
  - apply Forall_forall. intros k Hk. rewrite sortBy_perm in Hk.
    eapply Forall_forall in Hcomma; [exact Hcomma|].
    rewrite <- Hsrc. by eapply elem_of_flat_map_inner.
Qed.

(** What [out] yields is a table as [wellFormedTable] describes it. *)
Lemma out_wellFormed (m : JSMap) table :
  NoDup (mapKeys m) → Forall (fun k => COMMA ∉ k) (mapKeys m) →
  tellsApart P (map snd m) →
  out P m = Some table →
  wellFormedTable P table.
Proof.
  intros Hnd Hcomma Htie. unfold out.
  destruct (groupByTarget m) as [G|] eqn:HG; [|done]. intros [= <-].
  assert (groupsOf G m) as HGr.
  { apply (groupByTarget_groups m [] [] G); [|exact HG].
    split; [constructor|]. split; [constructor|done]. }
  set (h := fun e : jsstring * list jsstring =>
              (e.1, join [COMMA] (dedupe (sortBy (sortAlphabetical P) e.2)))).
  set (afterK := fun a b : jsstring * list jsstring => sortAlphabetical P a.1 b.1).
  set (S := sortBy afterK (entries G)).
  assert (S ≡ₚ G) as HSG by (unfold S; by rewrite sortBy_perm, entries_perm).
  assert (NoDup (map fst G)) as HndG by apply HGr.
  assert (NoDup (map fst S)) as HndS by by rewrite HSG.
  assert (∀ X : list (jsstring * list jsstring), map fst (map h X) = map fst X) as Hfst.
  { intros X. rewrite map_map. done. }
  rewrite fromEntries_nodup by by rewrite Hfst.
  rewrite (entries_keys h) by done.
  assert (∀ e0, e0 ∈ entries S → e0 ∈ G) as HinG.
  { intros e0 He0. by rewrite entries_perm, HSG in He0. }
  assert (afterK_asym : ∀ a b, afterK a b = true → afterK b a = false).
  { intros a b. apply (alphabetical_asym P L). }
  assert (afterK_trans : ∀ a b c,
            notAfter afterK a b → notAfter afterK b c → notAfter afterK a c).
  { intros a b c. apply (alphabetical_trans P L). }
  split; [|split; [|split; [|split]]].
  - rewrite Hfst. by rewrite entries_perm.
  - apply Forall_fmap, Forall_forall. intros e0 He0. simpl.
    destruct HGr as (_ & Hall & _).
    by eapply Forall_forall in Hall as [? _]; [|apply HinG, He0].
  - change (fun a b : jsstring * jsstring => sortAlphabetical P a.1 b.1)
      with (fun a b : jsstring * jsstring => (sortAlphabetical P) a.1 b.1).
    rewrite (sortBy_keys h) by done.
    change (sortBy _ (entries S)) with (sortBy afterK (entries S)).
    assert (sortBy afterK (entries S) = S) as ->.
    { apply (sortBy_unique afterK afterK_asym afterK_trans).
      - apply (sortBy_sorted afterK afterK_asym afterK_trans).
      - apply entries_perm.
      - intros a b Ha Hb Hab Hba. rewrite HSG in Ha, Hb.
        apply (fst_determines G); [done..|].
        apply Htie; [| |exact Hab|exact Hba].
        + apply (roots_of_groups G m); [done|by apply list_elem_of_fmap_2].
        + apply (roots_of_groups G m); [done|by apply list_elem_of_fmap_2]. }
    rewrite fromEntries_nodup by by rewrite Hfst.
    by rewrite (entries_keys h).
  - apply Forall_fmap, Forall_forall. intros e0 He0.
    change (dedupe (sortBy (sortAlphabetical P) (sourcesOf (h e0)))
            = sourcesOf (h e0)).
    unfold h. rewrite (written_group G m e0) by auto.
    rewrite (sortBy_idem _ (alphabetical_asym P L) (alphabetical_trans P L)).
    apply dedupe_nodup. rewrite sortBy_perm.
    apply (NoDup_flat_map_inner snd G e0); [|by apply HinG].
    by rewrite (sources_of_groups G m HGr).
  - rewrite flat_map_concat_map, map_map, <- flat_map_concat_map.
    rewrite (flat_map_perm_inner _ snd).
    + rewrite (flat_map_perm_outer snd _ G) by by rewrite entries_perm.
      by rewrite (sources_of_groups G m HGr).
    + apply Forall_forall. intros e0 He0.
      change (sourcesOf (h e0) ≡ₚ e0.2).
      unfold h. rewrite (written_group G m e0) by auto. apply sortBy_perm.
Qed.

End WrittenTable.

Section BasicCollation.

Lemma localeCompare_opp a : ∀ b,
  Basic.localeCompare b a = (- Basic.localeCompare a b)%Z.
Proof.
  induction a as [|x a IH]; intros [|y b]; simpl; try done.
  rewrite (N.compare_antisym x y). destruct (N.compare x y); simpl; [apply IH|done..].
Qed.

Lemma localeCompare_range a : ∀ b,
  (-1 ≤ Basic.localeCompare a b ≤ 1)%Z.
Proof.
  induction a as [|x a IH]; intros [|y b]; simpl; try lia.
  destruct (N.compare x y); [apply IH|lia..].
Qed.

Lemma localeCompare_eq a : ∀ b, Basic.localeCompare a b = 0%Z → a = b.
Proof.
  induction a as [|x a IH]; intros [|y b]; simpl; try done.
  destruct (N.compare_spec x y) as [Hxy| |]; [|done..]. intros Hab. subst. f_equal. by apply IH.
Qed.

Lemma localeCompare_trans a : ∀ b c,
  (Basic.localeCompare a b ≤ 0)%Z → (Basic.localeCompare b c ≤ 0)%Z →
  (Basic.localeCompare a c ≤ 0)%Z.
Proof.
  induction a as [|x a IH]; intros [|y b] [|z c]; simpl; try lia.
  destruct (N.compare_spec x y), (N.compare_spec y z), (N.compare_spec x z);
    try lia; subst; try lia.
  apply IH.
Qed.

Lemma basic_notAfter a b :
  notAfter (sortAlphabetical Basic.platform) a b
  ↔ (Basic.localeCompare a b ≤ 0)%Z.
Proof.
  unfold notAfter, sortAlphabetical. simpl. rewrite Z.ltb_ge. done.
Qed.

Lemma basic_collation_laws : CollationLaws Basic.platform.
Proof.
  split.
  - intros a b. unfold sortAlphabetical. simpl. rewrite Z.ltb_lt, Z.ltb_ge.
    rewrite (localeCompare_opp a b). lia.
  - intros a b c. rewrite !basic_notAfter. apply localeCompare_trans.
Qed.

Lemma basic_tellsApart l : tellsApart Basic.platform l.
Proof.
  intros a b _ _. rewrite !basic_notAfter. rewrite (localeCompare_opp a b).
  intros H1 H2. apply localeCompare_eq. lia.
Qed.

End BasicCollation.

(** ** The map the compiler holds *)

Section CompiledMap.
Context (P : Platform).

Lemma mapKeys_mapSet (m : JSMap) k v :
  k ∈ mapKeys m → mapKeys (mapSet m k v) = mapKeys m.
Proof.
  induction m as [|[k0 v0] m IH]; [by intros ?%elem_of_nil|]. simpl.
  destruct (decide (k = k0)) as [->|Hk]; [done|].
  intros [?|Hin]%elem_of_cons; [done|]. simpl. by rewrite IH.
Qed.

Lemma mapSet_nodup (m : JSMap) k v :
  NoDup (mapKeys m) → NoDup (mapKeys (mapSet m k v)).
Proof.
  intros Hnd. destruct (decide (k ∈ mapKeys m)) as [Hin|Hout].
  - by rewrite mapKeys_mapSet.
  - rewrite mapSet_fresh by done. unfold mapKeys. rewrite map_app. simpl.
    apply NoDup_app. split; [done|]. split; [|apply NoDup_singleton].
    intros x Hx ->%list_elem_of_singleton. done.
Qed.

Lemma mapSet_elem (m : JSMap) k v e :
  NoDup (mapKeys m) → e ∈ mapSet m k v → e = (k, v) ∨ (e ∈ m ∧ e.1 ≠ k).
Proof.
  induction m as [|[k0 v0] m IH]; simpl.
  - intros _ ?%list_elem_of_singleton. by left.
  - intros [Hk0 Hnd]%NoDup_cons. destruct (decide (k = k0)) as [->|Hk].
    + intros [->|He]%elem_of_cons; [by left|]. right. split; [by right|].
      intros E. apply Hk0. rewrite <- E. by apply list_elem_of_fmap_2.
    + intros [->|He]%elem_of_cons.
      * right. split; [by left|]. simpl. congruence.
      * destruct (IH Hnd He) as [->|[? ?]]; [by left|right]. split; [by right|done].
Qed.

Lemma mapDelete_elem (m : JSMap) k e :
  NoDup (mapKeys m) → e ∈ mapDelete m k → e ∈ m ∧ e.1 ≠ k.
Proof.
  induction m as [|[k0 v0] m IH]; simpl; [by intros _ ?%elem_of_nil|].
  intros [Hk0 Hnd]%NoDup_cons. destruct (decide (k = k0)) as [->|Hk].
  - intros He. split; [by right|].
    intros E. apply Hk0. rewrite <- E. by apply list_elem_of_fmap_2.
  - intros [->|He]%elem_of_cons.
    + split; [by left|]. simpl. congruence.
    + destruct (IH Hnd He) as [? ?]. split; [by right|done].
Qed.

Lemma mapDelete_nodup (m : JSMap) k :
  NoDup (mapKeys m) → NoDup (mapKeys (mapDelete m k)).
Proof.
  induction m as [|[k0 v0] m IH]; simpl; [done|].
  intros [Hk0 Hnd]%NoDup_cons. destruct (decide (k = k0)) as [->|Hk]; [done|].
  simpl. apply NoDup_cons. split; [|by apply IH].
  intros Hin. apply Hk0. apply list_elem_of_fmap in Hin as (e & -> & He).
  apply mapDelete_elem in He as [He _]; [|done]. by apply list_elem_of_fmap_2.
Qed.

Lemma addRule_nodup (m : JSMap) l r :
  NoDup (mapKeys m) → NoDup (mapKeys (addRule P m l r)).
Proof.
  intros H. unfold addRule. destruct (normalize P l); [done|].
  destruct (mapGet _ _); by repeat apply mapSet_nodup.
Qed.

Lemma buildMap_nodup dirEntries : NoDup (mapKeys (buildMap P dirEntries).1).
Proof.
  unfold buildMap.
  assert (∀ A (f : JSMap * list jsstring → A → JSMap * list jsstring) l acc,
            (∀ acc x, NoDup (mapKeys acc.1) → NoDup (mapKeys (f acc x).1)) →
            NoDup (mapKeys acc.1) → NoDup (mapKeys (foldl f acc l).1)) as Hfold.
  { intros A f l. induction l as [|x l IH]; intros acc Hf Hacc; [done|].
    simpl. apply IH; [done|by apply Hf]. }
  apply Hfold; [|constructor].
  intros acc re Hacc. unfold addStep. apply Hfold; [|done].
  intros acc' f Hacc'. unfold addFile. simpl.
  generalize (lines f). intros ls. revert Hacc'. generalize (acc'.1).
  induction ls as [|ln ls IH]; intros mp Hmp; [done|]. simpl. apply IH.
  unfold addLine. generalize (lhs ln). intros lh. revert mp Hmp.
  induction lh as [|x lh IHl]; intros mp Hmp; [done|]. simpl. apply IHl.
  by apply addRule_nodup.
Qed.

Lemma postProcessEntry_kept acc e es :
  NoDup (mapKeys acc) → e.1 ∉ map fst es →
  Forall (fun x => x.1 ∈ map fst (e :: es) ∨ keptEntry x) acc →
  NoDup (mapKeys (postProcessEntry P acc e))
  ∧ Forall (fun x => x.1 ∈ map fst es ∨ keptEntry x) (postProcessEntry P acc e).
Proof.
  intros Hnd He Hall.
  assert (Hdel : NoDup (mapKeys (mapDelete acc e.1))
                 ∧ Forall (fun x => x.1 ∈ map fst es ∨ keptEntry x)
                          (mapDelete acc e.1)).
  { split; [by apply mapDelete_nodup|]. apply Forall_forall. intros x Hx.
    apply (mapDelete_elem _ _ _ Hnd) in Hx as [Hx Hne].
    eapply Forall_forall in Hall; [|exact Hx]. simpl in Hall.
    destruct Hall as [[?|?]%elem_of_cons|?]; [done|by left|by right]. }
  unfold postProcessEntry.
  destruct (negb (NON_ASCII_ALPHANUM e.1) && negb (NON_ASCII_ALPHANUM e.2)); [done|].
  destruct (bool_decide (e.1 = [])); [done|]. simpl.
  destruct (hasReserved e.1) eqn:Hres; [done|].
  destruct (bool_decide _); [done|].
  destruct (NON_ASCII_ALPHANUM _) eqn:Hval; [done|].
  split; [by apply mapSet_nodup|]. apply Forall_forall. intros x Hx.
  apply (mapSet_elem _ _ _ _ Hnd) in Hx as [->|[Hx Hne]].
  - right. by split.
  - eapply Forall_forall in Hall; [|exact Hx]. simpl in Hall.
    destruct Hall as [[?|?]%elem_of_cons|?]; [done|by left|by right].
Qed.

Lemma postProcess_kept (m : JSMap) :
  NoDup (mapKeys m) →
  NoDup (mapKeys (postProcess P m)) ∧ Forall keptEntry (postProcess P m).
Proof.
  intros Hnd. unfold postProcess.
  assert (∀ es acc, NoDup (map fst es) → NoDup (mapKeys acc) →
            Forall (fun x => x.1 ∈ map fst es ∨ keptEntry x) acc →
            NoDup (mapKeys (foldl (postProcessEntry P) acc es))
            ∧ Forall keptEntry (foldl (postProcessEntry P) acc es)) as Hfold.
  { induction es as [|e es IH]; intros acc Hes Hacc Hall; simpl.
    - split; [done|]. eapply Forall_impl; [exact Hall|].
      intros x [?%elem_of_nil|?]; done.
    - apply NoDup_cons in Hes as [He Hes].
      destruct (postProcessEntry_kept acc e es Hacc He Hall) as [H1 H2].
      by apply IH. }
  apply Hfold; [done..|]. apply Forall_forall. intros x Hx. left.
  by apply list_elem_of_fmap_2.
Qed.

Lemma hasReserved_comma k : hasReserved k = false → COMMA ∉ k.
Proof.
  unfold hasReserved. intros H Hin.
  assert (existsb (fun c => bool_decide (c ∈ str "$()[]-+*?{},")) k = true) as E.
  { apply existsb_exists. exists COMMA. split; [by apply list_elem_of_In|done]. }
  congruence.
Qed.

End CompiledMap.

(** ** C5: the table round trip *)

Section RoundTrip.
Context (P : Platform) (L : CollationLaws P).

(** C5. A serialized table (distinct roots in the order of the artifact,
    under each root its sources sorted and distinct, no source twice)
    expanded into the char map by the loader and derived again from that
    map by [out] comes back member for member, in the same order. Every
    table the compiler writes is such a table, and so comes back unchanged;
    [localeCompare] is taken to be a consistent comparator that tells the
    roots apart. *)
Theorem table_round_trip :
  (∀ table, wellFormedTable P table → out P (Build.charMap table) = Some table)
  ∧ (∀ dirEntries table,
       tellsApart P (map snd (postProcess P (buildMap P dirEntries).1)) →
       build P dirEntries = Some table →
       wellFormedTable P table ∧ out P (Build.charMap table) = Some table).
Proof.
  split; [apply wellFormed_round_trip|].
  intros dirEntries table Htie Hb. unfold build in Hb.
  destruct (postProcess_kept P (buildMap P dirEntries).1 (buildMap_nodup P dirEntries))
    as [Hnd Hkept].
  assert (wellFormedTable P table) as Hwf.
  { apply (out_wellFormed P L _ table Hnd); [|done..].
    unfold mapKeys. apply Forall_fmap. eapply Forall_impl; [exact Hkept|].
    intros e [He _]. by apply hasReserved_comma. }
  split; [done|by apply wellFormed_round_trip].
Qed.

End RoundTrip.

Lemma smallTable_round_trip :
  Build.charMap smallTable
  = [ ([50%N; 769%N], str "2"); ([49%N; 48%N; 769%N], str "10");
      ([101%N; 769%N], str "e"); ([101%N; 769%N; 769%N], str "e") ]
  ∧ out Basic.platform (Build.charMap smallTable) = Some smallTable.
Proof.
  split; [by vm_compute|].
  exact (wellFormed_round_trip Basic.platform smallTable smallTable_wellFormed).
Qed.

Lemma table_round_trip_witness :
  build Basic.platform foldingFiles = Some foldingTable
  ∧ Build.charMap foldingTable
    = [ ([50%N; 769%N], str "2"); ([49%N; 48%N; 769%N], str "10");
        ([101%N; 769%N], str "e"); ([101%N; 769%N; 769%N], str "e") ]
  ∧ out Basic.platform (Build.charMap foldingTable) = Some foldingTable.
Proof.
  destruct (table_round_trip Basic.platform basic_collation_laws) as [_ H].
  destruct (H foldingFiles foldingTable) as [_ Hrt].
  - apply basic_tellsApart.
  - vm_compute. reflexivity.
  - split; [vm_compute; reflexivity|]. split; [vm_compute; reflexivity|exact Hrt].
Defined.

(** * Further properties of [slugify.ts] *)

(** ** Calling again *)

Section CallAgain.
Context (P : Platform).

Lemma getTransliterationRe_again l st o st' :
  getTransliterationRe l st = (o, st') →
  maps st' = maps st ∧ getTransliterationRe l st' = (o, st').
Proof.
  unfold getTransliterationRe.
  destruct (transliterationReCache st !! l) as [re|] eqn:Hc.
  { intros [= <- <-]. by rewrite Hc. }
  destruct (theMap st l) as [|e m] eqn:Hm.
  { intros [= <- <-]. by rewrite Hc, Hm. }
  destruct (compile (transliterationSource (e :: m))) as [p| |] eqn:Hp;
    intros [= <- <-].
  - split; [done|]. cbn [transliterationReCache]. by rewrite lookup_insert_eq.
  - by rewrite Hc, Hm, Hp.
  - by rewrite Hc, Hm, Hp.
Qed.

(** However a call of [slugify] ends, it leaves every Map object as it was,
    and the same call made again ends the same way and changes nothing
    more: what the first call cached is what the second one uses. *)
Theorem slugify_again input options st o st' :
  slugify P input options st = (o, st') →
  maps st' = maps st
  ∧ slugify P input options st' = (o, st').
Proof.
  unfold slugify. destruct (charMap options) as [l|].
  - destruct (getTransliterationRe l st) as [o1 st1] eqn:Hg.
    destruct (getTransliterationRe_again l st o1 st1 Hg) as [Hm Hg'].
    destruct o1; intros [= <- <-]; rewrite Hg'; done.
  - by intros [= <- <-].
Qed.

End CallAgain.

Lemma slugify_again_witness :
  slugify Basic.platform (str "a b") withMap1 axStore
  = (Returns (str "x-b"),
     (slugify Basic.platform (str "a b") withMap1 axStore).2)
  ∧ slugify Basic.platform (str "a b") withMap1
      (slugify Basic.platform (str "a b") withMap1 axStore).2
    = (Returns (str "x-b"),
       (slugify Basic.platform (str "a b") withMap1 axStore).2).
Proof.
  assert (slugify Basic.platform (str "a b") withMap1 axStore
          = (Returns (str "x-b"),
             (slugify Basic.platform (str "a b") withMap1 axStore).2)) as E
    by (vm_compute; reflexivity).
  split; [exact E|].
  exact (proj2 (slugify_again Basic.platform _ _ _ _ _ E)).
Defined.

(** ** Empty maps and literal keys *)

Section Unmatched.

Lemma replaceFrom_unmatched re f : ∀ rest before,
  (∀ before' r, r `suffix_of` rest → exec re before' r = None) →
  replaceFrom re f before rest 0 = rest.
Proof.
  induction rest as [|c rest IH]; intros before Hnone.
  - cbn [replaceFrom]. by rewrite Hnone.
  - cbn [replaceFrom]. rewrite Hnone by done. f_equal. apply IH.
    intros before' r Hr. apply Hnone. by apply suffix_cons_r.
Qed.

Lemma replaceFrom_empty_matches re f : ∀ rest before,
  (∀ before' r, r `suffix_of` rest → exec re before' r = Some 0) →
  replaceFrom re f before rest 0 = f [] ++ flat_map (fun c => c :: f []) rest.
Proof.
  induction rest as [|c rest IH]; intros before Hz.
  - cbn [replaceFrom]. rewrite Hz by done. simpl. by rewrite app_nil_r.
  - cbn [replaceFrom]. rewrite Hz by done. simpl. do 2 f_equal. apply IH.
    intros before' r Hr. apply Hz. by apply suffix_cons_r.
Qed.

Lemma replaceAll_matchNothing f s : replaceAll matchNothing f s = s.
Proof. unfold replaceAll. by apply replaceFrom_unmatched. Qed.

End Unmatched.

Section EmptyMap.
Context (P : Platform).

(** [slugify] with [charMap: new Map()]. An empty Map object that has no
    cached pattern gets none: the store is left as it is, so keys set later
    are compiled by the next call. No word is changed; the words are joined
    with hyphens and [NON_ASCII] is the default strip pattern. (With a strip
    pattern that lacks the [g] flag the call ends in the [TypeError] of
    [replaceAll].) *)
Theorem slugify_empty_map l st input options :
  charMap options = Some l →
  maps st !! l = Some [] →
  transliterationReCache st !! l = None →
  slugify P input options st
  = (if global (default NON_ASCII (strip options))
     then Returns
       (orElse
          (replaceAll EDGE_HYPHEN (fun _ => [])
             (replaceAll HYPHENS (fun _ => [HYPHEN])
                (nfc P
                   (replaceAll (default NON_ASCII (strip options)) (fun _ => [])
                      (join [HYPHEN]
                         (collectWords
                            (segment P (toLowerCase P (nfd P (trim P input))))))))))
          [HYPHEN])
     else TypeError,
     st).
Proof.
  intros Ho Hm Hc. unfold slugify, getTransliterationRe, theMap.
  rewrite Ho, Hc, Hm. cbn [default]. f_equal.
  unfold finish, slugifyWith, stages, stripPattern.
  cbn [transliterate convertWord].
  assert (map (fun word =>
                 replaceAll matchNothing
                   (fun m => default m (mapGet (theMap st l) m)) word)
              (collectWords (segment P (toLowerCase P (nfd P (trim P input)))))
          = collectWords (segment P (toLowerCase P (nfd P (trim P input)))))
    as ->.
  { rewrite <- (map_id (collectWords _)) at 2. apply map_ext.
    intros w. apply replaceAll_matchNothing. }
  by destruct (strip options).
Qed.

End EmptyMap.

Lemma slugify_empty_map_witness :
  slugify Basic.platform (str "Clich" ++ [233%N] ++ str " noir") withMap1 emptyMapStore
  = (Returns (str "cliche-noir"), emptyMapStore).
Proof.
  rewrite (slugify_empty_map Basic.platform 1%positive emptyMapStore _ withMap1)
    by reflexivity.
  vm_compute. reflexivity.
Defined.

Section LiteralKeys.
Context (l : loc) (st : Store) (m : JSMap).
Hypothesis Hm : maps st !! l = Some m.
Hypothesis Hne : m ≠ [].
Hypothesis Hc : transliterationReCache st !! l = None.
Hypothesis Hlit : Forall literalKey (mapKeys m).

Lemma literal_pattern :
  ∃ re st',
    getTransliterationRe l st = (Returns re, st')
    ∧ maps st' = maps st
    ∧ ∀ before rest, exec re before rest = length <$> longestKeyAt m rest.
Proof.
  assert (compile (transliterationSource m)
          = Compiles (PSeq PEmpty (alternation (sortBy shorter (mapKeys m))))) as Hp.
  { apply compile_literal. apply Forall_forall. intros k Hk.
    apply sortBy_elem in Hk. by eapply Forall_forall in Hlit. }
  eexists _, _. split; [exact (getTransliterationRe_fresh l st m _ Hc Hm Hne Hp)|].
  split; [done|]. intros. by apply exec_sorted_keys.
Qed.

Lemma key_at_suffix word r k :
  r `suffix_of` word → longestKeyAt m r = Some k →
  k ∈ mapKeys m ∧ occursIn k word.
Proof.
  intros [a ->] Hk. destruct (longestKeyAt_Some m r k Hk) as (K1 & [b ->] & _).
  split; [done|]. by exists a, b.
Qed.

(** A word in which no key of the map occurs is left as it is. *)
Theorem convertWord_no_key word :
  (∀ k, k ∈ mapKeys m → ¬ occursIn k word) →
  ∃ re st',
    getTransliterationRe l st = (Returns re, st')
    ∧ convertWord st' word (Transliterate l re) = word.
Proof.
  intros Hno. destruct literal_pattern as (re & st' & Hg & _ & He).
  exists re, st'. split; [done|]. unfold convertWord, replaceAll.
  apply replaceFrom_unmatched. intros before r Hr. rewrite He.
  destruct (longestKeyAt m r) as [k|] eqn:Hk; [|done].
  destruct (key_at_suffix word r k Hr Hk) as [K1 K2]. by destruct (Hno k).
Qed.

(** The empty string as a key. Its pattern matches at every position, also
    at the end of the word: where no other key matches, the value of the
    empty key is inserted, before every code point and after the last. *)
Theorem convertWord_empty_key word v :
  mapGet m [] = Some v →
  (∀ k, k ∈ mapKeys m → k ≠ [] → ¬ occursIn k word) →
  ∃ re st',
    getTransliterationRe l st = (Returns re, st')
    ∧ convertWord st' word (Transliterate l re)
      = v ++ flat_map (fun c => c :: v) word.
Proof.
  intros Hv Hno. destruct literal_pattern as (re & st' & Hg & Hmaps & He).
  exists re, st'. split; [done|]. unfold convertWord, replaceAll.
  rewrite replaceFrom_empty_matches.
  - unfold theMap. rewrite Hmaps, Hm. simpl. by rewrite Hv.
  - intros before r Hr. rewrite He.
    destruct (longestKeyAt m r) as [k|] eqn:Hk.
    + destruct (key_at_suffix word r k Hr Hk) as [K1 K2].
      destruct (decide (k = [])) as [->|Hk0]; [done|]. by destruct (Hno k).
    + exfalso. apply (longestKeyAt_None m r [] Hk); [|apply prefix_nil].
      unfold mapKeys. clear -Hv. induction m as [|[k' v'] m' IH]; [done|].
      simpl in *. destruct (decide ([] = k')) as [<-|]; [by left|].
      right. by apply IH.
Qed.

(** A word that is a key of the map becomes the value of that key (the
    empty string being no key). *)
Theorem convertWord_key y x :
  mapGet m y = Some x → [] ∉ mapKeys m →
  ∃ re st',
    getTransliterationRe l st = (Returns re, st')
    ∧ convertWord st' y (Transliterate l re) = x.
Proof.
  intros Hy H0. destruct literal_pattern as (re & st' & Hg & Hmaps & He).
  exists re, st'. split; [done|]. unfold convertWord, replaceAll.
  assert (y ∈ mapKeys m) as Hin.
  { unfold mapKeys. clear -Hy. induction m as [|[k' v'] m' IH]; [done|].
    simpl in *. destruct (decide (y = k')) as [<-|]; [by left|].
    right. by apply IH. }
  assert (theMap st' l = m) as Hmap by (unfold theMap; by rewrite Hmaps, Hm).
  assert (exec re [] [] = None) as Hend'.
  { rewrite He. destruct (longestKeyAt m []) as [k|] eqn:Hk; [|done].
    destruct (longestKeyAt_Some m [] k Hk) as (K1 & K2 & _).
    apply prefix_nil_inv in K2 as ->. done. }
  assert (∀ before, exec re before [] = None) as Hend.
  { intros before. rewrite He. rewrite He in Hend'. done. }
  destruct y as [|c y]; [done|].
  cbn [replaceFrom]. rewrite He.
  destruct (longestKeyAt m (c :: y)) as [k|] eqn:Hk.
  - destruct (longestKeyAt_Some m (c :: y) k Hk) as (K1 & K2 & K3).
    assert (k = c :: y) as ->.
    { apply (prefix_length_eq _ _ K2). by apply K3. }
    change (length <$> Some (c :: y)) with (Some (S (length y))). cbv iota beta.
    change (take (S (length y)) (c :: y)) with (c :: take (length y) y).
    rewrite firstn_all. rewrite Hmap, Hy. cbn [default].
    rewrite replaceFrom_skip by done. rewrite drop_all. cbn [replaceFrom].
    rewrite Hend. by rewrite app_nil_r.
  - by destruct (longestKeyAt_None m (c :: y) (c :: y) Hk Hin).
Qed.

End LiteralKeys.

Lemma convertWord_no_key_witness :
  ∃ re st',
    getTransliterationRe 1%positive abStore = (Returns re, st')
    ∧ convertWord st' (str "xyz") (Transliterate 1%positive re) = str "xyz".
Proof.
  apply (convertWord_no_key 1%positive abStore
           [(str "a", str "x"); (str "ab", str "y")]).
  - reflexivity.
  - discriminate.
  - reflexivity.
  - repeat constructor.
  - intros k Hk (a & b & E).
    assert (97%N ∈ str "xyz") as H97.
    { rewrite E. apply elem_of_app. right. apply elem_of_app. left.
      apply elem_of_cons in Hk as [->|Hk]; [by left|].
      apply list_elem_of_singleton in Hk as ->. by left. }
    refine (bool_decide_eq_false_1 (97%N ∈ str "xyz") _ H97).
    vm_compute. reflexivity.
Defined.

Lemma convertWord_empty_key_witness :
  ∃ re st',
    getTransliterationRe 1%positive
      {| maps := {[ 1%positive := [([], str "x")] ]}; transliterationReCache := ∅ |}
    = (Returns re, st')
    ∧ convertWord st' (str "ab") (Transliterate 1%positive re) = str "xaxbx".
Proof.
  change (str "xaxbx") with (str "x" ++ flat_map (fun c => c :: str "x") (str "ab")).
  apply (convertWord_empty_key 1%positive
           {| maps := {[ 1%positive := [([], str "x")] ]};
              transliterationReCache := ∅ |}
           [([], str "x")]).
  - reflexivity.
  - discriminate.
  - reflexivity.
  - repeat constructor.
  - reflexivity.
  - intros k Hk Hne. apply list_elem_of_singleton in Hk. done.
Defined.

Lemma convertWord_key_witness :
  ∃ re st',
    getTransliterationRe 1%positive abStore = (Returns re, st')
    ∧ convertWord st' (str "ab") (Transliterate 1%positive re) = str "y".
Proof.
  apply (convertWord_key 1%positive abStore
           [(str "a", str "x"); (str "ab", str "y")]).
  - reflexivity.
  - discriminate.
  - reflexivity.
  - repeat constructor.
  - reflexivity.
  - apply (bool_decide_eq_false_1 ([] ∈ mapKeys [(str "a", str "x"); (str "ab", str "y")])).
    vm_compute. reflexivity.
Defined.

Lemma slugify_returns_witness :
  ∃ r st', slugify Basic.platform (str "a b") withMap1 abStore = (Returns r, st').
Proof.
  apply slugify_returns.
  - intros re Hre. discriminate Hre.
  - intros l [= <-] _.
    change (theMap abStore 1%positive)
      with [(str "a", str "x"); (str "ab", str "y")].
    repeat constructor.
Defined.

Section IdempotentAscii.
Context (P : Platform) (HT : TextLaws P) (HS : SlugLaws P).

Lemma filter_asciiWord_slug r :
  Forall (fun c => slugChar c = true) r →
  filter (fun c => asciiWord c = true) r = r.
Proof.
  induction r as [|c r IH]; [done|]. intros Hr.
  apply Forall_cons in Hr as [Hc Hr].
  rewrite filter_cons_True by by apply slugChar_asciiWord. by rewrite IH.
Qed.

Lemma stages_slug_ascii st r :
  Forall (fun c => slugChar c = true) r →
  stages P st r NON_ASCII NoTransliterate
  = replaceAll EDGE_HYPHEN (fun _ => []) (replaceAll HYPHENS (fun _ => [HYPHEN]) r).
Proof.
  intros Hr. unfold stages.
  rewrite (trim_slug P HS r Hr), (nfd_slug P HS r Hr), (lower_slug P HS r Hr).
  rewrite (collectWords_fst _ (segment_slug P HS r Hr)).
  cbn [transliterate convertWord]. rewrite map_id, join_nil_concat.
  rewrite (segment_concat P HT), delete_NON_ASCII, (filter_asciiWord_slug r Hr).
  rewrite (nfc_ascii P HT); [done|].
  eapply Forall_impl; [exact Hr|]. apply slugChar_asciiWord.
Qed.

(** With [strip: NON_ASCII] and no char map, [slugify] is idempotent on
    every input: the slug of a slug is that slug. *)
Theorem slugify_idempotent_non_ascii s options st r st' :
  charMap options = None → strip options = Some NON_ASCII →
  slugify P s options st = (Returns r, st') →
  slugify P r options st' = (Returns r, st').
Proof.
  intros Ho Hs. unfold slugify, finish, stripPattern. rewrite Ho, Hs.
  change (global NON_ASCII) with true. cbv iota.
  intros [= <- <-]. f_equal. f_equal.
  pose proof (slugifyWith_hyphen_structure P st s options NoTransliterate)
    as [Hnd Hedges].
  assert (stripPattern P options NoTransliterate = NON_ASCII) as Hp
    by (unfold stripPattern; by rewrite Hs).
  pose proof (slugifyWith_charset P HT st s options NoTransliterate Hp) as [Hne Hr];
    [done|].
  set (r := slugifyWith P st s options NoTransliterate) in *.
  unfold slugifyWith at 1. rewrite Hp, (stages_slug_ascii st r Hr).
  rewrite collapse_squeeze, edge_drop.
  rewrite squeeze_id by by apply noDouble_spec.
  destruct Hedges as [->|[Hh Hl]]; [done|].
  rewrite dropLeading_id, dropTrailing_id by done.
  by destruct r.
Qed.

End IdempotentAscii.

Lemma slugify_idempotent_non_ascii_witness :
  slugify Basic.platform (str "_" ++ [769%N] ++ str "Clich" ++ [233%N])
    {| charMap := None; strip := Some NON_ASCII |} emptyStore
  = (Returns (str "cliche"), emptyStore)
  ∧ slugify Basic.platform (str "cliche")
      {| charMap := None; strip := Some NON_ASCII |} emptyStore
    = (Returns (str "cliche"), emptyStore).
Proof.
  assert (slugify Basic.platform (str "_" ++ [769%N] ++ str "Clich" ++ [233%N])
            {| charMap := None; strip := Some NON_ASCII |} emptyStore
          = (Returns (str "cliche"), emptyStore)) as E by (vm_compute; reflexivity).
  split; [exact E|].
  exact (slugify_idempotent_non_ascii Basic.platform basic_text_laws basic_slug_laws
           _ {| charMap := None; strip := Some NON_ASCII |} _ _ _ eq_refl eq_refl E).
Defined.

(** ** ASCII input *)

Section AsciiInput.
Context (P : Platform) (HT : TextLaws P) (HA : AsciiLaws P) (HS : SlugLaws P).

Lemma filter_agree {A} (p q : A → Prop) `{∀ x, Decision (p x)} `{∀ x, Decision (q x)}
    (l : list A) :
  Forall (fun x => p x ↔ q x) l → filter p l = filter q l.
Proof.
  induction 1 as [|x l Hx Hl IH]; [done|]. rewrite !filter_cons, IH.
  destruct (decide (p x)), (decide (q x)); tauto.
Qed.

(** On ASCII input the default strip pattern and [NON_ASCII] give the same
    slug. *)
Theorem slugify_ascii_default input st :
  Forall (fun c => isAscii c = true) input →
  slugify P input noOptions st
  = slugify P input {| charMap := None; strip := Some NON_ASCII |} st.
Proof.
  intros Hin. unfold slugify, finish. cbn [charMap noOptions].
  change (global (stripPattern P noOptions NoTransliterate)) with true.
  change (global (stripPattern P {| charMap := None; strip := Some NON_ASCII |}
                    NoTransliterate)) with true.
  cbv iota. do 2 f_equal.
  unfold slugifyWith, stages, stripPattern. cbn [strip noOptions transliterate].
  rewrite delete_NON_WORD, delete_NON_ASCII. do 4 f_equal.
  cbn [convertWord]. rewrite map_id.
  set (text := toLowerCase P (nfd P (trim P input))).
  assert (Forall (fun c => isAscii c = true ∧ isUpper c = false) text) as Htext.
  { apply Forall_and. split; [|apply (lower_no_upper P HT)].
    apply (lower_ascii P HA). rewrite (nfd_ascii P HA); by apply (trim_ascii P HA). }
  apply filter_agree. apply Forall_forall. intros c Hc.
  assert (isAscii c = true ∧ isUpper c = false) as [Ha Hu].
  { revert c Hc. apply Forall_forall. apply join_Forall; [done|].
    apply collectWords_Forall with (Q := fun c => isAscii c = true ∧ isUpper c = false);
      [done|]. by rewrite (segment_concat P HT). }
  split.
  - by apply (category_ascii P HA).
  - intros Hw. apply (category_slug P HS). by apply slugChar_ascii.
Qed.

End AsciiInput.

Lemma slugify_ascii_default_witness :
  slugify Basic.platform ALL_ASCII noOptions emptyStore
  = slugify Basic.platform ALL_ASCII
      {| charMap := None; strip := Some NON_ASCII |} emptyStore.
Proof.
  apply (slugify_ascii_default Basic.platform basic_text_laws basic_ascii_laws
           basic_slug_laws).
  apply Forall_forall. intros c Hc. unfold ALL_ASCII in Hc.
  apply list_elem_of_fmap in Hc as (n & -> & Hn).
  apply elem_of_seq in Hn. unfold isAscii. apply N.ltb_lt. lia.
Defined.

(** ** The strip patterns *)

Section StripPatterns.
Context (P : Platform).

Lemma withoutAsciiDiacritics_marks s : ∀ k,
  run (isM P) s = S k →
  withoutAsciiDiacritics P true s = withoutAsciiDiacritics P true (drop (S k) s).
Proof.
  induction s as [|c s IH]; intros k; [done|]. cbn [run].
  destruct (isM P c) eqn:Hc; [|done]. intros [= Hk].
  cbn [withoutAsciiDiacritics andb]. rewrite Hc. cbn [drop].
  destruct k as [|k]; [by rewrite drop_0|]. by apply IH.
Qed.

Lemma withoutAsciiDiacritics_flag s b b' :
  run (isM P) s = 0 →
  withoutAsciiDiacritics P b s = withoutAsciiDiacritics P b' s.
Proof.
  destruct s as [|c s]; [done|]. cbn [run withoutAsciiDiacritics].
  destruct (isM P c); [done|]. intros _. by rewrite !andb_false_r.
Qed.

Lemma run_drop cls s : run cls (drop (run cls s) s) = 0.
Proof.
  induction s as [|c s IH]; [done|]. cbn [run].
  destruct (cls c) eqn:Hc; [exact IH|]. cbn [drop run]. by rewrite Hc.
Qed.

Lemma withoutAsciiDiacritics_non_word k : ∀ s b,
  k ≤ run (fun c => negb (unicodeWord P c)) s →
  withoutAsciiDiacritics P b s
  = withoutAsciiDiacritics P
      (match last (take k s) with
       | Some x => isLower x || isUpper x
       | None => b
       end)
      (drop k s).
Proof.
  induction k as [|k IH]; intros s b Hk.
  - by rewrite take_0, drop_0.
  - destruct s as [|c s]; [simpl in Hk; lia|]. cbn [run] in Hk.
    destruct (unicodeWord P c) eqn:Hc; cbn [negb] in Hk; [lia|].
    assert (isM P c = false) as HM.
    { unfold unicodeWord in Hc. destruct (isM P c); [|done].
      by rewrite orb_true_r in Hc. }
    cbn [withoutAsciiDiacritics]. rewrite HM, andb_false_r, Hc.
    rewrite (IH s _ ltac:(lia)). cbn [take drop]. f_equal.
    destruct (take k s) as [|x l] eqn:Ht; [done|].
    rewrite last_cons_cons. destruct (last (x :: l)) eqn:E; [done|].
    by apply last_None in E.
Qed.

Lemma delete_ASCII_DIACRITICS_from n : ∀ s before, length s ≤ n →
  replaceFrom (ASCII_DIACRITICS P) (fun _ => []) before s 0
  = withoutAsciiDiacritics P
      (match before with b :: _ => isLower b || isUpper b | [] => false end) s.
Proof.
  induction n as [|n IH]; intros s before Hlen.
  { destruct s; [|simpl in Hlen; lia].
    cbn [replaceFrom]. by destruct (exec _ before []). }
  destruct s as [|c s].
  { cbn [replaceFrom]. by destruct (exec _ before []). }
  assert (∀ k, run (fun c => negb (unicodeWord P c)) (c :: s) = S k →
            replaceFrom (ASCII_DIACRITICS P) (fun _ => []) (c :: before) s k
            = withoutAsciiDiacritics P
                (match before with b :: _ => isLower b || isUpper b | [] => false end)
                (c :: s)) as Hnon.
  { intros k Hk. pose proof (run_le (fun c => negb (unicodeWord P c)) (c :: s)) as Hle.
    rewrite Hk in Hle. simpl in Hle, Hlen.
    rewrite replaceFrom_skip by lia. rewrite IH by (rewrite length_drop; lia).
    rewrite (withoutAsciiDiacritics_non_word (S k) (c :: s)) by lia.
    cbn [take drop]. f_equal.
    destruct (take k s) as [|x l] eqn:Ht.
    - done.
    - rewrite last_cons_cons. rewrite <- (reverse_involutive (x :: l)) at 2.
      destruct (reverse (x :: l)) as [|y r] eqn:Hr.
      + by apply (f_equal reverse) in Hr; rewrite reverse_involutive in Hr.
      + rewrite reverse_cons, last_snoc. done. }
  assert (run (fun c => negb (unicodeWord P c)) (c :: s) = 0 →
          (match before with b :: _ => isLower b || isUpper b | [] => false end)
          && isM P c = false →
          c :: replaceFrom (ASCII_DIACRITICS P) (fun _ => []) (c :: before) s 0
          = withoutAsciiDiacritics P
              (match before with b :: _ => isLower b || isUpper b | [] => false end)
              (c :: s)) as Hword.
  { intros Hk Hflag. cbn [run] in Hk.
    destruct (unicodeWord P c) eqn:Hc; cbn [negb] in Hk; [|done].
    cbn [withoutAsciiDiacritics]. rewrite Hflag, Hc.
    simpl in Hlen. by rewrite IH by lia. }
  assert ((match before with b :: _ => isLower b || isUpper b | [] => false end)
          && isM P c = false →
          match exec (NON_WORD P) before (c :: s) with
          | Some 0 => [] ++ c :: replaceFrom (ASCII_DIACRITICS P) (fun _ => [])
                                    (c :: before) s 0
          | Some (S k) => [] ++ replaceFrom (ASCII_DIACRITICS P) (fun _ => [])
                                   (c :: before) s k
          | None => c :: replaceFrom (ASCII_DIACRITICS P) (fun _ => []) (c :: before) s 0
          end
          = withoutAsciiDiacritics P
              (match before with b :: _ => isLower b || isUpper b | [] => false end)
              (c :: s)) as HNW.
  { intros Hflag. unfold NON_WORD. cbn [exec runOf].
    destruct (run (fun c => negb (unicodeWord P c)) (c :: s)) as [|k] eqn:Hk.
    - rewrite decide_False by lia. by apply Hword.
    - rewrite decide_True by lia. simpl. by apply Hnon. }
  cbn [replaceFrom]. unfold ASCII_DIACRITICS at 1. cbn [exec].
  destruct before as [|b bs]; [by apply HNW|].
  destruct (isLower b || isUpper b) eqn:Hb; cbn [andb];
    [|by apply HNW].
  destruct (run (isM P) (c :: s)) as [|k] eqn:Hk.
  - rewrite bool_decide_eq_false_2 by lia. apply HNW.
    cbn [run] in Hk. by destruct (isM P c).
  - rewrite bool_decide_eq_true_2 by lia. simpl app.
    pose proof (run_le (isM P) (c :: s)) as Hle. rewrite Hk in Hle.
    simpl in Hle, Hlen.
    rewrite replaceFrom_skip by lia. rewrite IH by (rewrite length_drop; lia).
    rewrite (withoutAsciiDiacritics_marks (c :: s) k Hk). cbn [drop].
    apply withoutAsciiDiacritics_flag.
    cbn [run] in Hk. destruct (isM P c); [|done]. injection Hk as <-.
    apply run_drop.
Qed.

(** What the exported strip patterns delete. [NON_WORD], [DIACRITICS] and
    [NON_ASCII] delete exactly the code points outside their class and keep
    the others in order. [ASCII_DIACRITICS] deletes what [NON_WORD] deletes
    and, besides, every run of marks that directly follows an ASCII
    letter. *)
Theorem strip_patterns s :
  replaceAll (NON_WORD P) (fun _ => []) s
  = filter (fun c => unicodeWord P c = true) s
  ∧ replaceAll (DIACRITICS P) (fun _ => []) s
    = filter (fun c => isL P c || isN P c || isHyphen c = true) s
  ∧ replaceAll NON_ASCII (fun _ => []) s
    = filter (fun c => asciiWord c = true) s
  ∧ replaceAll (ASCII_DIACRITICS P) (fun _ => []) s
    = withoutAsciiDiacritics P false s.
Proof.
  split; [apply delete_NON_WORD|]. split; [|split; [apply delete_NON_ASCII|]].
  - unfold replaceAll, DIACRITICS. rewrite (delete_runOf _ (length s)) by done.
    apply list_filter_iff. intros c. by rewrite negb_false_iff.
  - unfold replaceAll. by rewrite (delete_ASCII_DIACRITICS_from (length s)).
Qed.

End StripPatterns.

(** * Further properties of [build.ts] and of the loader *)

(** ** The loop over the entries of the map *)

Section PostProcessEach.
Context (P : Platform).

Lemma mapDelete_middle (acc t : JSMap) k v :
  k ∉ mapKeys acc → mapDelete (acc ++ (k, v) :: t) k = acc ++ t.
Proof.
  induction acc as [|[k' v'] acc IH]; intros Hk; simpl.
  - by rewrite decide_True.
  - apply not_elem_of_cons in Hk as [Hne Hk]. rewrite decide_False by done.
    by rewrite IH.
Qed.

Lemma mapSet_middle (acc t : JSMap) k v w :
  k ∉ mapKeys acc → mapSet (acc ++ (k, v) :: t) k w = acc ++ (k, w) :: t.
Proof.
  induction acc as [|[k' v'] acc IH]; intros Hk; simpl.
  - by rewrite decide_True.
  - apply not_elem_of_cons in Hk as [Hne Hk]. rewrite decide_False by done.
    by rewrite IH.
Qed.

Lemma postProcessEntry_middle acc t e :
  e.1 ∉ mapKeys acc →
  postProcessEntry P (acc ++ e :: t) e = acc ++ postProcessEntry P [e] e ++ t.
Proof.
  destruct e as [k v]. cbn [fst]. intros Hk.
  pose proof (mapDelete_middle acc t k v Hk) as Hd.
  assert (mapDelete [(k, v)] k = []) as Hd0 by (simpl; by rewrite decide_True).
  assert (∀ w, mapSet [(k, v)] k w = [(k, w)]) as Hs0
    by (intros w; simpl; by rewrite decide_True).
  unfold postProcessEntry. cbn [fst snd].
  destruct (negb (NON_ASCII_ALPHANUM k) && negb (NON_ASCII_ALPHANUM v));
    [by rewrite Hd, Hd0|].
  destruct (bool_decide (k = []) || hasReserved k); [by rewrite Hd, Hd0|].
  destruct (bool_decide _); [by rewrite Hd, Hd0|].
  destruct (NON_ASCII_ALPHANUM _); [by rewrite Hd, Hd0|].
  by rewrite (mapSet_middle acc t k v), Hs0.
Qed.

Lemma postProcessEntry_alone k v e' :
  e' ∈ postProcessEntry P [(k, v)] (k, v)
  ↔ (NON_ASCII_ALPHANUM k = true ∨ NON_ASCII_ALPHANUM v = true)
    ∧ k ≠ [] ∧ hasReserved k = false
    ∧ e' = (k, filter (fun c => isL P c || isN P c = true) (nfkd P v))
    ∧ filter (fun c => isL P c || isN P c = true) (nfkd P v) ≠ []
    ∧ NON_ASCII_ALPHANUM (filter (fun c => isL P c || isN P c = true) (nfkd P v))
      = false.
Proof.
  unfold postProcessEntry. cbn [fst snd]. unfold replaceAll.
  rewrite delete_oneOf.
  assert (filter (fun c => negb (isL P c || isN P c) = false) (nfkd P v)
          = filter (fun c => isL P c || isN P c = true) (nfkd P v)) as ->.
  { apply list_filter_iff. intros c. by rewrite negb_false_iff. }
  set (w := filter _ (nfkd P v)).
  destruct (NON_ASCII_ALPHANUM k) eqn:Hk, (NON_ASCII_ALPHANUM v) eqn:Hv;
    cbn [negb andb];
    try (simpl; rewrite decide_True by done; split;
         [by intros ?%elem_of_nil|by intros ([|] & _)]).
  all: destruct (bool_decide_reflect (k = [])) as [->|Hk0]; cbn [orb];
    [simpl; split; [by intros ?%elem_of_nil|by intros (_ & ? & _)]|].
  all: destruct (hasReserved k) eqn:Hres;
    [simpl; rewrite decide_True by done; split;
     [by intros ?%elem_of_nil|by intros (_ & _ & ? & _)]|].
  all: destruct (bool_decide_reflect (w = [])) as [Hw|Hw];
    [simpl; rewrite decide_True by done; split;
     [by intros ?%elem_of_nil|by intros (_ & _ & _ & _ & ? & _)]|].
  all: destruct (NON_ASCII_ALPHANUM w) eqn:Hnw;
    [simpl; rewrite decide_True by done; split;
     [by intros ?%elem_of_nil|by intros (_ & _ & _ & _ & _ & ?)]|].
  all: simpl; rewrite decide_True by done; split;
    [intros ->%list_elem_of_singleton; by auto 10
    |intros (_ & _ & _ & -> & _); by apply list_elem_of_singleton].
Qed.

Lemma postProcessEntry_one e :
  postProcessEntry P [e] e = []
  ∨ ∃ w, postProcessEntry P [e] e = [(e.1, w)].
Proof.
  destruct e as [k v]. unfold postProcessEntry. cbn [fst snd mapDelete mapSet].
  rewrite !decide_True by done.
  repeat match goal with
         | |- context [if ?b then [] else _] => destruct b; [by left|]
         end.
  right. by eexists.
Qed.

(** The loop over [map.entries()] treats every entry on its own. *)
Lemma postProcess_each (m : JSMap) :
  NoDup (mapKeys m) →
  postProcess P m = flat_map (fun e => postProcessEntry P [e] e) m.
Proof.
  intros Hnd. unfold postProcess.
  assert (∀ todo acc, NoDup (mapKeys (acc ++ todo)) →
            foldl (postProcessEntry P) (acc ++ todo) todo
            = acc ++ flat_map (fun e => postProcessEntry P [e] e) todo) as Hfold.
  { induction todo as [|e todo IH]; intros acc Hacc; simpl.
    - by rewrite !app_nil_r.
    - assert (e.1 ∉ mapKeys acc) as He.
      { unfold mapKeys in Hacc. rewrite map_app in Hacc.
        apply NoDup_app in Hacc as (_ & Hdis & _). intros Hin.
        apply (Hdis _ Hin). by left. }
      rewrite postProcessEntry_middle by done.
      rewrite !app_assoc. apply IH.
      unfold mapKeys in *. rewrite !map_app in *. simpl in Hacc.
      destruct (postProcessEntry_one e) as [->|[w ->]]; simpl.
      + rewrite app_nil_r. apply NoDup_app in Hacc as (H1 & H2 & H3).
        apply NoDup_cons in H3 as [_ H3]. apply NoDup_app. split; [done|].
        split; [|done]. intros x Hx Hx'. apply (H2 x Hx). by right.
      + by rewrite <- app_assoc. }
  apply (Hfold m []). done.
Qed.

(** What the loop over [map.entries()] leaves. An entry [k ↦ w] is in the
    map afterwards exactly when the map had an entry [k ↦ v] such that [k] or
    [v] has a character outside [[a-zA-Z0-9\-']], [k] is not empty and has
    none of the reserved characters, and [w], the letters and digits of the
    NFKD form of [v], is not empty and has no character outside
    [[a-zA-Z0-9\-']]. *)
Theorem postProcess_entries (m : JSMap) k w :
  NoDup (mapKeys m) →
  (k, w) ∈ postProcess P m
  ↔ ∃ v, (k, v) ∈ m
       ∧ (NON_ASCII_ALPHANUM k = true ∨ NON_ASCII_ALPHANUM v = true)
       ∧ k ≠ [] ∧ hasReserved k = false
       ∧ w = filter (fun c => isL P c || isN P c = true) (nfkd P v)
       ∧ w ≠ [] ∧ NON_ASCII_ALPHANUM w = false.
Proof.
  intros Hnd. rewrite (postProcess_each m Hnd).
  rewrite list_elem_of_In, in_flat_map. split.
  - intros ([k0 v] & Hin & Hkw). apply list_elem_of_In in Hin, Hkw.
    apply postProcessEntry_alone in Hkw as (H1 & H2 & H3 & [= -> ->] & H5 & H6).
    by exists v.
  - intros (v & Hin & H1 & H2 & H3 & -> & H5 & H6).
    exists (k, v). split; [by apply list_elem_of_In|].
    apply list_elem_of_In, postProcessEntry_alone. auto 10.
Qed.

(** The reserved characters and the syntax characters of a pattern. A key
    that the loop keeps has none of [$ ( ) [ ] - + * ? { } ,]; of the
    syntax characters of a regular expression that leaves [^], [\], [.]
    and [|], which a kept key can have. *)
Theorem kept_key_syntax (m : JSMap) k w :
  NoDup (mapKeys m) →
  (k, w) ∈ postProcess P m →
  Forall (fun c => isSyntaxCharacter c = true → c ∈ str "^\.|") k.
Proof.
  intros Hnd Hin. rewrite (postProcess_each m Hnd) in Hin.
  apply list_elem_of_In, in_flat_map in Hin as ([k0 v] & _ & Hkw).
  apply list_elem_of_In, postProcessEntry_alone in Hkw
    as (_ & _ & Hres & [= -> _] & _).
  apply Forall_forall. intros c Hc Hsyn.
  assert (bool_decide (c ∈ str "$()[]-+*?{},") = false) as Hnot.
  { destruct (bool_decide (c ∈ str "$()[]-+*?{},")) eqn:E; [|done].
    assert (hasReserved k0 = true); [|congruence].
    apply existsb_exists. exists c. split; [by apply list_elem_of_In|done]. }
  unfold isSyntaxCharacter in Hsyn. apply bool_decide_eq_true_1 in Hsyn.
  change (str "^$\.*+?()[]{}|")
    with [94; 36; 92; 46; 42; 43; 63; 40; 41; 91; 93; 123; 125; 124]%N in Hsyn.
  repeat (apply elem_of_cons in Hsyn as [->|Hsyn];
          [first [by vm_compute in Hnot
                 |by apply (bool_decide_unpack _); vm_compute]|]).
  by apply elem_of_nil in Hsyn.
Qed.

End PostProcessEach.

Lemma postProcess_entries_witness :
  ([233%N; 46%N], str "e")
  ∈ postProcess Basic.platform [([233%N; 46%N], [233%N]); (str "a", str "b")].
Proof.
  apply (proj2 (postProcess_entries Basic.platform
                  [([233%N; 46%N], [233%N]); (str "a", str "b")]
                  [233%N; 46%N] (str "e")
                  ltac:(apply (bool_decide_unpack _); vm_compute; exact I))).
  exists [233%N]. split; [by left|]. split; [by left|].
  split; [done|]. split; [reflexivity|]. split; [reflexivity|]. split; done.
Defined.

Lemma kept_key_syntax_witness :
  ([233%N; 46%N], str "e")
  ∈ postProcess Basic.platform [([233%N; 46%N], [233%N]); (str "a", str "b")]
  ∧ Forall (fun c => isSyntaxCharacter c = true → c ∈ str "^\.|") [233%N; 46%N].
Proof.
  assert (([233%N; 46%N], str "e")
          ∈ postProcess Basic.platform
              [([233%N; 46%N], [233%N]); (str "a", str "b")]) as Hin
    by (vm_compute; by left).
  split; [exact Hin|].
  refine (kept_key_syntax Basic.platform _ _ _ _ Hin).
  apply (bool_decide_unpack _). vm_compute. exact I.
Defined.

(** ** The table *)

Section Grouping.
Context (P : Platform).

Lemma grouping_stays_failed (m : JSMap) :
  foldl (fun _out e =>
           match _out with Some o => pushUnder o e.2 e.1 | None => None end)
        None m = None.
Proof. induction m as [|e m IH]; [done|]. exact IH. Qed.

Lemma grouping_fails (m : JSMap) : ∀ G : JSObject (list jsstring),
  Forall (fun g => g.1 ∉ inheritedNames) G →
  foldl (fun _out e =>
           match _out with Some o => pushUnder o e.2 e.1 | None => None end)
        (Some G) m = None
  ↔ ∃ e, e ∈ m ∧ e.2 ∈ inheritedNames.
Proof.
  induction m as [|[k v] m IH]; intros G HG.
  - simpl. split; [done|]. by intros (e & ?%elem_of_nil & _).
  - cbn [foldl fst snd].
    assert (∀ l, v ∉ inheritedNames →
              Forall (fun g : jsstring * list jsstring => g.1 ∉ inheritedNames)
                     (objSet G v l)) as Hset.
    { intros l Hv. apply Forall_forall. intros g Hg.
      apply objSet_elem in Hg as [->|Hg]; [done|].
      by eapply Forall_forall in HG. }
    assert (v ∉ inheritedNames →
            (∃ e, e ∈ (k, v) :: m ∧ e.2 ∈ inheritedNames)
            ↔ ∃ e, e ∈ m ∧ e.2 ∈ inheritedNames) as Hrest.
    { intros Hv. split.
      - intros (e & [->|He]%elem_of_cons & Hi); [done|by exists e].
      - intros (e & He & Hi). exists e. split; [by right|done]. }
    unfold pushUnder. destruct (objGet G v) as [l|] eqn:Hl.
    + assert (v ∉ inheritedNames) as Hv.
      { apply objGet_elem in Hl. by eapply Forall_forall in HG; [|exact Hl]. }
      rewrite (IH _ (Hset _ Hv)). by rewrite Hrest.
    + destruct (bool_decide_reflect (v ∈ inheritedNames)) as [Hv|Hv].
      * rewrite grouping_stays_failed. split; [|done]. intros _.
        exists (k, v). split; [by left|done].
      * rewrite (IH _ (Hset _ Hv)). by rewrite Hrest.
Qed.

(** [_out] is an object literal, so it has the properties of
    [Object.prototype]: the script fails (with a [TypeError], on [push])
    exactly when some target in the map is the name of one of them, such as
    ["constructor"]. *)
Theorem out_fails (m : JSMap) :
  out P m = None ↔ ∃ k v, (k, v) ∈ m ∧ v ∈ inheritedNames.
Proof.
  unfold out.
  assert (groupByTarget m = None ↔ ∃ e, e ∈ m ∧ e.2 ∈ inheritedNames) as H
    by (by apply grouping_fails).
  destruct (groupByTarget m) as [G|].
  - split; [done|]. intros (k & v & Hin & Hv).
    assert (Some G = None); [|done]. apply H. by exists (k, v).
  - split; [|done]. intros _. destruct H as [H _].
    destruct (H eq_refl) as ([k v] & Hin & Hv). by exists k, v.
Qed.

Lemma out_shape (m : JSMap) table :
  out P m = Some table →
  ∃ G, groupsOf G m
       ∧ table
         = map (fun e : jsstring * list jsstring =>
                  (e.1, join [COMMA] (dedupe (sortBy (sortAlphabetical P) e.2))))
               (entries (sortBy (fun a b => sortAlphabetical P a.1 b.1) (entries G))).
Proof.
  unfold out. destruct (groupByTarget m) as [G|] eqn:HG; [|done]. intros [= <-].
  assert (groupsOf G m) as HGr.
  { apply (groupByTarget_groups m [] [] G); [|exact HG].
    split; [constructor|]. split; [constructor|done]. }
  exists G. split; [done|].
  rewrite fromEntries_nodup.
  - by rewrite (entries_keys _).
  - rewrite map_map. cbn [fst]. rewrite sortBy_perm, entries_perm. apply HGr.
Qed.

(** The table lists every entry of the map, each source under its target,
    and nothing else. *)
Theorem out_lists_the_map (m : JSMap) table k v :
  NoDup (mapKeys m) → Forall (fun k => COMMA ∉ k) (mapKeys m) →
  out P m = Some table →
  (k, v) ∈ m ↔ ∃ srcs, (v, srcs) ∈ table ∧ k ∈ splitComma srcs.
Proof.
  intros Hnd Hcomma Hout.
  destruct (out_shape m table Hout) as (G & HG & ->).
  pose proof HG as (_ & _ & Hp).
  assert (∀ e0, e0 ∈ entries (sortBy (fun a b => sortAlphabetical P a.1 b.1) (entries G))
                ↔ e0 ∈ G) as Hmem.
  { intros e0. by rewrite entries_perm, sortBy_perm, entries_perm. }
  rewrite <- Hp, list_elem_of_In, in_flat_map. split.
  - intros (g & Hg & Hkv). apply list_elem_of_In in Hg, Hkv.
    apply list_elem_of_fmap in Hkv as (k' & [= -> ->] & Hk').
    eexists. split.
    + apply list_elem_of_fmap. exists g. split; [reflexivity|by apply Hmem].
    + pose proof (written_group P G m g HG Hnd Hcomma Hg) as Hw.
      unfold sourcesOf in Hw. cbn [snd] in Hw. rewrite Hw.
      by apply sortBy_elem.
  - intros (srcs & Hin & Hk).
    apply list_elem_of_fmap in Hin as (g & [= -> ->] & Hg). apply Hmem in Hg.
    exists g. split; [by apply list_elem_of_In|]. apply list_elem_of_In.
    apply list_elem_of_fmap. exists k. split; [done|].
    pose proof (written_group P G m g HG Hnd Hcomma Hg) as Hw.
    unfold sourcesOf in Hw. cbn [snd] in Hw. rewrite Hw in Hk.
    by apply sortBy_elem in Hk.
Qed.

End Grouping.

Lemma out_lists_the_map_witness :
  out Basic.platform (Build.charMap smallTable) = Some smallTable
  ∧ ∃ srcs, (str "e", srcs) ∈ smallTable
            ∧ [101%N; 769%N; 769%N] ∈ splitComma srcs.
Proof.
  assert (out Basic.platform (Build.charMap smallTable) = Some smallTable) as E
    by (vm_compute; reflexivity).
  split; [exact E|].
  refine (proj1 (out_lists_the_map Basic.platform (Build.charMap smallTable)
                   smallTable [101%N; 769%N; 769%N] (str "e") _ _ E) _).
  - apply (bool_decide_unpack _). vm_compute. exact I.
  - apply (bool_decide_unpack _). vm_compute. exact I.
  - vm_compute. do 3 right. by left.
Defined.

Section TableOrder.
Context (P : Platform) (L : CollationLaws P).

Lemma StronglySorted_filter_keep {A} (R : relation A) (q : A → Prop)
    `{∀ x, Decision (q x)} (l : list A) :
  StronglySorted R l → StronglySorted R (filter q l).
Proof.
  induction 1 as [|x l Hl IH Hx]; [constructor|].
  rewrite filter_cons. destruct (decide (q x)); [|done].
  constructor; [done|]. apply Forall_forall. intros y Hy.
  apply list_elem_of_filter in Hy as [_ Hy]. by eapply Forall_forall in Hx.
Qed.

(** The order of the table. [Object.fromEntries] makes an object of the
    sorted groups, and an object lists its array-index keys first, in
    numeric order: the table has the roots that are array indices first,
    ascending, and after them the other roots in alphabetical order. *)
Theorem out_order (m : JSMap) table :
  out P m = Some table →
  ∃ ix rest,
    table = ix ++ rest
    ∧ Forall (fun e => isArrayIndex e.1 = true) ix
    ∧ StronglySorted indexSorted ix
    ∧ Forall (fun e => isArrayIndex e.1 = false) rest
    ∧ StronglySorted (fun a b => notAfter (sortAlphabetical P) a.1 b.1) rest.
Proof.
  intros Hout. destruct (out_shape P m table Hout) as (G & HG & ->).
  set (h := fun e : jsstring * list jsstring =>
              (e.1, join [COMMA] (dedupe (sortBy (sortAlphabetical P) e.2)))).
  set (afterK := fun a b : jsstring * list jsstring => sortAlphabetical P a.1 b.1).
  set (S := sortBy afterK (entries G)).
  assert (StronglySorted (notAfter afterK) S) as HS.
  { apply sortBy_sorted.
    - intros a b. apply (alphabetical_asym P L).
    - intros a b c. apply (alphabetical_trans P L). }
  unfold entries. rewrite map_app.
  eexists _, _. split; [reflexivity|]. split; [|split; [|split]].
  - apply Forall_fmap, Forall_forall. intros e He.
    apply sortBy_elem, list_elem_of_filter in He as [He _]. exact He.
  - apply (StronglySorted_fmap h indexSorted); [by intros x y|].
    apply sortBy_index_sorted. apply Forall_forall.
    by intros e [He _]%list_elem_of_filter.
  - apply Forall_fmap, Forall_forall.
    by intros e [He _]%list_elem_of_filter.
  - apply (StronglySorted_fmap h (notAfter afterK)); [by intros x y|].
    by apply StronglySorted_filter_keep.
Qed.

(** What the script writes. Every root of the table is a non-empty string
    of letters and digits with no character outside [[a-zA-Z0-9\-']]; every
    source listed under it is non-empty, has none of the reserved
    characters, and is a key that the map has for that root. *)
Theorem build_table_entries (dirEntries : list DirEntry) table root srcs :
  build P dirEntries = Some table →
  (root, srcs) ∈ table →
  root ≠ [] ∧ NON_ASCII_ALPHANUM root = false
  ∧ Forall (fun c => isL P c || isN P c = true) root
  ∧ ∀ k, k ∈ splitComma srcs →
         k ≠ [] ∧ hasReserved k = false
         ∧ mapGet (postProcess P (buildMap P dirEntries).1) k = Some root.
Proof.
  unfold build. set (m := postProcess P (buildMap P dirEntries).1).
  intros Hout Hin.
  destruct (postProcess_kept P _ (buildMap_nodup P dirEntries)) as [Hnd Hkept].
  fold m in Hnd, Hkept.
  assert (Forall (fun k => COMMA ∉ k) (mapKeys m)) as Hcomma.
  { apply Forall_fmap. eapply Forall_impl; [exact Hkept|].
    intros e [He _]. by apply hasReserved_comma. }
  destruct (out_shape P m table Hout) as (G & HG & ->).
  apply list_elem_of_fmap in Hin as (g & [= -> ->] & Hg).
  rewrite entries_perm, sortBy_perm, entries_perm in Hg.
  pose proof (written_group P G m g HG Hnd Hcomma Hg) as Hw.
  unfold sourcesOf in Hw. cbn [snd] in Hw. rewrite Hw. clear Hw.
  pose proof HG as (_ & Hall & Hp).
  assert (∀ k, k ∈ g.2 → (k, g.1) ∈ flat_map (fun e => postProcessEntry P [e] e)
                                      (buildMap P dirEntries).1) as Hmem.
  { intros k Hk. rewrite <- (postProcess_each P _ (buildMap_nodup P dirEntries)).
    fold m. rewrite <- Hp. apply list_elem_of_In, in_flat_map. exists g.
    split; [by apply list_elem_of_In|]. apply list_elem_of_In.
    apply list_elem_of_fmap. by exists k. }
  assert (∀ k, k ∈ g.2 →
            k ≠ [] ∧ hasReserved k = false
            ∧ g.1 ≠ [] ∧ NON_ASCII_ALPHANUM g.1 = false
            ∧ Forall (fun c => isL P c || isN P c = true) g.1
            ∧ mapGet m k = Some g.1) as Hk.
  { intros k Hk. pose proof (Hmem k Hk) as Hin.
    apply list_elem_of_In, in_flat_map in Hin as ([k0 v] & _ & Hkw).
    apply list_elem_of_In, postProcessEntry_alone in Hkw
      as (_ & H2 & H3 & [= -> Hv] & H5 & H6).
    rewrite Hv. split; [done|]. split; [done|]. split; [done|]. split; [done|].
    split.
    - apply Forall_forall. by intros c [Hc _]%list_elem_of_filter.
    - rewrite <- Hv. clear -Hnd Hp Hk Hg.
      assert ((k0, g.1) ∈ m) as Hin.
      { rewrite <- Hp. apply list_elem_of_In, in_flat_map. exists g.
        split; [by apply list_elem_of_In|]. apply list_elem_of_In.
        apply list_elem_of_fmap. by exists k0. }
      revert Hnd Hin. generalize (g.1). clear. intros r.
      induction m as [|[k' v'] m' IH]; intros Hnd Hin; [by apply elem_of_nil in Hin|].
      simpl in *. apply NoDup_cons in Hnd as [Hk' Hnd].
      apply elem_of_cons in Hin as [[= <- <-]|Hin].
      + by rewrite decide_True.
      + rewrite decide_False; [by apply IH|]. intros <-. apply Hk'.
        apply list_elem_of_fmap. by exists (k0, r). }
  eapply Forall_forall in Hall as [_ Hne]; [|exact Hg].
  destruct (g.2) as [|k0 ks] eqn:Hg2; [done|].
  destruct (Hk k0 ltac:(by left)) as (_ & _ & R1 & R2 & R3 & _).
  split; [done|]. split; [done|]. split; [done|].
  intros k Hin. apply sortBy_elem in Hin.
  destruct (Hk k Hin) as (K1 & K2 & _ & _ & _ & K6). done.
Qed.

End TableOrder.

Lemma out_order_witness :
  out Basic.platform (Build.charMap smallTable) = Some smallTable
  ∧ ∃ ix rest,
      smallTable = ix ++ rest
      ∧ Forall (fun e => isArrayIndex e.1 = true) ix
      ∧ StronglySorted indexSorted ix
      ∧ Forall (fun e => isArrayIndex e.1 = false) rest
      ∧ StronglySorted
          (fun a b => notAfter (sortAlphabetical Basic.platform) a.1 b.1) rest.
Proof.
  assert (out Basic.platform (Build.charMap smallTable) = Some smallTable) as E
    by (vm_compute; reflexivity).
  split; [exact E|].
  exact (out_order Basic.platform basic_collation_laws _ _ E).
Defined.

Lemma build_table_entries_witness :
  build Basic.platform foldingFiles = Some foldingTable
  ∧ str "e" ≠ [] ∧ NON_ASCII_ALPHANUM (str "e") = false
  ∧ Forall (fun c => isL Basic.platform c || isN Basic.platform c = true) (str "e")
  ∧ ∀ k, k ∈ splitComma [101%N; 769%N; COMMA; 101%N; 769%N; 769%N] →
         k ≠ [] ∧ hasReserved k = false
         ∧ mapGet (postProcess Basic.platform
                     (buildMap Basic.platform foldingFiles).1) k
           = Some (str "e").
Proof.
  assert (build Basic.platform foldingFiles = Some foldingTable) as E
    by (vm_compute; reflexivity).
  split; [exact E|].
  refine (build_table_entries Basic.platform foldingFiles foldingTable
            (str "e") [101%N; 769%N; COMMA; 101%N; 769%N; 769%N] E _).
  do 2 right. by left.
Defined.

(** ** The loader and the rules *)

Section Loader.

Lemma mapSet_elem_weak (m : JSMap) k v e :
  e ∈ mapSet m k v → e = (k, v) ∨ e ∈ m.
Proof.
  induction m as [|[k0 v0] m IH]; simpl.
  - intros ?%list_elem_of_singleton. by left.
  - destruct (decide (k = k0)) as [->|Hk].
    + intros [->|He]%elem_of_cons; [by left|]. right. by right.
    + intros [->|He]%elem_of_cons; [right; by left|].
      destruct (IH He) as [->|?]; [by left|]. right. by right.
Qed.

Lemma mapGet_Some_elem (m : JSMap) k v : mapGet m k = Some v → (k, v) ∈ m.
Proof.
  induction m as [|[k0 v0] m IH]; [done|]. simpl.
  destruct (decide (k = k0)) as [->|Hk]; [intros [= ->]; by left|].
  intros H. right. by apply IH.
Qed.

Lemma elem_mapGet_Some (m : JSMap) k v :
  NoDup (mapKeys m) → (k, v) ∈ m → mapGet m k = Some v.
Proof.
  induction m as [|[k0 v0] m IH]; [by intros _ ?%elem_of_nil|]. simpl.
  intros [Hk0 Hnd]%NoDup_cons [[= <- <-]|Hin]%elem_of_cons.
  - by rewrite decide_True.
  - rewrite decide_False; [by apply IH|]. intros <-. apply Hk0.
    apply list_elem_of_fmap. by exists (k, v).
Qed.

Lemma fromEntries_elem {V} (l : list (jsstring * V)) e :
  e ∈ fromEntries l → e ∈ l.
Proof.
  unfold fromEntries.
  assert (∀ acc, e ∈ foldl (fun o x => objSet o x.1 x.2) acc l → e ∈ acc ∨ e ∈ l)
    as Hfold.
  { induction l as [|[k v] l IH]; intros acc; simpl; [by left|].
    intros [He|He]%IH; [|right; by right].
    apply objSet_elem in He as [->|He]; [right; by left|by left]. }
  intros [?%elem_of_nil|?]%Hfold; done.
Qed.

Lemma charMap_sound (table : SerializedTable) y x :
  (y, x) ∈ Build.charMap table →
  ∃ srcs, (x, srcs) ∈ table ∧ y ∈ splitComma srcs.
Proof.
  unfold Build.charMap.
  assert (∀ E (acc : JSMap),
            (y, x) ∈ foldl (fun m e => foldl (fun m y => mapSet m y e.1) m
                                             (splitComma e.2)) acc E →
            (y, x) ∈ acc ∨ ∃ srcs, (x, srcs) ∈ E ∧ y ∈ splitComma srcs) as Hfold.
  { induction E as [|[r srcs] E IH]; intros acc; simpl; [by left|].
    intros [Hin|(s & Hs & Hy)]%IH; [|right; exists s; split; [by right|done]].
    assert (∀ ys (acc' : JSMap),
              (y, x) ∈ foldl (fun m y => mapSet m y r) acc' ys →
              (y, x) ∈ acc' ∨ (x = r ∧ y ∈ ys)) as Hin'.
    { induction ys as [|y0 ys IHy]; intros acc'; simpl; [by left|].
      intros [He|[-> Hy]]%IHy; [|right; split; [done|by right]].
      apply mapSet_elem_weak in He as [[= -> ->]|He]; [|by left].
      right. split; [done|by left]. }
    apply Hin' in Hin as [Hin|[-> Hy]]; [by left|].
    right. exists srcs. split; [by left|done]. }
  intros [?%elem_of_nil|(srcs & Hin & Hy)]%Hfold; [done|].
  exists srcs. split; [|done].
  apply fromEntries_elem. by rewrite entries_perm in Hin.
Qed.

(** The loader. Whatever the table, a key of the loaded map is a source that
    the table lists under the root the key is mapped to. When no root and no
    source is listed twice, every source of the table is mapped to the root
    it is listed under. *)
Theorem charMap_lookup (table : SerializedTable) y x :
  (mapGet (Build.charMap table) y = Some x →
   ∃ srcs, (x, srcs) ∈ table ∧ y ∈ splitComma srcs)
  ∧ (NoDup (map fst table) → NoDup (flat_map sourcesOf table) →
     ∀ srcs, (x, srcs) ∈ table → y ∈ splitComma srcs →
     mapGet (Build.charMap table) y = Some x).
Proof.
  split.
  - intros H. by apply charMap_sound, mapGet_Some_elem.
  - intros Hroots Hsrc srcs Hin Hy.
    assert (NoDup (flat_map sourcesOf (entries table))) as HsrcE.
    { by rewrite (flat_map_perm_outer sourcesOf _ table) by apply entries_perm. }
    assert (Build.charMap table
            = flat_map (fun e => map (fun y => (y, e.1)) (sourcesOf e))
                       (entries table)) as E.
    { unfold Build.charMap. rewrite fromEntries_nodup by done.
      by rewrite (expand_table (entries table) []). }
    apply elem_mapGet_Some.
    + rewrite E. unfold mapKeys.
      rewrite flat_map_concat_map, concat_map, map_map.
      assert (map (fun e : jsstring * jsstring =>
                     map fst (map (fun y => (y, e.1)) (sourcesOf e))) (entries table)
              = map sourcesOf (entries table)) as ->.
      { apply map_ext. intros e. rewrite map_map. apply map_id. }
      by rewrite <- flat_map_concat_map.
    + rewrite E. apply list_elem_of_In, in_flat_map. exists (x, srcs).
      split; [apply list_elem_of_In; by rewrite entries_perm|].
      apply list_elem_of_In, list_elem_of_fmap. by exists y.
Qed.

End Loader.

Lemma charMap_lookup_witness :
  mapGet (Build.charMap smallTable) [101%N; 769%N; 769%N] = Some (str "e").
Proof.
  refine (proj2 (charMap_lookup smallTable [101%N; 769%N; 769%N] (str "e"))
            _ _ [101%N; 769%N; COMMA; 101%N; 769%N; 769%N] _ _).
  - apply (bool_decide_unpack _). vm_compute. exact I.
  - apply (bool_decide_unpack _). vm_compute. exact I.
  - do 2 right. by left.
  - vm_compute. right. by left.
Defined.

Section Rules.
Context (P : Platform).

Lemma foldl_invariant {A B} (Inv : A → Prop) (f : A → B → A) (l : list B) :
  (∀ acc x, x ∈ l → Inv acc → Inv (f acc x)) →
  ∀ acc, Inv acc → Inv (foldl f acc l).
Proof.
  induction l as [|x l IH]; intros Hf acc Hacc; [done|]. simpl.
  apply IH.
  - intros acc' y Hy. apply Hf. by right.
  - apply Hf; [by left|done].
Qed.

(** What the map holds before the loop over its entries. Every key is the
    normalised left-hand side, not empty, of a rule of a file whose name
    matches one of the three patterns, and every value is the normalised
    right-hand side of such a rule. *)
Theorem buildMap_rules (dirEntries : list DirEntry) k v :
  (k, v) ∈ (buildMap P dirEntries).1 →
  k ≠ []
  ∧ (∃ re f line l,
       f ∈ dirEntries ∧ nameMatches re (name f) = true
       ∧ line ∈ lines f ∧ l ∈ lhs line ∧ k = normalize P l)
  ∧ (∃ re f line,
       f ∈ dirEntries ∧ nameMatches re (name f) = true
       ∧ line ∈ lines f ∧ v = normalize P (rhs line)).
Proof.
  set (isKey := fun k : jsstring =>
         k ≠ []
         ∧ ∃ re f line l,
             f ∈ dirEntries ∧ nameMatches re (name f) = true
             ∧ line ∈ lines f ∧ l ∈ lhs line ∧ k = normalize P l).
  set (isValue := fun v : jsstring =>
         ∃ re f line,
           f ∈ dirEntries ∧ nameMatches re (name f) = true
           ∧ line ∈ lines f ∧ v = normalize P (rhs line)).
  set (Inv := fun acc : JSMap * list jsstring =>
         Forall (fun e => isKey e.1 ∧ isValue e.2) acc.1).
  assert (Inv (buildMap P dirEntries)) as HInv.
  { unfold buildMap. apply foldl_invariant; [|by constructor].
    intros acc re _ Hacc. unfold addStep. apply foldl_invariant; [|done].
    intros acc1 f [Hre Hf]%list_elem_of_filter Hacc1. unfold addFile, Inv.
    cbn [fst]. revert Hacc1. unfold Inv. generalize (acc1.1). intros m0.
    apply (foldl_invariant
             (fun m : JSMap => Forall (fun e => isKey e.1 ∧ isValue e.2) m)).
    intros m1 line Hline Hm1. unfold addLine.
    apply (foldl_invariant
             (fun m : JSMap => Forall (fun e => isKey e.1 ∧ isValue e.2) m));
      [|done].
    intros m2 l Hl Hm2. unfold addRule.
    destruct (normalize P l) as [|c k0] eqn:Hk; [done|].
    assert (isKey (c :: k0)) as HK.
    { split; [done|]. exists re, f, line, l. by rewrite Hk. }
    assert (isValue (normalize P (rhs line))) as HV by by exists re, f, line.
    assert (Forall (fun e => isKey e.1 ∧ isValue e.2)
                   (mapSet m2 (c :: k0) (normalize P (rhs line)))) as Hm3.
    { apply Forall_forall. intros e [->|He]%mapSet_elem_weak; [done|].
      by eapply Forall_forall in Hm2. }
    destruct (mapGet _ (normalize P (rhs line))) as [further|] eqn:Hfur; [|done].
    apply Forall_forall. intros e [->|He]%mapSet_elem_weak.
    - split; [done|]. apply mapGet_Some_elem in Hfur.
      by eapply Forall_forall in Hm3 as [_ ?]; [|exact Hfur].
    - by eapply Forall_forall in Hm3. }
  intros Hin. unfold Inv in HInv.
  eapply Forall_forall in HInv as [[HK1 HK2] HV]; [|exact Hin]. done.
Qed.

End Rules.

Lemma buildMap_rules_witness :
  (str "d", str "y") ∈ (buildMap Basic.platform threeFiles).1
  ∧ ∃ re f line,
      f ∈ threeFiles ∧ nameMatches re (name f) = true
      ∧ line ∈ lines f ∧ str "y" = Build.normalize Basic.platform (rhs line).
Proof.
  assert ((str "d", str "y") ∈ (buildMap Basic.platform threeFiles).1) as Hin
    by (vm_compute; do 2 right; by left).
  split; [exact Hin|].
  exact (proj2 (proj2 (buildMap_rules Basic.platform threeFiles _ _ Hin))).
Defined.

(** ** The files *)

Section FileNames.
Context (P : Platform).

Lemma drop_tail_app {A} (pre t : list A) k :
  k ≤ length t →
  drop (length (pre ++ t) - k) (pre ++ t) = drop (length t - k) t.
Proof.
  intros Hk. rewrite length_app.
  replace (length pre + length t - k) with (length pre + (length t - k)) by lia.
  by rewrite drop_app_add.
Qed.

Lemma endsWith_tail s suffix k :
  endsWith s suffix = true → k ≤ length suffix →
  drop (length s - k) s = drop (length suffix - k) suffix.
Proof.
  unfold endsWith. intros H%bool_decide_eq_true_1 Hk.
  assert (length (drop (length s - length suffix) s) = length suffix) as Hlen
    by (by rewrite H).
  rewrite length_drop in Hlen.
  transitivity (drop (length suffix - k) (drop (length s - length suffix) s));
    [|by rewrite H].
  rewrite drop_drop. f_equal. lia.
Qed.

Lemma endsWith_app pre suffix : endsWith (pre ++ suffix) suffix = true.
Proof.
  unfold endsWith. apply bool_decide_eq_true_2.
  rewrite length_app, Nat.add_sub. by rewrite drop_app_length.
Qed.

(** No name matches two of the three patterns. *)
Lemma buckets_disjoint re1 re2 n :
  nameMatches re1 n = true → nameMatches re2 n = true → re1 = re2.
Proof.
  assert (∀ n, nameMatches INTERINDIC n = true →
               drop (length n - 5) n = [99; 46; 116; 120; 116]%N) as HI.
  { intros n0 H. by rewrite (endsWith_tail _ _ 5 H) by (vm_compute; lia). }
  assert (∀ n, nameMatches LATIN_ASCII n = true →
               drop (length n - 5) n = [73; 46; 116; 120; 116]%N) as HA.
  { intros n0 H%bool_decide_eq_true_1. by rewrite H. }
  assert (∀ n, nameMatches TO_LATIN n = true →
               drop (length n - 5) n = [110; 46; 116; 120; 116]%N
               ∨ drop (length n - 5) n = [78; 46; 116; 120; 116]%N) as HL.
  { intros n0 H. unfold nameMatches in H. cbn [existsb] in H.
    repeat (apply orb_true_iff in H as [[H _]%andb_true_iff|H];
            [rewrite (endsWith_tail _ _ 5 H) by (vm_compute; lia); auto|]).
    done. }
  intros H1 H2.
  destruct re1, re2; try done;
    repeat match goal with
           | H : nameMatches INTERINDIC _ = true |- _ => apply HI in H
           | H : nameMatches LATIN_ASCII _ = true |- _ => apply HA in H
           | H : nameMatches TO_LATIN _ = true |- _ => apply HL in H as [H|H]
           end; congruence.
Qed.

Lemma NoDup_names_filter (q : DirEntry → Prop) `{∀ f, Decision (q f)} fs :
  NoDup (map name fs) → NoDup (map name (filter q fs)).
Proof.
  induction fs as [|f fs IH]; [done|]. simpl.
  intros [Hf Hnd]%NoDup_cons. rewrite filter_cons.
  destruct (decide (q f)); [|by apply IH]. simpl.
  apply NoDup_cons. split; [|by apply IH]. intros Hin. apply Hf.
  apply list_elem_of_fmap in Hin as (g & -> & [_ Hg]%list_elem_of_filter).
  by apply list_elem_of_fmap_2.
Qed.

Lemma log_files (dirEntries : list DirEntry) n :
  n ∈ (buildMap P dirEntries).2 →
  ∃ re f, f ∈ dirEntries ∧ name f = n ∧ nameMatches re (name f) = true.
Proof.
  unfold buildMap, mappingStepFileNameRegexes, addStep. simpl.
  rewrite !addFile_log. simpl.
  intros H. repeat (apply elem_of_app in H as [H|H]);
    try (by apply elem_of_nil in H);
    apply list_elem_of_fmap in H as (f & -> & [Hre Hf]%list_elem_of_filter).
  - by exists LATIN_ASCII, f.
  - by exists TO_LATIN, f.
  - by exists INTERINDIC, f.
Qed.

(** No file is read twice: the names printed are distinct when the names
    in the directory are. *)
Theorem each_file_once (dirEntries : list DirEntry) :
  NoDup (map name dirEntries) → NoDup (buildMap P dirEntries).2.
Proof.
  intros Hnd. unfold buildMap, mappingStepFileNameRegexes, addStep. simpl.
  rewrite !addFile_log. simpl.
  assert (∀ re1 re2 n, re1 ≠ re2 →
            n ∈ map name (filter (fun f => nameMatches re1 (name f) = true) dirEntries) →
            n ∈ map name (filter (fun f => nameMatches re2 (name f) = true) dirEntries) →
            False) as Hdis.
  { intros re1 re2 n Hne (f1 & -> & [H1 _]%list_elem_of_filter)%list_elem_of_fmap
      (f2 & E & [H2 _]%list_elem_of_filter)%list_elem_of_fmap.
    rewrite <- E in H2. by apply Hne, (buckets_disjoint re1 re2 (name f1)). }
  apply NoDup_app. split; [apply NoDup_app; split; [|split]|split].
  - by apply NoDup_names_filter.
  - intros n H1 H2. by apply (Hdis LATIN_ASCII TO_LATIN n).
  - by apply NoDup_names_filter.
  - intros n [H1|H1]%elem_of_app H2.
    + by apply (Hdis LATIN_ASCII INTERINDIC n).
    + by apply (Hdis TO_LATIN INTERINDIC n).
  - by apply NoDup_names_filter.
Qed.

(** The files of Ancient Greek are not read: a name that ends in
    [Grek_Latn.txt], [Grek_Latin.txt] or [Grek_Latn_BGN.txt] is never
    printed. *)
Theorem greek_not_read (dirEntries : list DirEntry) pre suffix :
  suffix ∈ [str "_Latn.txt"; str "_Latin.txt"; str "_Latn_BGN.txt"] →
  pre ++ str "Grek" ++ suffix ∉ (buildMap P dirEntries).2.
Proof.
  intros Hsuf Hin. apply log_files in Hin as (re & f & _ & -> & Hre).
  revert Hre. generalize (name f). clear f. intros n Hre.
  assert (nameMatches TO_LATIN (pre ++ str "Grek" ++ suffix) = false) as HL.
  { unfold nameMatches. cbn [existsb].
    assert (∀ s, endsWith (pre ++ str "Grek" ++ suffix) s
                 && negb (endsWith (take (length (pre ++ str "Grek" ++ suffix)
                                          - length s)
                                         (pre ++ str "Grek" ++ suffix))
                                   (str "Grek")) = true →
                 s ∈ [str "_Latn.txt"; str "_Latin.txt"; str "_Latn_BGN.txt"] →
                 False) as Hno.
    { intros s [Hs Hg]%andb_true_iff Hs'.
      assert (s = suffix) as ->.
      { pose proof (endsWith_tail _ _ 6 Hs) as E.
        rewrite (app_assoc pre), drop_tail_app in E.
        - repeat (apply elem_of_cons in Hsuf as [->|Hsuf]);
            repeat (apply elem_of_cons in Hs' as [->|Hs']);
            try done; try (by apply elem_of_nil in Hsuf);
            try (by apply elem_of_nil in Hs');
            (exfalso; specialize (E ltac:(vm_compute; lia));
             vm_compute in E; discriminate E).
        - repeat (apply elem_of_cons in Hsuf as [->|Hsuf]);
            [vm_compute; lia..|by apply elem_of_nil in Hsuf]. }
      rewrite (app_assoc pre), length_app, Nat.add_sub, take_app_length in Hg.
      by rewrite endsWith_app in Hg. }
    apply not_true_is_false. intros H.
    repeat (apply orb_true_iff in H as [H|H];
            [apply (Hno _ H);
             first [by left|by (right; left)|by (right; right; left)]|]).
    done. }
  assert (drop (length (pre ++ str "Grek" ++ suffix) - 5)
               (pre ++ str "Grek" ++ suffix)
          = drop (length suffix - 5) suffix) as Htail.
  { rewrite (app_assoc pre), drop_tail_app; [done|].
    repeat (apply elem_of_cons in Hsuf as [->|Hsuf]);
      [vm_compute; lia..|by apply elem_of_nil in Hsuf]. }
  destruct re.
  - unfold nameMatches in Hre. apply (endsWith_tail _ _ 5) in Hre; [|vm_compute; lia].
    rewrite Htail in Hre.
    repeat (apply elem_of_cons in Hsuf as [->|Hsuf]);
      [vm_compute in Hre; discriminate Hre..|by apply elem_of_nil in Hsuf].
  - congruence.
  - unfold nameMatches in Hre. apply bool_decide_eq_true_1 in Hre.
    rewrite Hre in Htail.
    repeat (apply elem_of_cons in Hsuf as [->|Hsuf]);
      [vm_compute in Htail; discriminate Htail..|by apply elem_of_nil in Hsuf].
Qed.

End FileNames.

Section Listing.
Context (P : Platform) (L : CollationLaws P).

Lemma name_determines (l : list DirEntry) a b :
  NoDup (map name l) → a ∈ l → b ∈ l → name a = name b → a = b.
Proof.
  induction l as [|x l IH]; [by intros _ ?%elem_of_nil|]. simpl.
  intros [Hx Hnd]%NoDup_cons [->|Ha]%elem_of_cons [->|Hb]%elem_of_cons E.
  - done.
  - destruct Hx. rewrite E. by apply list_elem_of_fmap_2.
  - destruct Hx. rewrite <- E. by apply list_elem_of_fmap_2.
  - by apply IH.
Qed.

(** The order in which the directory is listed does not matter. When the
    names are distinct and the collation tells any two of them apart, two
    listings of the same entries are sorted into the same list, and the
    script writes the same table for both. *)
Theorem listing_order (l1 l2 : list DirEntry) :
  l1 ≡ₚ l2 → NoDup (map name l1) → tellsApart P (map name l1) →
  dirEntries P l1 = dirEntries P l2 ∧ script P l1 = script P l2.
Proof.
  intros Hp Hnd Htell.
  assert (dirEntries P l1 = dirEntries P l2) as E.
  { unfold dirEntries.
    set (after := fun a b : DirEntry => sortAlphabetical P (name a) (name b)).
    assert (∀ a b, after a b = true → after b a = false) as Hasym
      by (intros a b; apply (alphabetical_asym P L)).
    assert (∀ a b c, notAfter after a b → notAfter after b c → notAfter after a c)
      as Htrans by (intros a b c; apply (alphabetical_trans P L)).
    apply (sortBy_unique after Hasym Htrans).
    - by apply sortBy_sorted.
    - by rewrite sortBy_perm.
    - intros a b Ha Hb Hab Hba. rewrite sortBy_perm, <- Hp in Ha, Hb.
      apply (name_determines l1); [done..|].
      apply Htell; [by apply list_elem_of_fmap_2..|done|done]. }
  split; [done|]. unfold script. by rewrite E.
Qed.

End Listing.

Lemma each_file_once_witness :
  NoDup (buildMap Basic.platform threeFiles).2.
Proof.
  apply each_file_once. apply (bool_decide_unpack _). vm_compute. exact I.
Defined.

Lemma greek_not_read_witness :
  (buildMap Basic.platform
     [ {| name := str "Grek_Latn.txt";
          lines := [ {| lhs := [str "x"]; rhs := str "y" |} ] |};
       {| name := str "Latin_ASCII.txt"; lines := [] |} ]).2
  = [str "Latin_ASCII.txt"]
  ∧ str "Grek_Latn.txt"
    ∉ (buildMap Basic.platform
         [ {| name := str "Grek_Latn.txt";
              lines := [ {| lhs := [str "x"]; rhs := str "y" |} ] |};
           {| name := str "Latin_ASCII.txt"; lines := [] |} ]).2.
Proof.
  split; [vm_compute; reflexivity|].
  change (str "Grek_Latn.txt") with ([] ++ str "Grek" ++ str "_Latn.txt").
  apply greek_not_read. by left.
Defined.

Lemma listing_order_witness :
  dirEntries Basic.platform (reverse threeFiles)
  = dirEntries Basic.platform threeFiles
  ∧ script Basic.platform (reverse threeFiles)
    = script Basic.platform threeFiles.
Proof.
  apply (listing_order Basic.platform basic_collation_laws).
  - apply reverse_Permutation.
  - apply (bool_decide_unpack _). vm_compute. exact I.
  - apply basic_tellsApart.
Defined.

(** ** The earlier version of the script *)

Section EarlierScript.
Context (P : Platform).

Lemma outRev_agrees (m : JSMap) : ∀ G0 G,
  foldl (fun _out e =>
           match _out with Some o => pushUnder o e.2 e.1 | None => None end)
        (Some G0) m = Some G →
  foldl (fun o e => pushUnderNull o e.2 e.1) G0 m = G.
Proof.
  induction m as [|[k v] m IH]; intros G0 G; simpl; [by intros [= <-]|].
  destruct (pushUnder G0 v k) as [G1|] eqn:H1.
  - intros HG. assert (pushUnderNull G0 v k = G1) as ->; [|by apply IH].
    unfold pushUnder in H1. unfold pushUnderNull.
    destruct (objGet G0 v); [by injection H1|].
    destruct (bool_decide (v ∈ inheritedNames)); [done|by injection H1].
  - by rewrite grouping_stays_failed.
Qed.

(** The earlier version of the script groups the map in an object without
    prototype and does not pass the sources through a [Set]. Whenever the
    present version writes a table, the earlier derivation gives the same
    table for the same map: the two differ only where the present one
    fails. *)
Theorem out_as_before (m : JSMap) table :
  NoDup (mapKeys m) →
  out P m = Some table →
  writtenEarlier P m = table.
Proof.
  intros Hnd. unfold out, writtenEarlier, allOut, outRev.
  destruct (groupByTarget m) as [G|] eqn:HG; [|done]. intros [= <-].
  assert (groupsOf G m) as HGr.
  { apply (groupByTarget_groups m [] [] G); [|exact HG].
    split; [constructor|]. split; [constructor|done]. }
  rewrite (outRev_agrees m [] G HG). do 2 f_equal.
  apply map_ext_in. intros g Hg. f_equal. f_equal.
  symmetry. apply dedupe_nodup. rewrite sortBy_perm.
  apply list_elem_of_In in Hg. rewrite sortBy_perm, entries_perm in Hg.
  apply (NoDup_flat_map_inner snd G g); [|done].
  by rewrite (sources_of_groups G m HGr).
Qed.

End EarlierScript.

Lemma out_as_before_witness :
  out Basic.platform (Build.charMap smallTable) = Some smallTable
  ∧ writtenEarlier Basic.platform (Build.charMap smallTable) = smallTable.
Proof.
  assert (out Basic.platform (Build.charMap smallTable) = Some smallTable) as E
    by (vm_compute; reflexivity).
  split; [exact E|].
  refine (out_as_before Basic.platform _ _ _ E).
  apply (bool_decide_unpack _). vm_compute. exact I.
Defined.
